(** * protoc-gen-go-authz: the authz rule parser (parser.go)

    A shallow embedding of [protoc-gen-go-authz/parser.go] together with the
    parts of Go's [strings] and [regexp] packages that the parser calls, and
    the properties of the rule extraction that the design document states.

    Go strings are byte sequences: a text is a [list ascii], an offset is a
    Go [int] and is kept in [Z]. *)

From Stdlib Require Import Ascii String List ZArith Lia Bool Arith.
Import ListNotations.

Local Open Scope char_scope.
Local Open Scope list_scope.

(** ** Texts *)

Definition text := list ascii.

Definition txt (s : string) : text := list_ascii_of_string s.

Definition nl : ascii := "010".
Definition tab : ascii := "009".
Definition vt : ascii := "011".
Definition ff : ascii := "012".
Definition cr : ascii := "013".
Definition sp : ascii := " ".
Definition dq : ascii := "034".

(** A literal in which the backquote stands for the double quote. *)
Definition txtq (s : string) : text :=
  map (fun c => if Ascii.eqb c "`" then dq else c) (list_ascii_of_string s).

Definition len (s : text) : Z := Z.of_nat (length s).

(** [s[a:b]] for [0 <= a <= b <= len s], the only way the parser slices. *)
Definition slice (s : text) (a b : Z) : text :=
  firstn (Z.to_nat (b - a)) (skipn (Z.to_nat a) s).

Fixpoint stripPrefix (l s : text) : option text :=
  match l, s with
  | [], _ => Some s
  | a :: l', c :: s' => if Ascii.eqb a c then stripPrefix l' s' else None
  | _ :: _, [] => None
  end.

Fixpoint text_eqb (a b : text) : bool :=
  match a, b with
  | [], [] => true
  | x :: a', y :: b' => Ascii.eqb x y && text_eqb a' b'
  | _, _ => false
  end.

(** ** Package [strings] *)

Module strings.

Definition byte (n : nat) : ascii := ascii_of_nat n.

(** The runes of [unicode.IsSpace] in their UTF-8 encoding.  A rune is
    decoded as one of them exactly when its bytes are one of these
    sequences: an invalid or truncated sequence decodes to U+FFFD, which
    is no space, and no sequence is a prefix or a suffix of another. *)
Definition spaceRunes : list text :=
  [ [tab]; [nl]; [vt]; [ff]; [cr]; [sp];
    [byte 194; byte 133];                 (* U+0085 *)
    [byte 194; byte 160];                 (* U+00A0 *)
    [byte 225; byte 154; byte 128];       (* U+1680 *)
    [byte 226; byte 128; byte 128]; [byte 226; byte 128; byte 129];
    [byte 226; byte 128; byte 130]; [byte 226; byte 128; byte 131];
    [byte 226; byte 128; byte 132]; [byte 226; byte 128; byte 133];
    [byte 226; byte 128; byte 134]; [byte 226; byte 128; byte 135];
    [byte 226; byte 128; byte 136]; [byte 226; byte 128; byte 137];
    [byte 226; byte 128; byte 138];       (* U+2000 .. U+200A *)
    [byte 226; byte 128; byte 168];       (* U+2028 *)
    [byte 226; byte 128; byte 169];       (* U+2029 *)
    [byte 226; byte 128; byte 175];       (* U+202F *)
    [byte 226; byte 129; byte 159];       (* U+205F *)
    [byte 227; byte 128; byte 128] ].     (* U+3000 *)

Definition startsWith (l s : text) : bool :=
  match stripPrefix l s with Some _ => true | None => false end.

(** Width in bytes of the space rune [s] starts with, 0 when it starts
    with none. *)
Definition spaceWidth (runes : list text) (s : text) : nat :=
  match find (fun r => startsWith r s) runes with
  | Some r => length r
  | None => 0
  end.

(** Drops leading space runes; [skip] counts the bytes of the current rune
    still to drop. *)
Fixpoint dropSpaces (runes : list text) (s : text) (skip : nat) : text :=
  match s with
  | [] => []
  | _ :: s' =>
      match skip with
      | S n => dropSpaces runes s' n
      | O =>
          match spaceWidth runes s with
          | O => s
          | S n => dropSpaces runes s' n
          end
      end
  end.

Definition TrimLeftSpace (s : text) : text := dropSpaces spaceRunes s 0.

(** From the right Go decodes the last rune; read backwards, that is the
    same scan over the reversed bytes of the runes. *)
Definition TrimRightSpace (s : text) : text :=
  rev (dropSpaces (map (@rev ascii) spaceRunes) (rev s) 0).

Definition TrimSpace (s : text) : text := TrimRightSpace (TrimLeftSpace s).

Fixpoint trimLeftByte (s : text) (c : ascii) : text :=
  match s with
  | x :: s' => if Ascii.eqb x c then trimLeftByte s' c else s
  | [] => []
  end.

Definition trimRightByte (s : text) (c : ascii) : text :=
  rev (trimLeftByte (rev s) c).

(** [strings.Trim(s, cutset)] for a cutset of one ASCII byte. *)
Definition Trim (s : text) (c : ascii) : text :=
  trimLeftByte (trimRightByte s c) c.

(** [strings.Split(s, sep)] for a separator of one byte: the pieces between
    the separators, one more than there are separators. *)
Fixpoint Split (s : text) (sep : ascii) : list text :=
  match s with
  | [] => [[]]
  | c :: s' =>
      if Ascii.eqb c sep then [] :: Split s' sep
      else
        match Split s' sep with
        | p :: ps => (c :: p) :: ps
        | [] => [[c]]
        end
  end.

End strings.

(** ** Package [regexp]

    The six patterns of the parser are sequences of literals, character
    classes, starred character classes (greedy or not), one alternation of
    literals, the multi-line assertions and one capture group.  Go's engine
    returns the leftmost match and, among the matches that start there, the
    one a backtracking search finds first; [mtch] is that search.

    Go matches runes.  Every literal of the six patterns is ASCII and every
    class that takes a byte above 127 takes them all, so matching byte by
    byte finds the same spans. *)

Module regexp.

Inductive atom : Type :=
| Lit (l : text)              (* the characters of [l] *)
| Cls (p : ascii -> bool)     (* one character of the class *)
| Star (p : ascii -> bool)    (* [p*]: as many as possible first *)
| Lazy (p : ascii -> bool)    (* [p*?]: as few as possible first *)
| Alt (ls : list text)        (* [(l1|l2|...)], tried in order *)
| Bol                         (* [(?m)^] *)
| Eol                         (* [(?m)$] *)
| Mark.                       (* a parenthesis of the capture group *)

Definition regex := list atom.

(** What is left of the input after the match, and the inputs left at the
    group parentheses passed, in order. *)
Definition outcome := option (text * list text).

Definition isNl (c : ascii) : bool := Ascii.eqb c nl.

(** Whether the position after [l] starts a line. *)
Definition bolAfter (l : text) (bol : bool) : bool :=
  fold_left (fun _ c => isNl c) l bol.

Fixpoint greedy (p : ascii -> bool) (k : bool -> text -> outcome)
    (bol : bool) (s : text) : outcome :=
  match s with
  | c :: s' =>
      if p c then
        match greedy p k (isNl c) s' with
        | Some o => Some o
        | None => k bol s
        end
      else k bol s
  | [] => k bol s
  end.

Fixpoint lazy (p : ascii -> bool) (k : bool -> text -> outcome)
    (bol : bool) (s : text) : outcome :=
  match k bol s with
  | Some o => Some o
  | None =>
      match s with
      | c :: s' => if p c then lazy p k (isNl c) s' else None
      | [] => None
      end
  end.

Fixpoint firstOf (ls : list text) (k : bool -> text -> outcome)
    (bol : bool) (s : text) : outcome :=
  match ls with
  | [] => None
  | l :: ls' =>
      match stripPrefix l s with
      | Some s' =>
          match k (bolAfter l bol) s' with
          | Some o => Some o
          | None => firstOf ls' k bol s
          end
      | None => firstOf ls' k bol s
      end
  end.

(** The match of [r] that starts at the head of [s]; [bol] tells whether
    that position starts a line. *)
Fixpoint mtch (r : regex) (marks : list text) (bol : bool) (s : text)
    : outcome :=
  match r with
  | [] => Some (s, marks)
  | a :: r' =>
      match a with
      | Lit l =>
          match stripPrefix l s with
          | Some s' => mtch r' marks (bolAfter l bol) s'
          | None => None
          end
      | Cls p =>
          match s with
          | c :: s' => if p c then mtch r' marks (isNl c) s' else None
          | [] => None
          end
      | Star p => greedy p (mtch r' marks) bol s
      | Lazy p => lazy p (mtch r' marks) bol s
      | Alt ls => firstOf ls (mtch r' marks) bol s
      | Bol => if bol then mtch r' marks bol s else None
      | Eol =>
          match s with
          | [] => mtch r' marks bol s
          | c :: _ => if isNl c then mtch r' marks bol s else None
          end
      | Mark => mtch r' (marks ++ [s]) bol s
      end
  end.

(** The leftmost match in [s], which is the text from offset [pos] on:
    its start offset and its outcome. *)
Fixpoint search (r : regex) (bol : bool) (s : text) (pos : Z)
    : option (Z * (text * list text)) :=
  match mtch r [] bol s with
  | Some o => Some (pos, o)
  | None =>
      match s with
      | [] => None
      | c :: s' => search r (isNl c) s' (pos + 1)
      end
  end.

(** [re.FindStringIndex(s)]: start and end offset of the leftmost match. *)
Definition FindStringIndex (r : regex) (s : text) : option (Z * Z) :=
  match search r true s 0 with
  | Some (start, (rest, _)) => Some (start, (len s - len rest)%Z)
  | None => None
  end.

(** The text between two inputs left, the second a suffix of the first. *)
Definition between (from to : text) : text :=
  firstn (length from - length to) from.

(** [re.FindStringSubmatch(s)] for a pattern with one group: the text of
    the leftmost match and the text of its group. *)
Definition FindStringSubmatch (r : regex) (s : text) : option (list text) :=
  match search r true s 0 with
  | Some (start, (rest, [open; close])) =>
      Some [between (skipn (Z.to_nat start) s) rest; between open close]
  | Some (start, (rest, _)) => Some [between (skipn (Z.to_nat start) s) rest]
  | None => None
  end.

(** [re.ReplaceAllString] with the empty replacement: the matches are found
    left to right, each search starting where the match before ended, and
    dropped.  [skip] counts the characters of the current match still to
    drop.  (With the empty replacement an empty match changes nothing.) *)
Fixpoint removeAll (r : regex) (bol : bool) (s : text) (skip : nat) : text :=
  match s with
  | [] => []
  | c :: s' =>
      match skip with
      | S n => removeAll r (isNl c) s' n
      | O =>
          match mtch r [] bol s with
          | Some (rest, _) =>
              match length s - length rest with
              | S n => removeAll r (isNl c) s' n
              | O => c :: removeAll r (isNl c) s' 0
              end
          | None => c :: removeAll r (isNl c) s' 0
          end
      end
  end.

Definition ReplaceAllString_empty (r : regex) (s : text) : text :=
  removeAll r true s 0.

(** [\s] is [[\t\n\f\r ]]. *)
Definition space (c : ascii) : bool :=
  Ascii.eqb c tab || Ascii.eqb c nl || Ascii.eqb c ff || Ascii.eqb c cr
  || Ascii.eqb c sp.

(** [.] is every character but the newline. *)
Definition dot (c : ascii) : bool := negb (Ascii.eqb c nl).

(** [[\s\S]] is every character. *)
Definition any (c : ascii) : bool := true.

Definition notChar (x : ascii) (c : ascii) : bool := negb (Ascii.eqb c x).

End regexp.

(** ** The data of the parser *)

Inductive braceSite : Type := InMethod | InAuthzBlock.

(** The errors of parser.go, one constructor per [fmt.Errorf]. *)
Inductive error : Type :=
| FileReadFailure                 (* failed to read proto file *)
| MethodNotFound                  (* method ... not found in proto file *)
| UnmatchedBraces (site : braceSite)
                                  (* unmatched braces in method ... /
                                     unmatched braces in authz block for method ... *)
| AuthzOptionsNotFound            (* authz options not found for method ... *)
| PermissionsParseFailure         (* failed to parse permissions *)
| NoHTTPAnnotation                (* no HTTP annotation found *)
| NoHTTPMethodFound               (* no HTTP method found in rule *)
| ExtractAuthzFailed (cause : error)  (* failed to extract authz options: %w *)
| ExtractHTTPFailed (cause : error).  (* failed to extract HTTP info: %w *)

Inductive result (A : Type) : Type :=
| Ok (a : A)
| Err (e : error).

Arguments Ok {A} a.
Arguments Err {A} e.

Definition isOk {A : Type} (r : result A) : bool :=
  match r with Ok _ => true | Err _ => false end.

Record authzRule : Type := mkRule {
  HTTPPath : text;
  HTTPMethod : text;
  Permissions : list text;
  NoAuthRequired : bool
}.

(** A field of a message as reflection shows it: its name, whether the
    message has it ([reflectMsg.Has]) and [reflectMsg.Get(field).String()]. *)
Record field : Type := mkField {
  fieldName : text;
  fieldHas : bool;
  fieldString : text
}.

(** A message: its declared fields in descriptor order. *)
Definition message := list field.

(** The compiled options of a method: the [google.api.http] extension when
    [proto.HasExtension] holds. *)
Record MethodOptions : Type := mkOptions {
  E_Http : option message
}.

Record Method : Type := mkMethod {
  Name : text;             (* method.Desc.Name() *)
  ParentFilePath : text;   (* method.Desc.ParentFile().Path() *)
  Options : MethodOptions  (* method.Desc.Options() *)
}.

Record Service : Type := mkService { Methods : list Method }.

Record File : Type := mkFile { Services : list Service }.

(** [os.ReadFile]: the content of the file at a path, if it can be read. *)
Definition FileSystem := text -> option text.

(** ** The patterns *)

Import regexp.

(** [rpc\s+NAME\s*\([^)]*\)\s*returns\s*\([^)]*\)\s*\{], where NAME is
    [regexp.QuoteMeta(methodName)], which matches the name (an identifier of
    the proto grammar) literally. *)
Definition rpcRegex (methodName : text) : regex :=
  [ Lit (txt "rpc"); Cls space; Star space; Lit methodName; Star space;
    Lit (txt "("); Star (notChar ")"); Lit (txt ")"); Star space;
    Lit (txt "returns"); Star space;
    Lit (txt "("); Star (notChar ")"); Lit (txt ")"); Star space;
    Lit (txt "{") ].

(** [option\s*\(\s*proto\.v1\.authz\s*\)\s*=\s*\{] *)
Definition authzStartRegex : regex :=
  [ Lit (txt "option"); Star space; Lit (txt "("); Star space;
    Lit (txt "proto.v1.authz"); Star space; Lit (txt ")"); Star space;
    Lit (txt "="); Star space; Lit (txt "{") ].

(** [(?m)^\s*//.*$] *)
Definition singleLineCommentRegex : regex :=
  [ Bol; Star space; Lit (txt "//"); Star dot; Eol ].

(** [/\*[\s\S]*?\*/] *)
Definition multiLineCommentRegex : regex :=
  [ Lit (txt "/*"); Lazy any; Lit (txt "*/") ].

(** [permissions\s*:\s*\[(.*?)\]] *)
Definition permissionsRegex : regex :=
  [ Lit (txt "permissions"); Star space; Lit (txt ":"); Star space;
    Lit (txt "["); Mark; Lazy dot; Mark; Lit (txt "]") ].

(** [no_auth_required\s*:\s*(true|false)] *)
Definition noAuthRegex : regex :=
  [ Lit (txt "no_auth_required"); Star space; Lit (txt ":"); Star space;
    Mark; Alt [txt "true"; txt "false"]; Mark ].

(** ** parser.go *)

(** The loop of lines 124-132 and of lines 154-162: [rest] is the text from
    offset [pos] on. *)
Fixpoint scanBraces (rest : text) (pos braceCount : Z) : Z * Z :=
  match rest with
  | [] => (pos, braceCount)
  | c :: rest' =>
      if (braceCount >? 0)%Z then
        scanBraces rest' (pos + 1)%Z
          (if Ascii.eqb c "{" then (braceCount + 1)%Z
           else if Ascii.eqb c "}" then (braceCount - 1)%Z
           else braceCount)
      else (pos, braceCount)
  end.

(** The scan started at offset [start] of [content], just after an opening
    brace. *)
Definition matchBrace (content : text) (start : Z) : Z * Z :=
  scanBraces (skipn (Z.to_nat start) content) start 1.

Definition cleanPermission (perm : text) : text :=
  strings.Trim (strings.Trim (strings.TrimSpace perm) dq) "'".

Definition parsePermissionsString (permissionsStr : text) : result (list text) :=
  let permissionsStr := strings.TrimSpace permissionsStr in
  match permissionsStr with
  | [] => Ok []
  | _ =>
      let rawPermissions := strings.Split permissionsStr "," in
      Ok (fold_left
            (fun permissions perm =>
               match cleanPermission perm with
               | [] => permissions
               | p => permissions ++ [p]
               end)
            rawPermissions [])
  end.

(** Lines 170-177: the comments are taken out of the authz block. *)
Definition stripComments (authzBody : text) : text :=
  let authzBody := ReplaceAllString_empty singleLineCommentRegex authzBody in
  ReplaceAllString_empty multiLineCommentRegex authzBody.

(** Lines 179-199: the two fields are read from the block without comments. *)
Definition parseFields (authzBody : text) : result (list text * bool) :=
  let permissions :=
    match FindStringSubmatch permissionsRegex authzBody with
    | Some (_ :: list1 :: _) => parsePermissionsString list1
    | _ => Ok []
    end in
  match permissions with
  | Err _ => Err PermissionsParseFailure
  | Ok permissions =>
      let noAuthRequired :=
        match FindStringSubmatch noAuthRegex authzBody with
        | Some (_ :: flag :: _) => text_eqb flag (txt "true")
        | _ => false
        end in
      Ok (permissions, noAuthRequired)
  end.

(** Lines 140-168: the authz block of a method body. *)
Definition authzBlock (methodBody : text) : result text :=
  match FindStringIndex authzStartRegex methodBody with
  | None => Err AuthzOptionsNotFound
  | Some (_, authzStartPos) =>
      let '(authzCurPos, authzBraceCount) := matchBrace methodBody authzStartPos in
      if negb (authzBraceCount =? 0)%Z then Err (UnmatchedBraces InAuthzBlock)
      else Ok (slice methodBody authzStartPos (authzCurPos - 1))
  end.

(** Lines 110-138: the body of the method in the content of the file. *)
Definition methodBodyOf (content methodName : text) : result text :=
  match FindStringIndex (rpcRegex methodName) content with
  | None => Err MethodNotFound
  | Some (_, rpcEnd) =>
      let openBrace := (rpcEnd - 1)%Z in
      let '(pos, braceCount) := matchBrace content (openBrace + 1) in
      if negb (braceCount =? 0)%Z then Err (UnmatchedBraces InMethod)
      else Ok (slice content (openBrace + 1) (pos - 1))
  end.

Definition extractAuthzFromProtoFile (fs : FileSystem)
    (protoPath methodName : text) : result (list text * bool) :=
  match fs protoPath with
  | None => Err FileReadFailure
  | Some content =>
      match methodBodyOf content methodName with
      | Err e => Err e
      | Ok methodBody =>
          match authzBlock methodBody with
          | Err e => Err e
          | Ok authzBody => parseFields (stripComments authzBody)
          end
      end
  end.

Definition extractFromProtoSource (fs : FileSystem) (method : Method)
    : result (list text * bool) :=
  extractAuthzFromProtoFile fs (ParentFilePath method) (Name method).

Definition extractAuthzOptions (fs : FileSystem) (method : Method)
    : result (list text * bool) :=
  extractFromProtoSource fs method.

Definition verbOf (name : text) : option text :=
  if text_eqb name (txt "get") then Some (txt "GET")
  else if text_eqb name (txt "post") then Some (txt "POST")
  else if text_eqb name (txt "put") then Some (txt "PUT")
  else if text_eqb name (txt "delete") then Some (txt "DELETE")
  else if text_eqb name (txt "patch") then Some (txt "PATCH")
  else None.

(** The loop over [fields.Get(i)], [i] from 0 to [fields.Len()]. *)
Fixpoint extractHTTPInfoFromRule (httpRule : message) : result (text * text) :=
  match httpRule with
  | [] => Err NoHTTPMethodFound
  | f :: fields =>
      if negb (fieldHas f) then extractHTTPInfoFromRule fields
      else
        match verbOf (fieldName f) with
        | Some verb => Ok (fieldString f, verb)
        | None => extractHTTPInfoFromRule fields
        end
  end.

Definition extractHTTPInfo (method : Method) : result (text * text) :=
  match E_Http (Options method) with
  | Some httpRule => extractHTTPInfoFromRule httpRule
  | None => Err NoHTTPAnnotation
  end.

Definition parseMethod (fs : FileSystem) (method : Method) : result authzRule :=
  match extractAuthzOptions fs method with
  | Err e => Err (ExtractAuthzFailed e)
  | Ok (permissions, noAuthRequired) =>
      match extractHTTPInfo method with
      | Err e => Err (ExtractHTTPFailed e)
      | Ok (httpPath, httpMethod) =>
          Ok {| HTTPPath := httpPath;
                HTTPMethod := httpMethod;
                Permissions := permissions;
                NoAuthRequired := noAuthRequired |}
      end
  end.

Definition parseService (fs : FileSystem) (service : Service) : list authzRule :=
  fold_left
    (fun rules method =>
       match parseMethod fs method with
       | Err _ => rules
       | Ok rule => rules ++ [rule]
       end)
    (Methods service) [].

Definition parseFile (fs : FileSystem) (file : File) : list authzRule :=
  fold_left
    (fun rules service => rules ++ parseService fs service)
    (Services file) [].

(** ** Notions of the design document *)

(** What one method contributes to the rules of its service. *)
Definition rulesOf (fs : FileSystem) (method : Method) : list authzRule :=
  match parseMethod fs method with
  | Ok rule => [rule]
  | Err _ => []
  end.

(** The brace depth after one more character. *)
Definition braceStep (depth : Z) (c : ascii) : Z :=
  if Ascii.eqb c "{" then (depth + 1)%Z
  else if Ascii.eqb c "}" then (depth - 1)%Z
  else depth.

(** The brace depth at offset [e] of [content] when the depth is 1 at offset
    [start], just after an opening brace. *)
Definition depthAt (content : text) (start e : Z) : Z :=
  fold_left braceStep (slice content start e) 1%Z.

(** The brace opened just before offset [start] is closed by the character
    just before offset [pos]: the depth reaches 0 there for the first time. *)
Definition closesAt (content : text) (start pos : Z) : Prop :=
  (start < pos <= len content)%Z /\
  depthAt content start pos = 0%Z /\
  (forall e, start <= e < pos -> 0 < depthAt content start e)%Z.

(** The end of the text is reached at a depth above 0. *)
Definition neverCloses (content : text) (start : Z) : Prop :=
  (forall e, start <= e <= len content -> 0 < depthAt content start e)%Z.

(** The five verb fields of an HTTP binding and the verbs they stand for. *)
Definition verbTable : list (text * text) :=
  [ (txt "get", txt "GET"); (txt "post", txt "POST"); (txt "put", txt "PUT");
    (txt "delete", txt "DELETE"); (txt "patch", txt "PATCH") ].

(** A field that is set and carries one of the five verb names. *)
Definition populatedVerb (f : field) : Prop :=
  fieldHas f = true /\ exists verb, In (fieldName f, verb) verbTable.

(** [needle] occurs in [hay]. *)
Definition occurs (needle hay : text) : Prop :=
  exists before after, hay = before ++ needle ++ after.

(** All characters of [s] are in the class [p]. *)
Definition allOf (p : ascii -> bool) (s : text) : Prop :=
  forallb p s = true.

(** [s] is empty or starts with a character outside the class [p]. *)
Definition stops (p : ascii -> bool) (s : text) : Prop :=
  match s with
  | [] => True
  | c :: _ => p c = false
  end.

(** White space that is not a newline. *)
Definition blank (c : ascii) : bool :=
  Ascii.eqb c sp || Ascii.eqb c tab || Ascii.eqb c cr || Ascii.eqb c ff
  || Ascii.eqb c vt.

(** [s] neither starts nor ends with the character [c]. *)
Definition edgeFree (c : ascii) (s : text) : Prop :=
  hd_error s <> Some c /\ hd_error (rev s) <> Some c.

Inductive quoteStyle : Type := Double | Single.

Definition quoteChar (style : quoteStyle) : ascii :=
  match style with Double => dq | Single => "'" end.

(** An element of a permissions list as it is written: the element between
    quotes, with white space before and after. *)
Record item : Type := mkItem {
  padLeft : text;
  style : quoteStyle;
  element : text;
  padRight : text
}.

Definition quoted (style : quoteStyle) (element : text) : text :=
  [quoteChar style] ++ element ++ [quoteChar style].

Definition renderItem (it : item) : text :=
  padLeft it ++ quoted (style it) (element it) ++ padRight it.

Fixpoint joinWith (sep : text) (l : list text) : text :=
  match l with
  | [] => []
  | [x] => x
  | x :: l' => x ++ sep ++ joinWith sep l'
  end.

(** The text between the brackets. *)
Definition renderList (items : list item) : text :=
  joinWith (txt ",") (map renderItem items).

(** A declaration of the permissions with its white space. *)
Definition declaration (ws1 ws2 inner : text) : text :=
  txt "permissions" ++ ws1 ++ txt ":" ++ ws2 ++ txt "[" ++ inner ++ txt "]".

(** The elements that are not empty. *)
Definition nonEmpty (l : list text) : list text :=
  filter (fun e => match e with [] => false | _ => true end) l.

(** An element without the characters the reading of the list stops at. *)
Definition plain (e : text) : Prop :=
  ~ In "," e /\ ~ In "]" e /\ ~ In nl e.

(** An item the parser reads back as written: blank paddings, and an
    element that is plain and has no quote character at either end. *)
Definition wellQuoted (it : item) : Prop :=
  allOf blank (padLeft it) /\ allOf blank (padRight it) /\
  plain (element it) /\
  edgeFree dq (element it) /\ edgeFree "'" (element it).

(** No proper suffix of [l] is a prefix of [l]. *)
Definition borderless (l : text) : bool :=
  forallb (fun k => negb (text_eqb (skipn k l) (firstn (length l - k) l)))
    (seq 1 (length l - 1)).

(** What an element of the split list adds to the permissions. *)
Definition cleanNonEmpty (perm : text) : list text :=
  match cleanPermission perm with
  | [] => []
  | p => [p]
  end.

(** The permissions read from an authz block. *)
Definition readPermissions (block : text) : option (list text) :=
  match parseFields (stripComments block) with
  | Ok (permissions, _) => Some permissions
  | Err _ => None
  end.

(** The flag read from an authz block. *)
Definition readNoAuth (block : text) : option bool :=
  match parseFields (stripComments block) with
  | Ok (_, noAuthRequired) => Some noAuthRequired
  | Err _ => None
  end.

(** Whether [needle] occurs in [hay]. *)
Fixpoint occursb (needle hay : text) : bool :=
  match stripPrefix needle hay with
  | Some _ => true
  | None =>
      match hay with
      | [] => false
      | _ :: hay' => occursb needle hay'
      end
  end.

(** The format of the field parsers: the permissions as a bracketed list of
    quoted elements separated by commas, and the flag as a boolean literal. *)
Definition serializeBool (b : bool) : text :=
  if b then txt "true" else txt "false".

Definition serialize (permissions : list text) (noAuthRequired : bool) : text :=
  txt "permissions: ["
    ++ joinWith (txt ", ") (map (quoted Double) permissions)
    ++ txt "]" ++ [nl]
    ++ txt "no_auth_required: " ++ serializeBool noAuthRequired.

(** A permission the format gives back: not empty, plain, without a quote
    character at either end, and not holding the name of the flag. *)
Definition roundTrips (e : text) : Prop :=
  e <> [] /\ plain e /\ edgeFree dq e /\ edgeFree "'" e /\
  ~ occurs (txt "no_auth_required") e.

(** The items of a serialized list: a space after each comma. *)
Definition itemsOf (permissions : list text) : list item :=
  match permissions with
  | [] => []
  | p :: ps =>
      mkItem [] Double p [] :: map (fun e => mkItem [sp] Double e []) ps
  end.

(** [w] is empty or ends with a newline: what follows it starts a line. *)
Definition lineEnd (w : text) : Prop :=
  w = [] \/ exists w', w = w' ++ [nl].

(** [s] ends with the character [c]. *)
Definition endsWith (c : ascii) (s : text) : Prop :=
  exists s', s = s' ++ [c].

(** The name of the flag. *)
Definition flagName : text := txt "no_auth_required".

(** A character no space rune starts or ends with. *)
Definition solid (c : ascii) : bool :=
  negb (existsb (fun r => Ascii.eqb (hd c r) c || Ascii.eqb (last r c) c)
          strings.spaceRunes).

(** A continuation of the matcher that only ever returns a suffix of its
    input. *)
Definition suffixK (k : bool -> text -> outcome) : Prop :=
  forall bol s rest marks,
    k bol s = Some (rest, marks) -> exists pre, s = pre ++ rest.

(** A continuation of the matcher that fails on every input that starts in
    the class. *)
Definition failsOn (p : ascii -> bool) (k : bool -> text -> outcome) : Prop :=
  forall bol c s, p c = true -> k bol (c :: s) = None.

(** Whether the braces of [s] are matched when the depth is [depth] before
    it: the depth stays above 0 and is 1 after [s]. *)
Fixpoint nested (s : text) (depth : Z) : bool :=
  match s with
  | [] => (depth =? 1)%Z
  | c :: s' => (0 <? braceStep depth c)%Z && nested s' (braceStep depth c)
  end.

(** The head of a method declaration as the pattern of line 111 reads it:
    the name, the texts between the parentheses and the white space. *)
Record signature : Type := mkSignature {
  gapName : text;       (* after [rpc] *)
  rpcName : text;
  gapRequest : text;    (* after the name *)
  request : text;
  gapReturns : text;    (* after the first closing parenthesis *)
  gapResponse : text;   (* after [returns] *)
  response : text;
  gapBrace : text       (* before the opening brace *)
}.

Definition renderSignature (g : signature) : text :=
  txt "rpc" ++ gapName g ++ rpcName g ++ gapRequest g
    ++ txt "(" ++ request g ++ txt ")" ++ gapReturns g
    ++ txt "returns" ++ gapResponse g
    ++ txt "(" ++ response g ++ txt ")" ++ gapBrace g ++ txt "{".

(** A character of a method name: no white space and no parenthesis. *)
Definition nameChar (c : ascii) : bool :=
  negb (space c) && negb (Ascii.eqb c "(").

(** The white space is white space, there is some after [rpc], and the
    texts between the parentheses hold no closing parenthesis. *)
Definition wellFormed (g : signature) : Prop :=
  gapName g <> [] /\ allOf space (gapName g) /\
  allOf space (gapRequest g) /\ allOf (notChar ")") (request g) /\
  allOf space (gapReturns g) /\ allOf space (gapResponse g) /\
  allOf (notChar ")") (response g) /\ allOf space (gapBrace g).

(** A method name the pattern finds where it is declared: not empty, made
    of name characters. *)
Definition properName (name : text) : Prop :=
  name <> [] /\ allOf nameChar name.

(** The head of the authz option as the pattern of line 142 reads it, with
    its five stretches of white space. *)
Definition authzHeader (g1 g2 g3 g4 g5 : text) : text :=
  txt "option" ++ g1 ++ txt "(" ++ g2 ++ txt "proto.v1.authz" ++ g3
    ++ txt ")" ++ g4 ++ txt "=" ++ g5 ++ txt "{".

(** [s] starts with the head of a method of that name. *)
Definition methodHead (name s : text) : Prop :=
  exists g rest,
    s = renderSignature g ++ rest /\ rpcName g = name /\ wellFormed g.

(** [s] starts with the head of the authz option. *)
Definition authzHead (s : text) : Prop :=
  exists g1 g2 g3 g4 g5 rest,
    s = authzHeader g1 g2 g3 g4 g5 ++ rest /\
    allOf space g1 /\ allOf space g2 /\ allOf space g3 /\ allOf space g4 /\
    allOf space g5.

(** No text with the property [P] starts in [pre] when [s] follows it. *)
Definition noneBefore (P : text -> Prop) (pre s : text) : Prop :=
  forall a b, pre = a ++ b -> b <> [] -> ~ P (b ++ s).

(** A declaration of the flag with its white space. *)
Definition flagDeclaration (ws1 ws2 value : text) : text :=
  flagName ++ ws1 ++ txt ":" ++ ws2 ++ value.

(** What stands between the fields of a block: white space, commas and
    semicolons. *)
Definition filler (c : ascii) : bool :=
  space c || Ascii.eqb c "," || Ascii.eqb c ";".

(** The verbs of lines 269-285. *)
Definition httpVerbs : list text :=
  [ txt "GET"; txt "POST"; txt "PUT"; txt "DELETE"; txt "PATCH" ].

(** [sub] is [s] with some of its characters taken out. *)
Inductive subsequence : text -> text -> Prop :=
| sub_nil : subsequence [] []
| sub_keep : forall c sub s, subsequence sub s -> subsequence (c :: sub) (c :: s)
| sub_drop : forall c sub s, subsequence sub s -> subsequence sub (c :: s).

(** ** Sample inputs *)

Module samples.

(** The file of the README. *)
Definition readme : text := txtq "service TestService {
  rpc TestNoPermissions(TestRequest) returns (TestResponse) {
    option (google.api.http) = {
      post: `/v1/test/{foo_id}`
      body: `*`
    };
    option (proto.v1.authz) = {no_auth_required: true};
  }

  rpc TestWithPermissions(TestRequest) returns (TestResponse) {
    option (google.api.http) = {
      post: `/v1/test2/{foo_id}`
      body: `*`
    };
    option (proto.v1.authz) = {
      permissions: [`read:all`]
    };
  }
}
".

(** A file system with one file, [test.proto]. *)
Definition oneFile (content : text) : FileSystem :=
  fun path => if text_eqb path (txt "test.proto") then Some content else None.

Definition unset (name : string) : field := mkField (txt name) false [].

(** A [google.api.HttpRule] with [post] and [body] set; the fields are the
    ones of the message, in the order of its descriptor. *)
Definition postRule (path : text) : message :=
  [ unset "selector"; unset "get"; unset "put"; mkField (txt "post") true path;
    unset "delete"; unset "patch"; unset "custom";
    mkField (txt "body") true (txt "*"); unset "response_body";
    unset "additional_bindings" ].

Definition getRule (path : text) : message :=
  [ unset "selector"; mkField (txt "get") true path; unset "put"; unset "post";
    unset "delete"; unset "patch"; unset "custom"; unset "body";
    unset "response_body"; unset "additional_bindings" ].

Definition methodOf (name : string) (http : option message) : Method :=
  mkMethod (txt name) (txt "test.proto") (mkOptions http).

Definition testNoPermissions : Method :=
  methodOf "TestNoPermissions" (Some (postRule (txt "/v1/test/{foo_id}"))).

Definition testWithPermissions : Method :=
  methodOf "TestWithPermissions" (Some (postRule (txt "/v1/test2/{foo_id}"))).

(** A method the file does not declare an authz option for is modelled by
    a name the file lacks; one without an HTTP binding by [None]. *)
Definition noHTTP : Method := methodOf "TestWithPermissions" None.

(** A line comment of the method body holds a closing brace. *)
Definition braceInComment : text := txtq "service S {
  rpc Get(Req) returns (Res) {
    // closes } early
    option (proto.v1.authz) = {no_auth_required: true};
  }
}
".

(** The same method without the comment. *)
Definition braceInCommentRemoved : text := txtq "service S {
  rpc Get(Req) returns (Res) {
    option (proto.v1.authz) = {no_auth_required: true};
  }
}
".

(** A line comment of the authz block holds two opening braces. *)
Definition openInComment : text := txtq "service S {
  rpc Get(Req) returns (Res) {
    option (proto.v1.authz) = {
      // scopes {{
      no_auth_required: true
    };
  }
}
".

(** A line comment of the authz block holds one opening brace. *)
Definition oneOpenInComment : text := txtq "service S {
  rpc Get(Req) returns (Res) {
    option (proto.v1.authz) = {
      // scope {
      permissions: [`a`]
    };
  }
}
".

(** The authz option of the method is commented out. *)
Definition decoyHeader : text := txtq "service S {
  rpc Get(Req) returns (Res) {
    option (google.api.http) = { get: `/v1/x` };
    // option (proto.v1.authz) = {no_auth_required: true};
  }
}
".

(** A commented-out authz option precedes the live one. *)
Definition decoyBeforeHeader : text := txtq "service S {
  rpc Get(Req) returns (Res) {
    // option (proto.v1.authz) = {no_auth_required: true};
    option (proto.v1.authz) = { permissions: [`read`] };
  }
}
".

Definition getMethod : Method := methodOf "Get" (Some (getRule (txt "/v1/x"))).

(** A permission of the method holds the text of a declaration of the
    flag; the block declares no flag. *)
Definition flagInPermission : text := txtq "service S {
  rpc Get(Req) returns (Res) {
    option (google.api.http) = { get: `/v1/x` };
    option (proto.v1.authz) = { permissions: [`no_auth_required: true`] };
  }
}
".

(** A method with an HTTP annotation and no authz option. *)
Definition httpOnly : text := txtq "service S {
  rpc Get(Req) returns (Res) {
    option (google.api.http) = { get: `/v1/x` };
  }
}
".

(** The body of a method with both options on one line. *)
Definition twoOptions : text :=
  txtq " option (google.api.http) = { get: `/v1/x` }; "
    ++ txt "option (proto.v1.authz) = {no_auth_required: true}; ".

(** A method whose authz block declares the permissions. *)
Definition permissionsOnly : text :=
  txt "service S { rpc Get(Req) returns (Res) { "
    ++ txtq "option (proto.v1.authz) = { permissions: [`a`] }; } }".

(** A method whose authz block declares both fields. *)
Definition bothFields : text :=
  txt "service S { rpc Get(Req) returns (Res) { option (proto.v1.authz) = {"
    ++ txtq " permissions: [`a`], no_auth_required: false }; } }".

(** The head of the method of these files. *)
Definition getSignature : signature :=
  mkSignature [sp] (txt "Get") [] (txt "Req") [sp] [sp] (txt "Res") [sp].

End samples.

(** * Properties *)

(** ** The assembly of the rules *)

Lemma fold_left_append :
  forall (A B : Type) (f : A -> list B) (l : list A) (acc : list B),
    fold_left (fun rules x => rules ++ f x) l acc = acc ++ flat_map f l.
Proof.
  intros A B f l; induction l as [| x l IH]; intros acc; simpl.
  - now rewrite app_nil_r.
  - now rewrite IH, app_assoc.
Qed.

Lemma parseService_loop :
  forall fs methods acc,
    fold_left
      (fun rules method =>
         match parseMethod fs method with
         | Err _ => rules
         | Ok rule => rules ++ [rule]
         end) methods acc
    = acc ++ flat_map (rulesOf fs) methods.
Proof.
  intros fs methods; induction methods as [| m ms IH]; intros acc; simpl.
  - now rewrite app_nil_r.
  - rewrite IH. unfold rulesOf at 2.
    destruct (parseMethod fs m); simpl; [now rewrite <- app_assoc | reflexivity].
Qed.

Lemma parseService_flat_map :
  forall fs service,
    parseService fs service = flat_map (rulesOf fs) (Methods service).
Proof. intros fs service. unfold parseService. now rewrite parseService_loop. Qed.

Lemma parseFile_flat_map :
  forall fs file,
    parseFile fs file = flat_map (parseService fs) (Services file).
Proof.
  intros fs file. unfold parseFile.
  now rewrite fold_left_append.
Qed.

Lemma parseMethod_authz_error :
  forall fs method e,
    extractAuthzOptions fs method = Err e ->
    parseMethod fs method = Err (ExtractAuthzFailed e).
Proof. intros fs method e H. unfold parseMethod. now rewrite H. Qed.

Lemma parseMethod_http_error :
  forall fs method e,
    extractHTTPInfo method = Err e ->
    exists e', parseMethod fs method = Err e'.
Proof.
  intros fs method e H. unfold parseMethod. rewrite H.
  destruct (extractAuthzOptions fs method) as [[perms flag] | e0]; eauto.
Qed.

(** ** Facts about texts *)

Ltac splits := repeat match goal with |- _ /\ _ => split end.

(** Brings concatenations into right-nested form. *)
Ltac flatten_app :=
  repeat first [rewrite <- app_assoc | progress cbn [app]].

Lemma stripPrefix_Some :
  forall l s s', stripPrefix l s = Some s' <-> s = l ++ s'.
Proof.
  induction l as [| a l IH]; intros s s'; simpl.
  - split; [now inversion 1 | now intros ->].
  - destruct s as [| c s]; [split; discriminate |].
    destruct (Ascii.eqb_spec a c) as [-> | Hne].
    + rewrite IH. split; [now intros -> | now inversion 1].
    + split; [discriminate | inversion 1; congruence].
Qed.

Lemma stripPrefix_app :
  forall l s, stripPrefix l (l ++ s) = Some s.
Proof. intros l s. now apply stripPrefix_Some. Qed.

Lemma len_app : forall a b : text, len (a ++ b) = (len a + len b)%Z.
Proof. intros a b. unfold len. rewrite length_app. lia. Qed.

Lemma len_nonneg : forall a : text, (0 <= len a)%Z.
Proof. intros a. unfold len. lia. Qed.

Lemma slice_app_mid :
  forall a b c : text, slice (a ++ b ++ c) (len a) (len a + len b) = b.
Proof.
  intros a b c. unfold slice, len.
  rewrite Nat2Z.id.
  replace (Z.to_nat (Z.of_nat (length a) + Z.of_nat (length b) - Z.of_nat (length a)))
    with (length b) by lia.
  rewrite skipn_app, skipn_all, Nat.sub_diag. simpl.
  rewrite firstn_app, firstn_all, Nat.sub_diag. simpl.
  now rewrite app_nil_r.
Qed.

(** ** Facts about the matcher *)

Module regexp_facts.
Import regexp.

Lemma greedy_suffix :
  forall p k, suffixK k -> suffixK (greedy p k).
Proof.
  intros p k Hk bol s; revert bol.
  induction s as [| c s IH]; intros bol rest marks; simpl.
  - apply Hk.
  - destruct (p c); [| apply Hk].
    destruct (greedy p k (isNl c) s) as [o |] eqn:E.
    + intros H; inversion H; subst o.
      destruct (IH _ _ _ E) as [pre ->]. now exists (c :: pre).
    + apply Hk.
Qed.

Lemma lazy_suffix :
  forall p k, suffixK k -> suffixK (lazy p k).
Proof.
  intros p k Hk bol s; revert bol.
  induction s as [| c s IH]; intros bol rest marks; simpl.
  - destruct (k bol []) as [o |] eqn:E; [| discriminate].
    intros H; inversion H; subst o. eapply Hk; eauto.
  - destruct (k bol (c :: s)) as [o |] eqn:E.
    + intros H; inversion H; subst o. eapply Hk; eauto.
    + destruct (p c); [| discriminate].
      intros H. destruct (IH _ _ _ H) as [pre ->]. now exists (c :: pre).
Qed.

Lemma firstOf_suffix :
  forall ls k, suffixK k -> suffixK (firstOf ls k).
Proof.
  intros ls k Hk bol s rest marks.
  induction ls as [| l ls IH]; simpl; [discriminate |].
  destruct (stripPrefix l s) as [s' |] eqn:E; [| exact IH].
  destruct (k (bolAfter l bol) s') as [o |] eqn:E'; [| exact IH].
  intros H; inversion H; subst o.
  apply stripPrefix_Some in E. destruct (Hk _ _ _ _ E') as [pre ->].
  exists (l ++ pre). now rewrite E, app_assoc.
Qed.

Lemma mtch_suffix :
  forall r marks, suffixK (mtch r marks).
Proof.
  induction r as [| a r IH]; intros marks bol s rest marks'; simpl.
  - intros H; inversion H; subst. now exists [].
  - destruct a.
    + destruct (stripPrefix l s) as [s' |] eqn:E; [| discriminate].
      intros H. apply stripPrefix_Some in E.
      destruct (IH _ _ _ _ _ H) as [pre ->]. exists (l ++ pre).
      now rewrite E, app_assoc.
    + destruct s as [| c s]; [discriminate |].
      destruct (p c); [| discriminate].
      intros H. destruct (IH _ _ _ _ _ H) as [pre ->]. now exists (c :: pre).
    + apply greedy_suffix, IH.
    + apply lazy_suffix, IH.
    + apply firstOf_suffix, IH.
    + destruct bol; [apply IH | discriminate].
    + destruct s as [| c s]; [apply IH |].
      destruct (isNl c); [apply IH | discriminate].
    + apply IH.
Qed.

Lemma search_span :
  forall r s bol pos start rest marks,
    search r bol s pos = Some (start, (rest, marks)) ->
    exists pre mid,
      s = pre ++ mid ++ rest /\ start = (pos + len pre)%Z.
Proof.
  intros r s; induction s as [| c s IH]; intros bol pos start rest marks; simpl.
  - destruct (mtch r [] bol []) as [o |] eqn:E; [| discriminate].
    intros H; inversion H; subst.
    destruct (mtch_suffix _ _ _ _ _ _ E) as [mid Hmid].
    exists [], mid. split; [exact Hmid | unfold len; simpl; lia].
  - destruct (mtch r [] bol (c :: s)) as [o |] eqn:E.
    + intros H; inversion H; subst.
      destruct (mtch_suffix _ _ _ _ _ _ E) as [mid Hmid].
      exists [], mid. split; [exact Hmid | unfold len; simpl; lia].
    + intros H. destruct (IH _ _ _ _ _ H) as (pre & mid & -> & ->).
      exists (c :: pre), mid. split; [reflexivity |].
      unfold len; simpl length. lia.
Qed.

Lemma FindStringIndex_span :
  forall r s a b,
    FindStringIndex r s = Some (a, b) ->
    exists pre mid rest,
      s = pre ++ mid ++ rest /\ a = len pre /\ b = (len pre + len mid)%Z.
Proof.
  intros r s a b. unfold FindStringIndex.
  destruct (search r true s 0) as [[start [rest marks]] |] eqn:E; [| discriminate].
  intros H; inversion H; subst.
  destruct (search_span _ _ _ _ _ _ _ E) as (pre & mid & -> & ->).
  exists pre, mid, rest. repeat split; rewrite ?len_app; lia.
Qed.

End regexp_facts.

(** ** How the matcher walks over a text *)

Module walk.
Import regexp.

Lemma bolAfter_app :
  forall a b bol, bolAfter (a ++ b) bol = bolAfter b (bolAfter a bol).
Proof. intros a b bol. unfold bolAfter. now rewrite fold_left_app. Qed.

Lemma bolAfter_cons :
  forall c a bol, bolAfter (c :: a) bol = bolAfter a (isNl c).
Proof. reflexivity. Qed.

Lemma allOf_cons :
  forall p c s, allOf p (c :: s) <-> p c = true /\ allOf p s.
Proof. intros p c s. unfold allOf; simpl. now rewrite andb_true_iff. Qed.

Lemma allOf_app :
  forall p a b, allOf p (a ++ b) <-> allOf p a /\ allOf p b.
Proof.
  intros p a b. unfold allOf. now rewrite forallb_app, andb_true_iff.
Qed.

Lemma allOf_weaken :
  forall (p q : ascii -> bool) s,
    (forall c, p c = true -> q c = true) -> allOf p s -> allOf q s.
Proof.
  intros p q s Hpq. unfold allOf. rewrite !forallb_forall. auto.
Qed.

Lemma mtch_Lit :
  forall l r marks bol s,
    mtch (Lit l :: r) marks bol (l ++ s) = mtch r marks (bolAfter l bol) s.
Proof. intros. simpl. now rewrite stripPrefix_app. Qed.

Lemma mtch_Lit_fail :
  forall l r marks bol s,
    stripPrefix l s = None -> mtch (Lit l :: r) marks bol s = None.
Proof. intros l r marks bol s H. simpl. now rewrite H. Qed.

Lemma mtch_Star :
  forall p r marks bol s,
    mtch (Star p :: r) marks bol s = greedy p (mtch r marks) bol s.
Proof. reflexivity. Qed.

Lemma mtch_Lazy :
  forall p r marks bol s,
    mtch (Lazy p :: r) marks bol s = lazy p (mtch r marks) bol s.
Proof. reflexivity. Qed.

Lemma mtch_Alt :
  forall ls r marks bol s,
    mtch (Alt ls :: r) marks bol s = firstOf ls (mtch r marks) bol s.
Proof. reflexivity. Qed.

Lemma mtch_Mark :
  forall r marks bol s,
    mtch (Mark :: r) marks bol s = mtch r (marks ++ [s]) bol s.
Proof. reflexivity. Qed.

Lemma mtch_Bol :
  forall r marks bol s,
    mtch (Bol :: r) marks bol s = if bol then mtch r marks bol s else None.
Proof. reflexivity. Qed.

Lemma mtch_Cls :
  forall p r marks bol c s,
    mtch (Cls p :: r) marks bol (c :: s)
    = if p c then mtch r marks (isNl c) s else None.
Proof. reflexivity. Qed.

Lemma mtch_end : forall marks bol s, mtch [] marks bol s = Some (s, marks).
Proof. reflexivity. Qed.

(** When what follows a greedy star cannot start in its class, the star
    takes all the characters of the class and nothing is left to retry. *)
Lemma greedy_all :
  forall p k w s bol,
    failsOn p k -> allOf p w -> stops p s ->
    greedy p k bol (w ++ s) = k (bolAfter w bol) s.
Proof.
  intros p k w s bol Hk. revert bol.
  induction w as [| c w IH]; intros bol Hw Hs.
  - destruct s as [| c s]; simpl in *; [reflexivity | now rewrite Hs].
  - apply allOf_cons in Hw as [Hc Hw].
    change ((c :: w) ++ s) with (c :: (w ++ s)). cbn [greedy]. rewrite Hc.
    rewrite IH by assumption. rewrite bolAfter_cons.
    destruct (k (bolAfter w (isNl c)) s) eqn:E; [reflexivity |].
    now apply Hk.
Qed.

(** A lazy star over [w] whose continuation fails at every position of [w]
    moves past [w]. *)
Lemma lazy_skip :
  forall p k w s bol,
    allOf p w ->
    (forall a b, w = a ++ b -> b <> [] -> k (bolAfter a bol) (b ++ s) = None) ->
    lazy p k bol (w ++ s) = lazy p k (bolAfter w bol) s.
Proof.
  intros p k w s. induction w as [| c w IH]; intros bol Hw Hk; [reflexivity |].
  apply allOf_cons in Hw as [Hc Hw].
  change ((c :: w) ++ s) with (c :: (w ++ s)).
  cbn [lazy].
  assert (H0 : k bol (c :: w ++ s) = None)
    by (apply (Hk [] (c :: w) eq_refl); discriminate).
  rewrite H0, Hc. rewrite IH; [reflexivity | assumption |].
  intros a b -> Hb. apply (Hk (c :: a) b eq_refl Hb).
Qed.

Lemma lazy_here :
  forall p k bol s o, k bol s = Some o -> lazy p k bol s = Some o.
Proof. intros p k bol [| c s] o H; simpl; now rewrite H. Qed.

(** The search moves past a text no match starts in. *)
Lemma search_skip :
  forall r w s bol pos,
    (forall a b, w = a ++ b -> b <> [] ->
       mtch r [] (bolAfter a bol) (b ++ s) = None) ->
    search r bol (w ++ s) pos = search r (bolAfter w bol) s (pos + len w).
Proof.
  intros r w s. induction w as [| c w IH]; intros bol pos Hk.
  - simpl. f_equal. unfold len; simpl; lia.
  - change ((c :: w) ++ s) with (c :: (w ++ s)). cbn [search].
    assert (H0 : mtch r [] bol (c :: w ++ s) = None)
      by (apply (Hk [] (c :: w) eq_refl); discriminate).
    rewrite H0, IH.
    + rewrite bolAfter_cons. f_equal. unfold len; simpl length. lia.
    + intros a b -> Hb. apply (Hk (c :: a) b eq_refl Hb).
Qed.

Lemma search_here :
  forall r s bol pos o,
    mtch r [] bol s = Some o -> search r bol s pos = Some (pos, o).
Proof. intros r [| c s] bol pos o H; simpl; now rewrite H. Qed.

(** No match without an occurrence of the literal the pattern starts with. *)
Lemma search_absent :
  forall l r s bol pos,
    ~ occurs l s -> search (Lit l :: r) bol s pos = None.
Proof.
  intros l r s. induction s as [| c s IH]; intros bol pos Hno.
  - cbn [search]. rewrite mtch_Lit_fail; [reflexivity |].
    destruct (stripPrefix l []) as [s' |] eqn:E; [| reflexivity].
    apply stripPrefix_Some in E. exfalso. apply Hno. exists [], s'.
    exact E.
  - cbn [search]. rewrite mtch_Lit_fail.
    + apply IH. intros (a & b & ->). apply Hno. now exists (c :: a), b.
    + destruct (stripPrefix l (c :: s)) as [s' |] eqn:E; [| reflexivity].
      apply stripPrefix_Some in E. exfalso. apply Hno. exists [], s'.
      exact E.
Qed.

(** The comment patterns leave a text without matches as it is. *)
Lemma removeAll_none :
  forall r s bol,
    (forall a b, s = a ++ b -> mtch r [] (bolAfter a bol) b = None) ->
    removeAll r bol s 0 = s.
Proof.
  intros r s. induction s as [| c s IH]; intros bol Hk; [reflexivity |].
  cbn [removeAll].
  assert (H0 : mtch r [] bol (c :: s) = None) by apply (Hk [] (c :: s) eq_refl).
  rewrite H0. f_equal.
  apply IH. intros a b ->. apply (Hk (c :: a) b eq_refl).
Qed.

(** The characters of a match under way are dropped. *)
Lemma removeAll_drop :
  forall r w s bol,
    removeAll r bol (w ++ s) (length w) = removeAll r (bolAfter w bol) s 0.
Proof.
  intros r w. induction w as [| c w IH]; intros s bol; [reflexivity |].
  change ((c :: w) ++ s) with (c :: (w ++ s)).
  change (length (c :: w)) with (S (length w)).
  cbn [removeAll]. now rewrite IH.
Qed.

(** A match at the head of the text is dropped as a whole. *)
Lemma removeAll_match :
  forall r w s bol marks,
    w <> [] ->
    mtch r [] bol (w ++ s) = Some (s, marks) ->
    removeAll r bol (w ++ s) 0 = removeAll r (bolAfter w bol) s 0.
Proof.
  intros r [| c w] s bol marks Hw H; [congruence |].
  change ((c :: w) ++ s) with (c :: (w ++ s)) in *.
  cbn [removeAll]. rewrite H.
  replace (length (c :: w ++ s) - length s)%nat with (S (length w))
    by (cbn [length]; rewrite length_app; lia).
  now rewrite removeAll_drop.
Qed.

End walk.

(** ** The brace-span scanner *)

Lemma scanBraces_step :
  forall c rest pos bc,
    (0 < bc)%Z ->
    scanBraces (c :: rest) pos bc = scanBraces rest (pos + 1) (braceStep bc c).
Proof.
  intros c rest pos bc H. simpl.
  destruct (Z.gtb_spec bc 0); [reflexivity | lia].
Qed.

Lemma scanBraces_stop :
  forall rest pos bc, (bc <= 0)%Z -> scanBraces rest pos bc = (pos, bc).
Proof.
  intros [| c rest] pos bc H; simpl; [reflexivity |].
  destruct (Z.gtb_spec bc 0); [lia | reflexivity].
Qed.

(** The scan reads a prefix [read] of its input: the depth is positive
    before each character read, and the scan ends at depth 0 or at the end
    of the input. *)
Lemma scanBraces_reads :
  forall rest pos bc pos' bc',
    (0 < bc)%Z ->
    scanBraces rest pos bc = (pos', bc') ->
    exists read unread,
      rest = read ++ unread /\
      pos' = (pos + len read)%Z /\
      bc' = fold_left braceStep read bc /\
      (forall n, (n < length read)%nat ->
         (0 < fold_left braceStep (firstn n read) bc)%Z) /\
      ((bc' = 0%Z /\ read <> []) \/ (0 < bc' /\ unread = [])%Z).
Proof.
  induction rest as [| c rest IH]; intros pos bc pos' bc' Hbc H.
  - simpl in H. inversion H; subst.
    exists [], []. splits.
    + reflexivity.
    + unfold len; simpl; lia.
    + reflexivity.
    + simpl. intros n Hn. lia.
    + right. split; [assumption | reflexivity].
  - rewrite scanBraces_step in H by assumption.
    destruct (Z_lt_le_dec 0 (braceStep bc c)) as [Hpos | Hle].
    + destruct (IH _ _ _ _ Hpos H) as (read & unread & -> & -> & -> & Hbefore & Hend).
      exists (c :: read), unread. splits.
      * reflexivity.
      * unfold len; simpl length. lia.
      * reflexivity.
      * intros [| n] Hn; simpl; [assumption |].
        apply Hbefore. simpl in Hn. lia.
      * destruct Hend as [[H0 Hne] | [Hp Hun]]; [left | right]; split; auto.
        discriminate.
    + rewrite scanBraces_stop in H by assumption. inversion H; subst.
      exists [c], rest. splits.
      * reflexivity.
      * unfold len; simpl; lia.
      * reflexivity.
      * intros [| n] Hn; simpl in *; [assumption | lia].
      * left. split; [| discriminate]. simpl.
        unfold braceStep in *.
        destruct (Ascii.eqb c "{"); [lia |].
        destruct (Ascii.eqb c "}"); lia.
Qed.

Lemma slice_from :
  forall (before rest : text) (e : Z),
    (len before <= e)%Z ->
    slice (before ++ rest) (len before) e
    = firstn (Z.to_nat (e - len before)) rest.
Proof.
  intros before rest e He. unfold slice, len.
  rewrite Nat2Z.id, skipn_app, skipn_all, Nat.sub_diag. reflexivity.
Qed.

Lemma split_at :
  forall (s : text) (n : Z),
    (0 <= n <= len s)%Z ->
    exists before rest, s = before ++ rest /\ len before = n
                        /\ skipn (Z.to_nat n) s = rest.
Proof.
  intros s n Hn. exists (firstn (Z.to_nat n) s), (skipn (Z.to_nat n) s).
  splits.
  - now rewrite firstn_skipn.
  - unfold len in *. rewrite length_firstn. lia.
  - reflexivity.
Qed.

(** The scan in terms of the offsets of [content]. *)
Lemma matchBrace_spec :
  forall content start pos braceCount,
    (0 <= start <= len content)%Z ->
    matchBrace content start = (pos, braceCount) ->
    braceCount = depthAt content start pos /\
    (forall e, start <= e < pos -> 0 < depthAt content start e)%Z /\
    (start <= pos <= len content)%Z /\
    ((braceCount = 0 /\ start < pos)%Z \/ (0 < braceCount /\ pos = len content)%Z).
Proof.
  intros content start pos bc Hstart H. unfold matchBrace in H.
  destruct (split_at content start Hstart) as (before & rest & -> & Hlen & Hskip).
  rewrite Hskip in H.
  destruct (scanBraces_reads rest start 1 pos bc Z.lt_0_1 H)
    as (read & unread & -> & -> & -> & Hbefore & Hend).
  unfold depthAt. subst start.
  assert (Hread : (0 <= len read)%Z) by apply len_nonneg.
  splits.
  - rewrite slice_from by lia.
    replace (Z.to_nat (len before + len read - len before)) with (length read)
      by (unfold len; lia).
    now rewrite firstn_app, firstn_all, Nat.sub_diag, app_nil_r.
  - intros e He. rewrite slice_from by lia.
    rewrite firstn_app.
    replace (Z.to_nat (e - len before) - length read)%nat with 0%nat
      by (unfold len in *; lia).
    rewrite app_nil_r. apply Hbefore. unfold len in *; lia.
  - lia.
  - rewrite !len_app. pose proof (len_nonneg unread). lia.
  - destruct Hend as [[H0 Hne] | [Hp ->]]; [left | right]; split; auto.
    + destruct read; [congruence | unfold len; simpl length; lia].
    + now rewrite app_nil_r, len_app.
Qed.

Lemma matchBrace_closes :
  forall content start pos,
    (0 <= start <= len content)%Z ->
    closesAt content start pos ->
    matchBrace content start = (pos, 0%Z).
Proof.
  intros content start pos Hstart (Hpos & Hzero & Hbefore).
  destruct (matchBrace content start) as [pos' bc] eqn:E.
  destruct (matchBrace_spec content start _ _ Hstart E) as (Hbc & Hpos' & Hrange & Hend).
  destruct Hend as [[-> Hlt] | [Hbc' ->]].
  - f_equal.
    destruct (Z.lt_trichotomy pos pos') as [Hl | [He | Hg]]; [| lia |].
    + specialize (Hpos' pos ltac:(lia)). lia.
    + specialize (Hbefore pos' ltac:(lia)). lia.
  - destruct (Z.eq_dec pos (len content)) as [-> | Hne].
    + lia.
    + specialize (Hpos' pos ltac:(lia)). lia.
Qed.

Lemma matchBrace_never :
  forall content start,
    (0 <= start <= len content)%Z ->
    neverCloses content start ->
    exists bc, (0 < bc)%Z /\ matchBrace content start = (len content, bc).
Proof.
  intros content start Hstart Hnever.
  destruct (matchBrace content start) as [pos' bc] eqn:E.
  destruct (matchBrace_spec content start _ _ Hstart E) as (Hbc & Hpos' & Hrange & Hend).
  destruct Hend as [[-> Hlt] | [Hbc' ->]].
  - specialize (Hnever pos' ltac:(lia)). lia.
  - now exists bc.
Qed.

(** C3: started just after an opening brace at depth 1, the scanner returns
    the offset just past the character that first brings the depth to 0, and
    the depth it reports is 0 exactly then; when the end of the text is
    reached at a depth above 0 both callers fail with the unmatched-braces
    error, and otherwise they return the text up to the closing brace. *)
Theorem brace_scanner_contract :
  forall content start,
    (0 <= start <= len content)%Z ->
    (forall pos, closesAt content start pos ->
       matchBrace content start = (pos, 0%Z)) /\
    (neverCloses content start ->
       exists bc, (0 < bc)%Z /\ matchBrace content start = (len content, bc)) /\
    (closesAt content start (fst (matchBrace content start))
     \/ neverCloses content start) /\
    (forall name a,
       FindStringIndex (rpcRegex name) content = Some (a, start) ->
       (neverCloses content start ->
          methodBodyOf content name = Err (UnmatchedBraces InMethod)) /\
       (forall pos, closesAt content start pos ->
          methodBodyOf content name = Ok (slice content start (pos - 1)))) /\
    (forall a,
       FindStringIndex authzStartRegex content = Some (a, start) ->
       (neverCloses content start ->
          authzBlock content = Err (UnmatchedBraces InAuthzBlock)) /\
       (forall pos, closesAt content start pos ->
          authzBlock content = Ok (slice content start (pos - 1)))).
Proof.
  intros content start Hstart. splits.
  - intros pos. now apply matchBrace_closes.
  - now apply matchBrace_never.
  - destruct (matchBrace content start) as [pos bc] eqn:E.
    destruct (matchBrace_spec content start _ _ Hstart E) as (Hbc & Hpos & Hrange & Hend).
    simpl. destruct Hend as [[-> Hlt] | [Hbc' ->]].
    + left. unfold closesAt. splits; auto; lia.
    + right. intros e He.
      destruct (Z.eq_dec e (len content)) as [-> | Hne]; [lia | apply Hpos; lia].
  - intros name a Hfind. unfold methodBodyOf. rewrite Hfind.
    replace (start - 1 + 1)%Z with start by lia. split.
    + intros Hnever.
      destruct (matchBrace_never content start Hstart Hnever) as (bc & Hbc & ->).
      destruct (Z.eqb_spec bc 0); [lia | reflexivity].
    + intros pos Hpos. now rewrite (matchBrace_closes content start pos Hstart Hpos).
  - intros a Hfind. unfold authzBlock. rewrite Hfind. split.
    + intros Hnever.
      destruct (matchBrace_never content start Hstart Hnever) as (bc & Hbc & ->).
      destruct (Z.eqb_spec bc 0); [lia | reflexivity].
    + intros pos Hpos. now rewrite (matchBrace_closes content start pos Hstart Hpos).
Qed.

(** ** The HTTP annotation resolver *)

Lemma text_eqb_eq : forall a b, text_eqb a b = true <-> a = b.
Proof.
  induction a as [| x a IH]; intros [| y b]; simpl; try (split; congruence).
  rewrite andb_true_iff, IH, Ascii.eqb_eq. split.
  - now intros [-> ->].
  - now inversion 1.
Qed.

Lemma verbOf_table :
  forall name verb, verbOf name = Some verb <-> In (name, verb) verbTable.
Proof.
  intros name verb. unfold verbOf, verbTable. split.
  - repeat match goal with
           | |- context [text_eqb ?a ?b] =>
               let E := fresh "E" in
               destruct (text_eqb a b) eqn:E;
               [apply text_eqb_eq in E; subst; intros H; inversion H; subst;
                simpl; tauto |]
           end.
    discriminate.
  - simpl. intros H.
    repeat (destruct H as [H | H]; [inversion H; subst; reflexivity |]).
    contradiction.
Qed.

Lemma verbOf_none :
  forall name, verbOf name = None <-> ~ exists verb, In (name, verb) verbTable.
Proof.
  intros name. split.
  - intros H [verb Hin]. apply verbOf_table in Hin. congruence.
  - intros H. destruct (verbOf name) as [verb |] eqn:E; [| reflexivity].
    exfalso. apply H. exists verb. now apply verbOf_table.
Qed.

Lemma extractHTTPInfoFromRule_skip :
  forall before fields,
    (forall g, In g before -> ~ populatedVerb g) ->
    extractHTTPInfoFromRule (before ++ fields) = extractHTTPInfoFromRule fields.
Proof.
  induction before as [| g before IH]; intros fields Hnone; simpl; [reflexivity |].
  assert (Hrest : extractHTTPInfoFromRule (before ++ fields)
                  = extractHTTPInfoFromRule fields).
  { apply IH. intros g' Hin. apply Hnone. now right. }
  destruct (fieldHas g) eqn:Hhas; simpl; [| exact Hrest].
  destruct (verbOf (fieldName g)) as [verb |] eqn:E; [| exact Hrest].
  exfalso. apply (Hnone g); [now left |].
  split; [assumption |]. exists verb. now apply verbOf_table.
Qed.

(** C4: without the HTTP extension the resolution fails with
    NoHTTPAnnotation; with it, the first field in descriptor order that is
    set and named get, post, put, delete or patch gives the path (its string
    value) and the method (its verb in upper case); when no such field is
    populated the resolution fails with NoHTTPMethodFound. *)
Theorem http_resolution :
  forall method,
    (E_Http (Options method) = None ->
       extractHTTPInfo method = Err NoHTTPAnnotation) /\
    (forall before f after verb,
       E_Http (Options method) = Some (before ++ f :: after) ->
       (forall g, In g before -> ~ populatedVerb g) ->
       fieldHas f = true ->
       In (fieldName f, verb) verbTable ->
       extractHTTPInfo method = Ok (fieldString f, verb)) /\
    (forall fields,
       E_Http (Options method) = Some fields ->
       (forall g, In g fields -> ~ populatedVerb g) ->
       extractHTTPInfo method = Err NoHTTPMethodFound).
Proof.
  intros method. unfold extractHTTPInfo. splits.
  - now intros ->.
  - intros before f after verb -> Hnone Hhas Hverb.
    rewrite extractHTTPInfoFromRule_skip by assumption. simpl.
    rewrite Hhas. simpl. apply verbOf_table in Hverb. now rewrite Hverb.
  - intros fields -> Hnone.
    rewrite <- (app_nil_r fields), extractHTTPInfoFromRule_skip by assumption.
    reflexivity.
Qed.

(** ** The rule assembler *)

Lemma rulesOf_failure :
  forall fs method,
    isOk (extractAuthzOptions fs method) = false
    \/ isOk (extractHTTPInfo method) = false ->
    rulesOf fs method = [].
Proof.
  intros fs method H. unfold rulesOf, parseMethod.
  destruct (extractAuthzOptions fs method) as [[perms flag] | e]; [| reflexivity].
  destruct (extractHTTPInfo method) as [[path verb] | e]; [| reflexivity].
  destruct H; discriminate.
Qed.

Lemma extractAuthz_brace_failure :
  forall fs method content site,
    fs (ParentFilePath method) = Some content ->
    (methodBodyOf content (Name method) = Err (UnmatchedBraces site)
     \/ exists body, methodBodyOf content (Name method) = Ok body
                     /\ authzBlock body = Err (UnmatchedBraces site)) ->
    extractAuthzOptions fs method = Err (UnmatchedBraces site).
Proof.
  intros fs method content site Hfile H.
  unfold extractAuthzOptions, extractFromProtoSource, extractAuthzFromProtoFile.
  rewrite Hfile. destruct H as [-> | (body & -> & ->)]; reflexivity.
Qed.

(** C1: when a step of a method fails (the extraction of the authz options,
    one of the two brace scans, or the resolution of the HTTP annotation),
    the method contributes no rule at all and the rules of the methods
    around it are the ones they have without it; when both steps succeed the
    method contributes exactly one rule, carrying the four values. *)
Theorem assembly_all_or_nothing :
  forall fs method,
    ((isOk (extractAuthzOptions fs method) = false
      \/ (exists content site,
            fs (ParentFilePath method) = Some content /\
            (methodBodyOf content (Name method) = Err (UnmatchedBraces site)
             \/ exists body, methodBodyOf content (Name method) = Ok body
                             /\ authzBlock body = Err (UnmatchedBraces site)))
      \/ isOk (extractHTTPInfo method) = false) ->
     isOk (parseMethod fs method) = false /\
     forall before after,
       parseService fs (mkService (before ++ method :: after))
       = parseService fs (mkService before) ++ parseService fs (mkService after)) /\
    (forall permissions noAuthRequired httpPath httpMethod,
       extractAuthzOptions fs method = Ok (permissions, noAuthRequired) ->
       extractHTTPInfo method = Ok (httpPath, httpMethod) ->
       forall before after,
         parseService fs (mkService (before ++ method :: after))
         = parseService fs (mkService before)
           ++ [mkRule httpPath httpMethod permissions noAuthRequired]
           ++ parseService fs (mkService after)).
Proof.
  intros fs method. split.
  - intros H.
    assert (Hfail : isOk (extractAuthzOptions fs method) = false
                    \/ isOk (extractHTTPInfo method) = false).
    { destruct H as [H | [(content & site & Hfile & H) | H]]; auto.
      left. now rewrite (extractAuthz_brace_failure fs method content site Hfile H). }
    pose proof (rulesOf_failure fs method Hfail) as Hnone. split.
    + unfold rulesOf in Hnone.
      destruct (parseMethod fs method); [discriminate | reflexivity].
    + intros before after. rewrite !parseService_flat_map. simpl.
      now rewrite flat_map_app; simpl; rewrite Hnone.
  - intros perms flag path verb Hauthz Hhttp before after.
    rewrite !parseService_flat_map. simpl.
    rewrite flat_map_app. simpl. f_equal. f_equal.
    unfold rulesOf, parseMethod. now rewrite Hauthz, Hhttp.
Qed.

(** C8: the rules of a file are the rules of its services in declaration
    order, those of a service the rules of its methods in declaration order,
    a method that yields no rule leaving no trace; nothing is merged or
    dropped, so there are as many rules as methods that yield one, and a
    method declared twice yields its rule twice. *)
Theorem rules_in_declaration_order :
  forall fs file,
    parseFile fs file
    = flat_map (fun service => flat_map (rulesOf fs) (Methods service))
        (Services file) /\
    length (parseFile fs file)
    = length (filter (fun method => isOk (parseMethod fs method))
                (flat_map Methods (Services file))) /\
    (forall method rule,
       parseMethod fs method = Ok rule ->
       parseFile fs (mkFile [mkService [method]; mkService [method]])
       = [rule; rule]
       /\ parseFile fs (mkFile [mkService [method; method]]) = [rule; rule]).
Proof.
  intros fs file.
  assert (Hflat : parseFile fs file
                  = flat_map (fun service => flat_map (rulesOf fs) (Methods service))
                      (Services file)).
  { rewrite parseFile_flat_map. apply flat_map_ext.
    intros service. apply parseService_flat_map. }
  splits.
  - exact Hflat.
  - rewrite Hflat. clear Hflat. destruct file as [services]; simpl.
    induction services as [| [methods] services IH]; simpl; [reflexivity |].
    rewrite length_app, filter_app, length_app, IH. f_equal.
    clear IH. induction methods as [| m methods IHm]; simpl; [reflexivity |].
    unfold rulesOf at 1. destruct (parseMethod fs m); simpl; now rewrite IHm.
  - intros method rule Hrule.
    rewrite !parseFile_flat_map; simpl. rewrite !parseService_flat_map; simpl.
    unfold rulesOf. now rewrite Hrule.
Qed.

(** ** The permissions parser cannot fail *)

Lemma parsePermissionsString_ok :
  forall s, exists permissions, parsePermissionsString s = Ok permissions.
Proof.
  intros s. unfold parsePermissionsString.
  destruct (strings.TrimSpace s); eauto.
Qed.

Lemma parseFields_ok :
  forall body, exists fields, parseFields body = Ok fields.
Proof.
  intros body. unfold parseFields.
  destruct (FindStringSubmatch permissionsRegex body) as [[| m [| list1 rest]] |];
    try (eexists; reflexivity).
  destruct (parsePermissionsString_ok list1) as [perms ->]. eauto.
Qed.

(** C9: the permissions-list parser returns a list for every input, so the
    extractor never reports PermissionsParseFailure and no method is skipped
    on account of it. *)
Theorem permissions_parser_total :
  (forall s, exists permissions, parsePermissionsString s = Ok permissions) /\
  (forall body, parseFields body <> Err PermissionsParseFailure) /\
  (forall fs protoPath methodName,
     extractAuthzFromProtoFile fs protoPath methodName
     <> Err PermissionsParseFailure) /\
  (forall fs method,
     parseMethod fs method <> Err (ExtractAuthzFailed PermissionsParseFailure)).
Proof.
  assert (Hfields : forall body, parseFields body <> Err PermissionsParseFailure).
  { intros body. destruct (parseFields_ok body) as [fields ->]. discriminate. }
  assert (Hfile : forall fs protoPath methodName,
             extractAuthzFromProtoFile fs protoPath methodName
             <> Err PermissionsParseFailure).
  { intros fs protoPath methodName. unfold extractAuthzFromProtoFile.
    destruct (fs protoPath) as [content |]; [| discriminate].
    unfold methodBodyOf.
    destruct (FindStringIndex (rpcRegex methodName) content) as [[a rpcEnd] |];
      [| discriminate].
    destruct (matchBrace content (rpcEnd - 1 + 1)) as [pos bc].
    destruct (negb (bc =? 0)%Z); [discriminate |].
    unfold authzBlock.
    destruct (FindStringIndex authzStartRegex _) as [[a' startPos] |];
      [| discriminate].
    destruct (matchBrace _ startPos) as [pos' bc'].
    destruct (negb (bc' =? 0)%Z); [discriminate | apply Hfields]. }
  splits.
  - apply parsePermissionsString_ok.
  - exact Hfields.
  - exact Hfile.
  - intros fs method. unfold parseMethod, extractAuthzOptions, extractFromProtoSource.
    pose proof (Hfile fs (ParentFilePath method) (Name method)) as H.
    destruct (extractAuthzFromProtoFile fs (ParentFilePath method) (Name method))
      as [[perms flag] | e].
    + destruct (extractHTTPInfo method) as [[path verb] | e']; discriminate.
    + intros Heq. inversion Heq. congruence.
Qed.

(** ** Comments outside the authz block *)

(** The scan only tells the two braces from the other characters. *)
Lemma scanBraces_blind :
  forall (f : ascii -> ascii) rest pos braceCount,
    (forall c, Ascii.eqb (f c) "{" = Ascii.eqb c "{"
               /\ Ascii.eqb (f c) "}" = Ascii.eqb c "}") ->
    scanBraces (map f rest) pos braceCount = scanBraces rest pos braceCount.
Proof.
  intros f rest pos bc Hf. revert pos bc.
  induction rest as [| c rest IH]; intros pos bc; [reflexivity |].
  cbn [map scanBraces]. destruct (bc >? 0)%Z; [| reflexivity].
  destruct (Hf c) as [-> ->]. apply IH.
Qed.

Lemma matchBrace_blind :
  forall (f : ascii -> ascii) content start,
    (forall c, Ascii.eqb (f c) "{" = Ascii.eqb c "{"
               /\ Ascii.eqb (f c) "}" = Ascii.eqb c "}") ->
    matchBrace (map f content) start = matchBrace content start.
Proof.
  intros f content start Hf. unfold matchBrace. rewrite skipn_map.
  now apply scanBraces_blind.
Qed.

(** C10: the comments are only taken out of the authz block once it has been
    cut out.  The brace scans do not know of comments: they give the same
    offsets when the characters other than braces are replaced by others,
    the comment markers among them.  So a closing brace in a comment of the
    method body ends the body there, and the authz option after it is not
    found; opening braces in a comment of the authz block are counted by
    both scans, which lengthens the block cut out or leaves the method body
    unmatched; and an authz option that is commented out is read as if it
    were live, also when the live one follows it. *)
Theorem comments_outside_authz_block :
  (forall (f : ascii -> ascii) content start,
     (forall c, Ascii.eqb (f c) "{" = Ascii.eqb c "{"
                /\ Ascii.eqb (f c) "}" = Ascii.eqb c "}") ->
     matchBrace (map f content) start = matchBrace content start) /\
  (* a closing brace in a comment of the method body *)
  methodBodyOf samples.braceInComment (txt "Get")
  = Ok (txt "
    // closes ") /\
  extractAuthzFromProtoFile (samples.oneFile samples.braceInComment)
    (txt "test.proto") (txt "Get") = Err AuthzOptionsNotFound /\
  extractAuthzFromProtoFile (samples.oneFile samples.braceInCommentRemoved)
    (txt "test.proto") (txt "Get") = Ok ([], true) /\
  (* opening braces in a comment of the authz block *)
  extractAuthzFromProtoFile (samples.oneFile samples.openInComment)
    (txt "test.proto") (txt "Get") = Err (UnmatchedBraces InMethod) /\
  (exists body,
     methodBodyOf samples.oneOpenInComment (txt "Get") = Ok body /\
     authzBlock body = Ok (txtq "
      // scope {
      permissions: [`a`]
    };
  ")) /\
  (* a commented-out authz option *)
  parseMethod (samples.oneFile samples.decoyHeader) samples.getMethod
  = Ok (mkRule (txt "/v1/x") (txt "GET") [] true) /\
  parseMethod (samples.oneFile samples.decoyBeforeHeader) samples.getMethod
  = Ok (mkRule (txt "/v1/x") (txt "GET") [] true).
Proof.
  splits; try (vm_compute; reflexivity).
  - apply matchBrace_blind.
  - eexists. split; vm_compute; reflexivity.
Qed.

(** ** The theorems at sample inputs *)

Lemma brace_scanner_contract_witness :
  (0 <= 1 <= len (txt "{a{b}c}d"))%Z /\
  (closesAt (txt "{a{b}c}d") 1 (fst (matchBrace (txt "{a{b}c}d") 1))
   \/ neverCloses (txt "{a{b}c}d") 1).
Proof.
  assert (H : (0 <= 1 <= len (txt "{a{b}c}d"))%Z) by (vm_compute; split; discriminate).
  split; [exact H |].
  exact (proj1 (proj2 (proj2 (brace_scanner_contract (txt "{a{b}c}d") 1 H)))).
Defined.

Lemma http_resolution_witness :
  extractHTTPInfo samples.testNoPermissions
  = Ok (txt "/v1/test/{foo_id}", txt "POST").
Proof.
  refine (proj1 (proj2 (http_resolution samples.testNoPermissions))
            [samples.unset "selector"; samples.unset "get"; samples.unset "put"]
            (mkField (txt "post") true (txt "/v1/test/{foo_id}"))
            _ (txt "POST") eq_refl _ eq_refl _).
  - intros g Hin [Hhas _].
    simpl in Hin. destruct Hin as [<- | [<- | [<- | []]]]; discriminate.
  - simpl. tauto.
Defined.

Lemma assembly_all_or_nothing_witness :
  isOk (parseMethod (samples.oneFile samples.readme) samples.noHTTP) = false /\
  parseService (samples.oneFile samples.readme)
    (mkService [samples.testNoPermissions; samples.noHTTP;
                samples.testWithPermissions])
  = parseService (samples.oneFile samples.readme)
      (mkService [samples.testNoPermissions])
    ++ parseService (samples.oneFile samples.readme)
         (mkService [samples.testWithPermissions]).
Proof.
  destruct (proj1 (assembly_all_or_nothing (samples.oneFile samples.readme)
                     samples.noHTTP)) as [Hfail Hothers].
  - right. right. vm_compute. reflexivity.
  - split; [exact Hfail |].
    exact (Hothers [samples.testNoPermissions] [samples.testWithPermissions]).
Defined.

(** ** Defaults of the absent fields *)

Module fields.
Import regexp walk.

Lemma between_app : forall w s : text, between (w ++ s) s = w.
Proof.
  intros w s. unfold between. rewrite length_app.
  replace (length w + length s - length s)%nat with (length w) by lia.
  now rewrite firstn_app, firstn_all, Nat.sub_diag, app_nil_r.
Qed.

Lemma FindStringSubmatch_absent :
  forall l r s, ~ occurs l s -> FindStringSubmatch (Lit l :: r) s = None.
Proof.
  intros l r s H. unfold FindStringSubmatch. now rewrite search_absent.
Qed.

Lemma permissions_absent :
  forall body permissions noAuthRequired,
    parseFields body = Ok (permissions, noAuthRequired) ->
    ~ occurs (txt "permissions") body ->
    permissions = [].
Proof.
  intros body perms flag H Hno. unfold parseFields in H.
  unfold permissionsRegex in H. rewrite FindStringSubmatch_absent in H by assumption.
  now inversion H.
Qed.

Lemma noAuth_absent :
  forall body permissions noAuthRequired,
    parseFields body = Ok (permissions, noAuthRequired) ->
    ~ occurs (txt "no_auth_required") body ->
    noAuthRequired = false.
Proof.
  intros body perms flag H Hno. unfold parseFields in H.
  unfold noAuthRegex in H.
  rewrite (FindStringSubmatch_absent (txt "no_auth_required")) in H by assumption.
  destruct (match FindStringSubmatch permissionsRegex body with
            | Some (_ :: list1 :: _) => parsePermissionsString list1
            | _ => Ok []
            end); now inversion H.
Qed.

(** A text splits into its longest prefix in a class and the rest. *)
Lemma span_class :
  forall (p : ascii -> bool) (s : text),
    exists w t, s = w ++ t /\ allOf p w /\ stops p t.
Proof.
  intros p s. induction s as [| c s (w & t & -> & Hw & Ht)].
  - exists [], []. splits; reflexivity.
  - destruct (p c) eqn:Hc.
    + exists (c :: w), t. splits; [reflexivity | now apply allOf_cons | assumption].
    + exists [], (c :: w ++ t). splits; [reflexivity | reflexivity | exact Hc].
Qed.

Lemma failsOn_Lit :
  forall (p : ascii -> bool) c0 l r marks,
    p c0 = false -> failsOn p (mtch (Lit (c0 :: l) :: r) marks).
Proof.
  intros p c0 l r marks Hc0 bol c s Hc. cbn [mtch stripPrefix].
  destruct (Ascii.eqb_spec c0 c) as [-> | Hne]; [congruence | reflexivity].
Qed.

Lemma stripPrefix_head :
  forall c0 l c s, c <> c0 -> stripPrefix (c0 :: l) (c :: s) = None.
Proof.
  intros c0 l c s H. simpl.
  destruct (Ascii.eqb_spec c0 c); [congruence | reflexivity].
Qed.

Lemma stripPrefix_mismatch :
  forall l c s,
    l <> [] -> hd c l <> c -> stripPrefix l (c :: s) = None.
Proof.
  intros [| c0 l] c s Hl Hc; [congruence |]. apply stripPrefix_head.
  simpl in Hc. congruence.
Qed.

(** A text without slash holds no comment. *)
Lemma stripComments_no_slash :
  forall s, ~ In "/" s -> stripComments s = s.
Proof.
  intros s Hno. unfold stripComments, ReplaceAllString_empty.
  assert (Hsingle : removeAll singleLineCommentRegex true s 0 = s).
  { apply removeAll_none. intros a b ->.
    unfold singleLineCommentRegex. rewrite mtch_Bol.
    destruct (bolAfter a true); [| reflexivity]. rewrite mtch_Star.
    destruct (span_class space b) as (w & t & -> & Hw & Ht).
    rewrite greedy_all; [| now apply failsOn_Lit | assumption | assumption].
    destruct t as [| c t]; [reflexivity |].
    apply mtch_Lit_fail, stripPrefix_head.
    intros ->. apply Hno. rewrite !in_app_iff. right. right. now left. }
  rewrite Hsingle. apply removeAll_none. intros a b ->.
  destruct b as [| c b]; [reflexivity |].
  apply mtch_Lit_fail, stripPrefix_head.
  intros ->. apply Hno. rewrite in_app_iff. right. now left.
Qed.

Lemma occurs_head :
  forall c0 l s, occurs (c0 :: l) s -> In c0 s.
Proof.
  intros c0 l s (a & b & ->). rewrite in_app_iff. right. now left.
Qed.

Lemma allOf_In :
  forall (p : ascii -> bool) s c, allOf p s -> In c s -> p c = true.
Proof.
  intros p s c H Hin. unfold allOf in H. rewrite forallb_forall in H. auto.
Qed.

Lemma space_not :
  forall ws c, allOf space ws -> space c = false -> ~ In c ws.
Proof.
  intros ws c Hws Hc Hin. rewrite (allOf_In space ws c Hws Hin) in Hc. discriminate.
Qed.

(** The search for a pattern that starts with a literal moves past the
    characters that differ from the first one of the literal. *)
Lemma search_skip_chars :
  forall l r w s bol pos,
    l <> [] -> ~ In (hd "000" l) w ->
    search (Lit l :: r) bol (w ++ s) pos
    = search (Lit l :: r) (bolAfter w bol) s (pos + len w).
Proof.
  intros [| c0 l] r w s bol pos Hl Hno; [congruence |]. apply search_skip.
  intros a [| c b] -> Hb; [congruence |].
  apply mtch_Lit_fail, stripPrefix_head.
  intros ->. apply Hno. rewrite in_app_iff. right. now left.
Qed.

(** The flag pattern read on a declaration of the flag. *)
Lemma noAuth_declared :
  forall ws2 ws3 (value rest : text) bol,
    allOf space ws2 -> allOf space ws3 ->
    value = txt "true" \/ value = txt "false" ->
    mtch noAuthRegex [] bol
      (txt "no_auth_required" ++ ws2 ++ txt ":" ++ ws3 ++ value ++ rest)
    = Some (rest, [value ++ rest; rest]).
Proof.
  intros ws2 ws3 value rest bol H2 H3 Hvalue. unfold noAuthRegex.
  rewrite mtch_Lit, mtch_Star.
  rewrite greedy_all; [| now apply failsOn_Lit | assumption | reflexivity].
  rewrite mtch_Lit, mtch_Star.
  rewrite greedy_all; [| | assumption |].
  - rewrite mtch_Mark, mtch_Alt. cbn [firstOf app].
    destruct Hvalue as [-> | ->].
    + rewrite stripPrefix_app. reflexivity.
    + simpl. reflexivity.
  - intros b c s Hc. rewrite mtch_Mark, mtch_Alt. cbn [firstOf].
    rewrite !stripPrefix_mismatch; [reflexivity | | | |];
      try discriminate; cbn; intros <-; discriminate.
  - destruct Hvalue as [-> | ->]; reflexivity.
Qed.

End fields.

Lemma only_noAuth_declared :
  forall ws1 ws2 ws3 ws4 (value : text),
    allOf regexp.space ws1 -> allOf regexp.space ws2 ->
    allOf regexp.space ws3 -> allOf regexp.space ws4 ->
    value = txt "true" \/ value = txt "false" ->
    parseFields
      (stripComments
         (ws1 ++ txt "no_auth_required" ++ ws2 ++ txt ":" ++ ws3 ++ value ++ ws4))
    = Ok ([], text_eqb value (txt "true")).
Proof.
  intros ws1 ws2 ws3 ws4 value H1 H2 H3 H4 Hvalue.
  assert (Hnot : forall c, regexp.space c = false ->
                   ~ In c (txt "no_auth_required") -> ~ In c (txt ":") ->
                   ~ In c value ->
                   ~ In c (ws1 ++ txt "no_auth_required" ++ ws2 ++ txt ":"
                             ++ ws3 ++ value ++ ws4)).
  { intros c Hc Hk Hcolon Hv. rewrite !in_app_iff.
    pose proof (fields.space_not ws1 c H1 Hc).
    pose proof (fields.space_not ws2 c H2 Hc).
    pose proof (fields.space_not ws3 c H3 Hc).
    pose proof (fields.space_not ws4 c H4 Hc). tauto. }
  rewrite fields.stripComments_no_slash.
  2:{ apply Hnot; [reflexivity | | |]; try (simpl; intuition discriminate).
      destruct Hvalue as [-> | ->]; simpl; intuition discriminate. }
  unfold parseFields.
  unfold permissionsRegex. rewrite fields.FindStringSubmatch_absent.
  2:{ intros Hocc. apply fields.occurs_head in Hocc. revert Hocc.
      apply Hnot; [reflexivity | | |]; try (simpl; intuition discriminate).
      destruct Hvalue as [-> | ->]; simpl; intuition discriminate. }
  unfold regexp.FindStringSubmatch.
  unfold noAuthRegex at 1.
  rewrite fields.search_skip_chars;
    [| discriminate | apply fields.space_not; [assumption | reflexivity]].
  fold noAuthRegex.
  rewrite (walk.search_here _ _ _ _ _
             (fields.noAuth_declared ws2 ws3 value ws4 _ H2 H3 Hvalue)).
  now rewrite fields.between_app.
Qed.




(** ** Facts about package [strings] *)

Module strings_facts.
Import strings.

Lemma dropSpaces_blank :
  forall l s, allOf blank l ->
    dropSpaces spaceRunes (l ++ s) 0 = dropSpaces spaceRunes s 0.
Proof.
  induction l as [| c l IH]; intros s Hl; [reflexivity |].
  apply walk.allOf_cons in Hl as [Hc Hl].
  change ((c :: l) ++ s) with (c :: (l ++ s)). cbn [dropSpaces].
  assert (Hw : spaceWidth spaceRunes (c :: l ++ s) = 1%nat).
  { generalize (l ++ s); intros t. unfold blank in Hc.
    repeat (apply orb_true_iff in Hc as [Hc | Hc]);
      apply Ascii.eqb_eq in Hc; subst c; reflexivity. }
  rewrite Hw. now apply IH.
Qed.

Lemma dropSpaces_rev_blank :
  forall l s, allOf blank l ->
    dropSpaces (map (@rev ascii) spaceRunes) (l ++ s) 0
    = dropSpaces (map (@rev ascii) spaceRunes) s 0.
Proof.
  induction l as [| c l IH]; intros s Hl; [reflexivity |].
  apply walk.allOf_cons in Hl as [Hc Hl].
  change ((c :: l) ++ s) with (c :: (l ++ s)). cbn [dropSpaces].
  assert (Hw : spaceWidth (map (@rev ascii) spaceRunes) (c :: l ++ s) = 1%nat).
  { generalize (l ++ s); intros t. unfold blank in Hc.
    repeat (apply orb_true_iff in Hc as [Hc | Hc]);
      apply Ascii.eqb_eq in Hc; subst c; reflexivity. }
  rewrite Hw. now apply IH.
Qed.

Lemma spaceWidth_solid :
  forall c s, solid c = true -> spaceWidth spaceRunes (c :: s) = 0%nat.
Proof.
  intros c s.
  destruct c as [[] [] [] [] [] [] [] []]; try discriminate; intros _; reflexivity.
Qed.

Lemma spaceWidth_rev_solid :
  forall c s, solid c = true ->
    spaceWidth (map (@rev ascii) spaceRunes) (c :: s) = 0%nat.
Proof.
  intros c s.
  destruct c as [[] [] [] [] [] [] [] []]; try discriminate; intros _; reflexivity.
Qed.

Lemma TrimLeftSpace_blank :
  forall l s, allOf blank l -> TrimLeftSpace (l ++ s) = TrimLeftSpace s.
Proof. intros l s H. unfold TrimLeftSpace. now apply dropSpaces_blank. Qed.

Lemma TrimLeftSpace_solid :
  forall c s, solid c = true -> TrimLeftSpace (c :: s) = c :: s.
Proof.
  intros c s H. unfold TrimLeftSpace. cbn [dropSpaces].
  now rewrite spaceWidth_solid.
Qed.

Lemma TrimRightSpace_blank :
  forall s r, allOf blank r -> TrimRightSpace (s ++ r) = TrimRightSpace s.
Proof.
  intros s r H. unfold TrimRightSpace. rewrite rev_app_distr.
  rewrite dropSpaces_rev_blank; [reflexivity |].
  unfold allOf in *. rewrite forallb_forall in *.
  intros c Hc. apply H. now apply in_rev.
Qed.

Lemma TrimRightSpace_solid :
  forall s c, solid c = true -> TrimRightSpace (s ++ [c]) = s ++ [c].
Proof.
  intros s c H. unfold TrimRightSpace. rewrite rev_app_distr. simpl rev.
  change ([c] ++ rev s) with (c :: rev s). cbn [dropSpaces].
  rewrite spaceWidth_rev_solid by assumption.
  simpl. now rewrite rev_involutive.
Qed.

(** [TrimSpace] takes blank paddings away from a text with solid ends. *)
Lemma TrimSpace_padded :
  forall l x mid y r,
    allOf blank l -> allOf blank r -> solid x = true -> solid y = true ->
    TrimSpace (l ++ (x :: mid ++ [y]) ++ r) = x :: mid ++ [y].
Proof.
  intros l x mid y r Hl Hr Hx Hy. unfold TrimSpace.
  rewrite TrimLeftSpace_blank by assumption.
  change ((x :: mid ++ [y]) ++ r) with (x :: (mid ++ [y]) ++ r).
  rewrite TrimLeftSpace_solid by assumption.
  change (x :: (mid ++ [y]) ++ r) with ((x :: mid ++ [y]) ++ r).
  rewrite TrimRightSpace_blank by assumption.
  change (x :: mid ++ [y]) with ((x :: mid) ++ [y]).
  now apply TrimRightSpace_solid.
Qed.

Lemma TrimSpace_blank :
  forall l, allOf blank l -> TrimSpace l = [].
Proof.
  intros l H. unfold TrimSpace.
  rewrite <- (app_nil_r l), TrimLeftSpace_blank by assumption. reflexivity.
Qed.

Lemma TrimSpace_left :
  forall l s, allOf blank l -> TrimSpace (l ++ s) = TrimSpace s.
Proof.
  intros l s H. unfold TrimSpace. now rewrite TrimLeftSpace_blank.
Qed.

(** [Trim] *)

Lemma trimLeftByte_keep :
  forall s c, hd_error s <> Some c -> trimLeftByte s c = s.
Proof.
  intros [| x s] c H; [reflexivity |]. simpl in *.
  destruct (Ascii.eqb_spec x c); [congruence | reflexivity].
Qed.

Lemma Trim_keep :
  forall s c, edgeFree c s -> Trim s c = s.
Proof.
  intros s c [Hl Hr]. unfold Trim, trimRightByte.
  rewrite (trimLeftByte_keep (rev s)) by assumption.
  rewrite rev_involutive. now apply trimLeftByte_keep.
Qed.

Lemma Trim_wrapped :
  forall s c, edgeFree c s -> Trim (c :: s ++ [c]) c = s.
Proof.
  intros s c [Hl Hr]. unfold Trim, trimRightByte.
  change (c :: s ++ [c]) with ((c :: s) ++ [c]).
  rewrite rev_app_distr.
  change (rev [c] ++ rev (c :: s)) with (c :: (rev s ++ [c])).
  cbn [trimLeftByte]. rewrite Ascii.eqb_refl.
  assert (Hrev : trimLeftByte (rev s ++ [c]) c
                 = match s with [] => [] | _ => rev s ++ [c] end).
  { destruct s as [| x s]; [simpl; now rewrite Ascii.eqb_refl |].
    apply trimLeftByte_keep.
    destruct (rev (x :: s)) as [| z t] eqn:E; [| exact Hr].
    apply (f_equal (@length ascii)) in E. rewrite length_rev in E. discriminate. }
  rewrite Hrev. destruct s as [| x s]; [reflexivity |].
  rewrite rev_app_distr, rev_involutive.
  change (rev [c] ++ x :: s) with (c :: x :: s).
  change (trimLeftByte (c :: x :: s) c)
    with (if Ascii.eqb c c then trimLeftByte (x :: s) c else c :: x :: s).
  rewrite Ascii.eqb_refl.
  now apply trimLeftByte_keep.
Qed.

(** [Split] *)

Lemma Split_nonempty : forall s c, Split s c <> [].
Proof.
  induction s as [| x s IH]; intros c; simpl; [discriminate |].
  destruct (Ascii.eqb x c); [discriminate |].
  destruct (Split s c); discriminate.
Qed.

Lemma Split_whole :
  forall s c, ~ In c s -> Split s c = [s].
Proof.
  induction s as [| x s IH]; intros c H; [reflexivity |]. simpl.
  destruct (Ascii.eqb_spec x c) as [-> | Hne]; [exfalso; apply H; now left |].
  rewrite IH; [reflexivity |]. intros Hin. apply H. now right.
Qed.

Lemma Split_at :
  forall a b c, ~ In c a -> Split (a ++ c :: b) c = a :: Split b c.
Proof.
  induction a as [| x a IH]; intros b c H; simpl.
  - now rewrite Ascii.eqb_refl.
  - destruct (Ascii.eqb_spec x c) as [-> | Hne]; [exfalso; apply H; now left |].
    rewrite IH; [reflexivity |]. intros Hin. apply H. now right.
Qed.

Lemma Split_prefix :
  forall a s c, ~ In c a ->
    Split (a ++ s) c
    = match Split s c with
      | p :: ps => (a ++ p) :: ps
      | [] => [a]
      end.
Proof.
  induction a as [| x a IH]; intros s c H; simpl.
  - pose proof (Split_nonempty s c). destruct (Split s c); [congruence | reflexivity].
  - destruct (Ascii.eqb_spec x c) as [-> | Hne]; [exfalso; apply H; now left |].
    rewrite IH by (intros Hin; apply H; now right).
    pose proof (Split_nonempty s c). destruct (Split s c); [congruence | reflexivity].
Qed.

End strings_facts.

(** ** The permissions list *)

Module permissions.
Import regexp walk fields strings_facts.

Lemma first_occurrence :
  forall l pre a b rest,
    borderless l = true -> ~ occurs l pre ->
    pre = a ++ b -> b <> [] ->
    stripPrefix l (b ++ l ++ rest) = None.
Proof.
  intros l pre a b rest Hborder Hno -> Hb.
  destruct (stripPrefix l (b ++ l ++ rest)) as [s' |] eqn:E; [| reflexivity].
  exfalso. apply stripPrefix_Some in E.
  apply app_eq_app in E as [t [[Hbt Hs'] | [Hl Hrest]]].
  - apply Hno. exists a, t. now rewrite Hbt.
  - destruct t as [| x t].
    + rewrite app_nil_r in Hl. subst b. apply Hno. exists a, []. now rewrite app_nil_r.
    + remember (x :: t) as T eqn:HT.
      assert (HlenT : (length T > 0)%nat) by (subst T; simpl; lia).
      clear HT x t. subst l.
      assert (Hk : In (length b) (seq 1 (length (b ++ T) - 1))).
      { apply in_seq. rewrite length_app.
        destruct b; [congruence | simpl; lia]. }
      unfold borderless in Hborder. rewrite forallb_forall in Hborder.
      specialize (Hborder _ Hk). apply negb_true_iff in Hborder.
      assert (Hpre : firstn (length T) (b ++ T) = T).
      { pose proof (f_equal (firstn (length T)) Hrest) as H.
        rewrite firstn_app, (firstn_app (length T) T s') in H.
        rewrite firstn_all, Nat.sub_diag, firstn_O, app_nil_r in H.
        replace (length T - length (b ++ T))%nat with 0%nat in H
          by (rewrite length_app; lia).
        now rewrite firstn_O, app_nil_r in H. }
      assert (Heq : skipn (length b) (b ++ T)
                    = firstn (length (b ++ T) - length b) (b ++ T)).
      { rewrite skipn_app, skipn_all, Nat.sub_diag. simpl.
        replace (length (b ++ T) - length b)%nat with (length T)
          by (rewrite length_app; lia).
        now rewrite Hpre. }
      rewrite Heq in Hborder.
      assert (Hrefl : forall u, text_eqb u u = true) by (intros u; now apply text_eqb_eq).
      now rewrite Hrefl in Hborder.
Qed.

(** The search passes a text that does not hold the key the pattern starts
    with, up to the first occurrence of the key. *)
Lemma search_first :
  forall l r pre rest bol pos,
    borderless l = true -> ~ occurs l pre ->
    search (Lit l :: r) bol (pre ++ l ++ rest) pos
    = search (Lit l :: r) (bolAfter pre bol) (l ++ rest) (pos + len pre).
Proof.
  intros l r pre rest bol pos Hborder Hno. apply search_skip.
  intros a b Hpre Hb. apply mtch_Lit_fail.
  now apply (first_occurrence l pre a b rest).
Qed.

Lemma allOf_dot : forall s, ~ In nl s -> allOf dot s.
Proof.
  intros s H. unfold allOf. apply forallb_forall. intros c Hc. unfold dot.
  destruct (Ascii.eqb_spec c nl); [subst; contradiction | reflexivity].
Qed.

(** The permissions pattern read on a declaration. *)
Lemma permissions_declared :
  forall ws1 ws2 inner post bol,
    allOf space ws1 -> allOf space ws2 ->
    ~ In nl inner -> ~ In "]" inner ->
    mtch permissionsRegex [] bol (declaration ws1 ws2 inner ++ post)
    = Some (post, [inner ++ txt "]" ++ post; txt "]" ++ post]).
Proof.
  intros ws1 ws2 inner post bol H1 H2 Hnl Hbr.
  unfold permissionsRegex, declaration. rewrite <- !app_assoc.
  rewrite mtch_Lit, mtch_Star.
  rewrite greedy_all; [| now apply failsOn_Lit | assumption | reflexivity].
  rewrite mtch_Lit, mtch_Star.
  rewrite greedy_all; [| now apply failsOn_Lit | assumption | reflexivity].
  rewrite mtch_Lit, mtch_Mark, mtch_Lazy.
  rewrite lazy_skip.
  - apply lazy_here. rewrite mtch_Mark, mtch_Lit. reflexivity.
  - now apply allOf_dot.
  - intros a [| c b] -> Hb; [congruence |].
    rewrite mtch_Mark. apply mtch_Lit_fail. change (txt "]") with ["]"].
    apply stripPrefix_head. intros ->. apply Hbr.
    rewrite in_app_iff. right. now left.
Qed.

(** The loop of [parsePermissionsString]. *)
Lemma clean_loop :
  forall raw acc,
    fold_left
      (fun permissions perm =>
         match cleanPermission perm with
         | [] => permissions
         | p => permissions ++ [p]
         end) raw acc
    = acc ++ flat_map cleanNonEmpty raw.
Proof.
  induction raw as [| perm raw IH]; intros acc; simpl.
  - now rewrite app_nil_r.
  - rewrite IH. unfold cleanNonEmpty at 2.
    destruct (cleanPermission perm); [reflexivity | now rewrite <- app_assoc].
Qed.

Lemma solid_quote : forall st, solid (quoteChar st) = true.
Proof. intros []; reflexivity. Qed.

Lemma clean_padded :
  forall l st e r,
    allOf blank l -> allOf blank r ->
    edgeFree dq e -> edgeFree "'" e ->
    cleanPermission (l ++ quoted st e ++ r) = e.
Proof.
  intros l st e r Hl Hr Hdq Hsq. unfold cleanPermission, quoted.
  change ([quoteChar st] ++ e ++ [quoteChar st])
    with (quoteChar st :: e ++ [quoteChar st]).
  rewrite TrimSpace_padded by (auto using solid_quote).
  destruct st; simpl quoteChar.
  - rewrite strings_facts.Trim_wrapped by assumption.
    now apply strings_facts.Trim_keep.
  - rewrite (strings_facts.Trim_keep ("'" :: e ++ ["'"]) dq).
    + now apply strings_facts.Trim_wrapped.
    + split; [discriminate |].
      change ("'" :: e ++ ["'"]) with (("'" :: e) ++ ["'"]).
      rewrite rev_app_distr. discriminate.
Qed.

Lemma cleanNonEmpty_padded :
  forall l st e r,
    allOf blank l -> allOf blank r ->
    edgeFree dq e -> edgeFree "'" e ->
    cleanNonEmpty (l ++ quoted st e ++ r) = nonEmpty [e].
Proof.
  intros l st e r Hl Hr Hdq Hsq. unfold cleanNonEmpty.
  rewrite clean_padded by assumption. now destruct e.
Qed.

Lemma cleanNonEmpty_left :
  forall l s, allOf blank l -> cleanNonEmpty (l ++ s) = cleanNonEmpty s.
Proof.
  intros l s H. unfold cleanNonEmpty, cleanPermission.
  now rewrite TrimSpace_left.
Qed.

End permissions.

Module permissions_list.
Import regexp walk fields strings_facts permissions.

Lemma renderList_cons :
  forall it it2 rest,
    renderList (it :: it2 :: rest)
    = renderItem it ++ "," :: renderList (it2 :: rest).
Proof. reflexivity. Qed.

Lemma blank_notIn :
  forall l c, allOf blank l -> blank c = false -> ~ In c l.
Proof.
  intros l c Hl Hc Hin. rewrite (allOf_In blank l c Hl Hin) in Hc. discriminate.
Qed.

Lemma renderItem_notIn :
  forall c it,
    blank c = false -> c <> dq -> c <> "'" ->
    wellQuoted it -> ~ In c (element it) -> ~ In c (renderItem it).
Proof.
  intros c it Hb Hdq Hsq (Hl & Hr & _) He. unfold renderItem, quoted.
  rewrite !in_app_iff. simpl.
  pose proof (blank_notIn _ c Hl Hb). pose proof (blank_notIn _ c Hr Hb).
  assert (quoteChar (style it) <> c) by (destruct (style it); simpl; congruence).
  tauto.
Qed.

Lemma renderList_notIn :
  forall c items,
    blank c = false -> c <> dq -> c <> "'" -> c <> "," ->
    Forall wellQuoted items ->
    (forall it, In it items -> ~ In c (element it)) ->
    ~ In c (renderList items).
Proof.
  intros c items Hb Hdq Hsq Hcomma.
  induction items as [| it items IH]; intros Hwell Helem; [intros [] |].
  inversion Hwell as [| ? ? Hit Hrest]; subst.
  assert (Hhere : ~ In c (renderItem it))
    by (apply renderItem_notIn; auto; apply Helem; now left).
  destruct items as [| it2 items]; [exact Hhere |].
  rewrite renderList_cons, in_app_iff. simpl.
  assert (~ In c (renderList (it2 :: items)))
    by (apply IH; auto; intros it' Hin; apply Helem; now right).
  intros [H' | [H' | H']]; auto.
Qed.

Lemma nonEmpty_cons :
  forall e l, nonEmpty (e :: l) = nonEmpty [e] ++ nonEmpty l.
Proof. intros [| c e] l; reflexivity. Qed.

(** The text between the brackets is the padding of its first item, a text
    with solid ends, and a blank rest; the pieces of the middle text give
    the elements. *)
Lemma list_pieces :
  forall rest it,
    Forall wellQuoted (it :: rest) ->
    exists x m y r,
      renderList (it :: rest) = padLeft it ++ (x :: m ++ [y]) ++ r /\
      allOf blank r /\ solid x = true /\ solid y = true /\
      flat_map cleanNonEmpty (strings.Split (x :: m ++ [y]) ",")
      = nonEmpty (map element (it :: rest)).
Proof.
  induction rest as [| it2 rest IH]; intros it Hwell;
    inversion Hwell as [| ? ? Hit Hrest]; subst;
    pose proof Hit as (Hl & Hr & (Hcomma & _ & _) & Hdq & Hsq).
  - exists (quoteChar (style it)), (element it), (quoteChar (style it)), (padRight it).
    splits; auto using solid_quote.
    rewrite strings_facts.Split_whole.
    + cbn [flat_map]. rewrite app_nil_r.
      pose proof (cleanNonEmpty_padded [] (style it) (element it) []
                    eq_refl eq_refl Hdq Hsq) as H.
      rewrite app_nil_l, app_nil_r in H. exact H.
    + simpl. rewrite in_app_iff. simpl.
      assert (quoteChar (style it) <> ",") by (destruct (style it); discriminate).
      tauto.
  - destruct (IH it2 Hrest) as (x' & m' & y' & r' & Hrender & Hr' & Hx' & Hy' & Hsplit).
    exists (quoteChar (style it)),
      (element it ++ [quoteChar (style it)] ++ padRight it ++ ","
         :: padLeft it2 ++ x' :: m'),
      y', r'.
    assert (Hmid : quoteChar (style it)
                   :: (element it ++ [quoteChar (style it)] ++ padRight it ++ ","
                         :: padLeft it2 ++ x' :: m') ++ [y']
                   = (quoted (style it) (element it) ++ padRight it)
                       ++ "," :: (padLeft it2 ++ x' :: m' ++ [y'])).
    { unfold quoted. flatten_app. reflexivity. }
    splits; auto using solid_quote.
    + rewrite renderList_cons, Hrender, Hmid. unfold renderItem.
      flatten_app. reflexivity.
    + rewrite Hmid. rewrite strings_facts.Split_at.
      * rewrite strings_facts.Split_prefix
          by (apply blank_notIn; [apply (Forall_inv Hrest) | reflexivity]).
        pose proof (strings_facts.Split_nonempty (x' :: m' ++ [y']) ",") as Hne.
        destruct (strings.Split (x' :: m' ++ [y']) ",") as [| p ps]; [congruence |].
        cbn [flat_map] in *.
        rewrite (cleanNonEmpty_left (padLeft it2) p) by apply (Forall_inv Hrest).
        rewrite Hsplit.
        pose proof (cleanNonEmpty_padded [] (style it) (element it) (padRight it)
                      eq_refl Hr Hdq Hsq) as H.
        rewrite app_nil_l in H. rewrite H.
        cbn [map]. symmetry. apply nonEmpty_cons.
      * unfold quoted. rewrite !in_app_iff. simpl.
        assert (quoteChar (style it) <> ",") by (destruct (style it); discriminate).
        pose proof (blank_notIn _ "," Hr eq_refl). tauto.
Qed.

(** The permissions parser on the text between the brackets. *)
Lemma parse_rendered :
  forall items,
    Forall wellQuoted items ->
    parsePermissionsString (renderList items)
    = Ok (nonEmpty (map element items)).
Proof.
  intros [| it rest] Hwell; [reflexivity |].
  destruct (list_pieces rest it Hwell) as (x & m & y & r & -> & Hr & Hx & Hy & Hsplit).
  unfold parsePermissionsString.
  rewrite TrimSpace_padded by (auto; apply (Forall_inv Hwell)).
  rewrite clean_loop, app_nil_l. now rewrite Hsplit.
Qed.

End permissions_list.

Lemma occursb_unfold :
  forall needle hay,
    occursb needle hay
    = match stripPrefix needle hay with
      | Some _ => true
      | None =>
          match hay with
          | [] => false
          | _ :: hay' => occursb needle hay'
          end
      end.
Proof. intros needle [| c hay]; reflexivity. Qed.

Lemma occursb_false :
  forall needle hay, occursb needle hay = false -> ~ occurs needle hay.
Proof.
  intros needle hay H (a & b & ->). revert H.
  induction a as [| c a IH]; intros H; rewrite occursb_unfold in H.
  - rewrite app_nil_l, stripPrefix_app in H. discriminate.
  - apply IH. change ((c :: a) ++ needle ++ b) with (c :: a ++ needle ++ b) in H.
    destruct (stripPrefix needle (c :: a ++ needle ++ b)); [discriminate | exact H].
Qed.

Lemma search_declaration :
  forall pre ws1 ws2 inner post,
    ~ occurs (txt "permissions") pre ->
    allOf regexp.space ws1 -> allOf regexp.space ws2 ->
    ~ In nl inner -> ~ In "]" inner ->
    regexp.search permissionsRegex true
      (pre ++ declaration ws1 ws2 inner ++ post) 0
    = Some (len pre, (post, [inner ++ txt "]" ++ post; txt "]" ++ post])).
Proof.
  intros pre ws1 ws2 inner post Hpre H1 H2 Hnl Hbr.
  pose proof (permissions.permissions_declared ws1 ws2 inner post
                (regexp.bolAfter pre true) H1 H2 Hnl Hbr) as Hm.
  assert (E : declaration ws1 ws2 inner ++ post
              = txt "permissions"
                  ++ (ws1 ++ txt ":" ++ ws2 ++ txt "[" ++ inner ++ txt "]") ++ post)
    by (unfold declaration; now rewrite <- app_assoc).
  rewrite E in *. unfold permissionsRegex in *.
  rewrite permissions.search_first by (reflexivity || assumption).
  now apply walk.search_here.
Qed.

Lemma readPermissions_declaration :
  forall block pre ws1 ws2 items post,
    stripComments block = pre ++ declaration ws1 ws2 (renderList items) ++ post ->
    ~ occurs (txt "permissions") pre ->
    allOf regexp.space ws1 -> allOf regexp.space ws2 ->
    Forall wellQuoted items ->
    exists noAuthRequired,
      parseFields (stripComments block)
      = Ok (nonEmpty (map element items), noAuthRequired).
Proof.
  intros block pre ws1 ws2 items post Hblock Hpre H1 H2 Hitems.
  rewrite Hblock. unfold parseFields, regexp.FindStringSubmatch at 1.
  rewrite search_declaration; auto.
  - rewrite fields.between_app, permissions_list.parse_rendered by assumption.
    eauto.
  - apply permissions_list.renderList_notIn; try discriminate; auto.
    intros it Hin. rewrite Forall_forall in Hitems. apply (Hitems it Hin).
  - apply permissions_list.renderList_notIn; try discriminate; auto.
    intros it Hin. rewrite Forall_forall in Hitems. apply (Hitems it Hin).
Qed.




(** ** The round trip through the format of the field parsers *)

Module roundtrip.
Import regexp walk fields permissions.

Lemma occurs_nil : forall s, occurs [] s.
Proof. intros s. now exists [], s. Qed.

(** An occurrence does not span a character the needle lacks. *)
Lemma occurs_split :
  forall needle c x y,
    ~ In c needle ->
    occurs needle (x ++ c :: y) -> occurs needle x \/ occurs needle y.
Proof.
  intros needle c x y Hc (a & b & E).
  apply app_eq_app in E as [t [[Hx E] | [Ha E]]].
  - symmetry in E. apply app_eq_app in E as [u [[Hk E] | [Ht E]]].
    + left. subst x. exists a, u. now rewrite Hk.
    + destruct u as [| c' u].
      * left. rewrite app_nil_r in Ht. subst. exists a, []. now rewrite app_nil_r.
      * inversion E; subst. exfalso. apply Hc.
        rewrite in_app_iff. right. now left.
  - destruct t as [| c' t].
    + destruct needle as [| k needle]; [left; apply occurs_nil |].
      inversion E; subst. exfalso. apply Hc. now left.
    + inversion E; subst. right. now exists t, b.
Qed.

Lemma occurs_after :
  forall needle c y,
    needle <> [] -> ~ In c needle ->
    occurs needle (c :: y) -> occurs needle y.
Proof.
  intros needle c y Hne Hc H.
  destruct (occurs_split needle c [] y Hc H) as [([| z a] & b & E) | H']; auto.
  - destruct needle; [congruence | discriminate].
  - discriminate.
Qed.

Lemma flag_chars :
  ~ In dq flagName /\ ~ In "," flagName /\ ~ In sp flagName /\
  ~ In "[" flagName /\ ~ In "]" flagName /\ ~ In ":" flagName /\
  ~ In nl flagName /\ flagName <> [].
Proof. splits; try discriminate; simpl; intuition discriminate. Qed.

Lemma flag_not_in_list :
  forall permissions,
    Forall roundTrips permissions ->
    ~ occurs flagName
        (joinWith (txt ", ") (map (quoted Double) permissions)).
Proof.
  destruct flag_chars as (Hdq & Hcomma & Hsp & _ & _ & _ & _ & Hne).
  induction permissions as [| e ps IH]; intros Hall H.
  - destruct H as ([| z a] & b & E); [| discriminate].
    unfold flagName in E. discriminate.
  - inversion Hall as [| ? ? (_ & _ & _ & _ & He) Hps]; subst.
    assert (Hrest : forall tail,
               occurs flagName (quoted Double e ++ tail) -> occurs flagName tail).
    { intros tail Ht. unfold quoted in Ht. simpl in Ht.
      apply occurs_after in Ht; auto.
      rewrite <- app_assoc in Ht. simpl in Ht.
      apply occurs_split in Ht as [Ht | Ht]; auto. contradiction. }
    destruct ps as [| e2 ps].
    + simpl in H. rewrite <- (app_nil_r (quoted Double e)) in H.
      apply Hrest in H. destruct H as ([| z a] & b & E); discriminate.
    + change (joinWith (txt ", ") (map (quoted Double) (e :: e2 :: ps)))
        with (quoted Double e ++ "," :: sp
                :: joinWith (txt ", ") (map (quoted Double) (e2 :: ps))) in H.
      apply Hrest in H.
      apply occurs_after in H; auto. apply occurs_after in H; auto.
      now apply IH in H.
Qed.

Lemma joinWith_cons :
  forall sep x y l,
    joinWith sep (x :: y :: l) = x ++ sep ++ joinWith sep (y :: l).
Proof. reflexivity. Qed.

Lemma rendered_items :
  forall ps p padL,
    renderList (mkItem padL Double p []
                  :: map (fun e => mkItem [sp] Double e []) ps)
    = padL ++ joinWith (txt ", ") (map (quoted Double) (p :: ps)).
Proof.
  induction ps as [| p2 ps IH]; intros p padL.
  - unfold renderList, renderItem. simpl. now rewrite app_nil_r.
  - cbn [map]. rewrite permissions_list.renderList_cons, IH.
    rewrite joinWith_cons. unfold renderItem. cbn [padLeft padRight style element].
    cbn [map]. change (txt ", ") with ["," ; sp]. flatten_app. reflexivity.
Qed.

Lemma serialized_list :
  forall permissions,
    joinWith (txt ", ") (map (quoted Double) permissions)
    = renderList (itemsOf permissions).
Proof.
  intros [| p ps]; [reflexivity |]. unfold itemsOf.
  now rewrite rendered_items.
Qed.

Lemma itemsOf_wellQuoted :
  forall permissions,
    Forall roundTrips permissions -> Forall wellQuoted (itemsOf permissions).
Proof.
  intros [| p ps] H; [constructor |].
  inversion H as [| ? ? (_ & Hplain & Hdq & Hsq & _) Hps]; subst.
  unfold itemsOf. constructor.
  - unfold wellQuoted; simpl. splits; auto; reflexivity.
  - rewrite Forall_map. rewrite Forall_forall in *.
    intros e He. destruct (Hps e He) as (_ & Hplain' & Hdq' & Hsq' & _).
    unfold wellQuoted; simpl. splits; auto; reflexivity.
Qed.

Lemma itemsOf_elements :
  forall permissions,
    Forall roundTrips permissions ->
    nonEmpty (map element (itemsOf permissions)) = permissions.
Proof.
  intros [| p ps] H; [reflexivity |]. unfold itemsOf. cbn [map element].
  rewrite map_map. cbn [element]. rewrite map_id.
  unfold nonEmpty. apply forallb_filter_id. apply forallb_forall.
  rewrite Forall_forall in H. intros e He.
  destruct (H e He) as (Hne & _). destruct e; [congruence | reflexivity].
Qed.

End roundtrip.

Lemma permissions_of_serialized :
  forall permissions noAuthRequired,
    Forall roundTrips permissions ->
    exists whole,
      regexp.FindStringSubmatch permissionsRegex
        (serialize permissions noAuthRequired)
      = Some [whole; renderList (itemsOf permissions)].
Proof.
  intros perms flag Hall.
  assert (E : serialize perms flag
              = [] ++ declaration [] [sp] (renderList (itemsOf perms))
                  ++ (nl :: txt "no_auth_required: " ++ serializeBool flag)).
  { unfold serialize, declaration. rewrite roundtrip.serialized_list.
    generalize (renderList (itemsOf perms)); intros inner.
    simpl. rewrite <- !app_assoc. reflexivity. }
  pose proof (roundtrip.itemsOf_wellQuoted perms Hall) as Hitems.
  assert (Hs : regexp.search permissionsRegex true (serialize perms flag) 0
               = Some (len [], (nl :: txt "no_auth_required: "
                                   ++ serializeBool flag,
                                [renderList (itemsOf perms) ++ txt "]"
                                   ++ nl :: txt "no_auth_required: "
                                   ++ serializeBool flag;
                                 txt "]" ++ nl :: txt "no_auth_required: "
                                   ++ serializeBool flag]))).
  { rewrite E. apply search_declaration; try reflexivity.
    - apply occursb_false. reflexivity.
    - apply permissions_list.renderList_notIn; try discriminate; auto.
      intros it Hin. rewrite Forall_forall in Hitems. apply (Hitems it Hin).
    - apply permissions_list.renderList_notIn; try discriminate; auto.
      intros it Hin. rewrite Forall_forall in Hitems. apply (Hitems it Hin). }
  unfold regexp.FindStringSubmatch. rewrite Hs.
  rewrite fields.between_app. eauto.
Qed.

Lemma flag_of_serialized :
  forall permissions noAuthRequired,
    Forall roundTrips permissions ->
    exists whole,
      regexp.FindStringSubmatch noAuthRegex
        (serialize permissions noAuthRequired)
      = Some [whole; serializeBool noAuthRequired].
Proof.
  intros perms flag Hall.
  destruct roundtrip.flag_chars
    as (Hdq & Hcomma & Hsp & Hopen & Hclose & Hcolon & Hnl & Hne).
  set (inner := joinWith (txt ", ") (map (quoted Double) perms)).
  assert (E : serialize perms flag
              = (txt "permissions" ++ ":" :: sp :: "[" :: inner ++ ["]"; nl])
                  ++ flagName
                  ++ ([] ++ txt ":" ++ [sp] ++ serializeBool flag ++ [])).
  { unfold serialize. fold inner. generalize inner; intros t.
    rewrite app_nil_r. simpl. rewrite <- !app_assoc. reflexivity. }
  assert (Hpre : ~ occurs flagName
                     (txt "permissions" ++ ":" :: sp :: "[" :: inner ++ ["]"; nl])).
  { intros H. apply roundtrip.occurs_split in H as [H | H]; auto.
    - revert H. apply occursb_false. reflexivity.
    - apply roundtrip.occurs_after in H; auto.
      apply roundtrip.occurs_after in H; auto.
      apply roundtrip.occurs_split in H as [H | H]; auto.
      + revert H. now apply roundtrip.flag_not_in_list.
      + revert H. apply occursb_false. reflexivity. }
  assert (Hvalue : serializeBool flag = txt "true"
                   \/ serializeBool flag = txt "false")
    by (destruct flag; [now left | now right]).
  assert (Hs : exists start,
             regexp.search noAuthRegex true (serialize perms flag) 0
             = Some (start, ([], [serializeBool flag ++ []; []]))).
  { rewrite E. eexists. unfold noAuthRegex at 1. fold flagName.
    rewrite permissions.search_first by (reflexivity || assumption).
    apply walk.search_here.
    apply (fields.noAuth_declared [] [sp] (serializeBool flag) [] _
             eq_refl eq_refl Hvalue). }
  destruct Hs as [start Hs].
  unfold regexp.FindStringSubmatch. rewrite Hs.
  rewrite fields.between_app. eauto.
Qed.

(** C7, as amended: a pair whose permissions are not empty, hold no comma,
    closing bracket or newline, have no quote character at either end and do
    not hold the name of the flag, written in the format of the field
    parsers, is read back as the same pair. *)
Theorem format_round_trip :
  forall permissions noAuthRequired,
    Forall roundTrips permissions ->
    parseFields (serialize permissions noAuthRequired)
    = Ok (permissions, noAuthRequired).
Proof.
  intros perms flag Hall. unfold parseFields.
  destruct (permissions_of_serialized perms flag Hall) as [whole ->].
  destruct (flag_of_serialized perms flag Hall) as [whole' ->].
  rewrite permissions_list.parse_rendered
    by now apply roundtrip.itemsOf_wellQuoted.
  rewrite roundtrip.itemsOf_elements by assumption.
  now destruct flag.
Qed.

(** C7 fails as stated: a permission that holds a comma comes back as two, an
    empty one is dropped, quote characters at the ends of one are lost, and
    one that reads as a declaration of the flag sets the flag. *)
Lemma format_round_trip_counterexample :
  parseFields (serialize [txt "a,b"] false) = Ok ([txt "a"; txt "b"], false) /\
  parseFields (serialize [[]] true) = Ok ([], true) /\
  parseFields (serialize [txt "'a'"] false) = Ok ([txt "a"], false) /\
  parseFields (serialize [txt "no_auth_required: true"] false)
  = Ok ([txt "no_auth_required: true"], true).
Proof. splits; vm_compute; reflexivity. Qed.

Lemma format_round_trip_witness :
  parseFields (serialize [txt "read:all"; txt "write"] true)
  = Ok ([txt "read:all"; txt "write"], true).
Proof.
  apply (format_round_trip [txt "read:all"; txt "write"] true).
  repeat constructor; try discriminate;
    try (simpl; intuition discriminate);
    apply occursb_false; reflexivity.
Defined.

(** ** Comments in the authz block *)

Module comments.
Import regexp walk fields.

Lemma bolAfter_last :
  forall s c bol, bolAfter (s ++ [c]) bol = isNl c.
Proof. intros s c bol. now rewrite bolAfter_app. Qed.

Lemma bolAfter_no_nl :
  forall s, ~ In nl s -> bolAfter s false = false.
Proof.
  induction s as [| c s IH]; intros H; [reflexivity |].
  rewrite bolAfter_cons.
  assert (Hc : isNl c = false).
  { unfold isNl. destruct (Ascii.eqb_spec c nl); [| reflexivity].
    subst. exfalso. apply H. now left. }
  rewrite Hc. apply IH. intros Hin. apply H. now right.
Qed.

Lemma bolAfter_comment :
  forall a c bol, ~ In nl c -> bolAfter (a ++ txt "//" ++ c) bol = false.
Proof.
  intros a c bol H. rewrite !bolAfter_app.
  change (bolAfter (txt "//") (bolAfter a bol)) with false.
  now apply bolAfter_no_nl.
Qed.

Lemma failsOn_Eol : forall marks, failsOn dot (mtch [Eol] marks).
Proof.
  intros marks bol c s Hc. cbn [mtch]. unfold dot in Hc. unfold isNl.
  now apply negb_true_iff in Hc as ->.
Qed.

Lemma mtch_Eol_here :
  forall marks bol s, stops dot s -> mtch [Eol] marks bol s = Some (s, marks).
Proof.
  intros marks bol [| c s] H; [reflexivity |]. cbn [mtch]. unfold stops, dot in H.
  apply negb_false_iff in H. unfold isNl. now rewrite H.
Qed.

(** The line comment pattern matches white space, the marker and the rest
    of the line. *)
Lemma mtch_comment_line :
  forall ws c post,
    allOf space ws -> ~ In nl c -> stops dot post ->
    mtch singleLineCommentRegex [] true (ws ++ txt "//" ++ c ++ post)
    = Some (post, []).
Proof.
  intros ws c post Hws Hc Hpost. unfold singleLineCommentRegex.
  rewrite mtch_Bol, mtch_Star.
  rewrite greedy_all; [| now apply failsOn_Lit | assumption | reflexivity].
  rewrite mtch_Lit, mtch_Star.
  rewrite greedy_all;
    [| apply failsOn_Eol | now apply permissions.allOf_dot | assumption].
  now apply mtch_Eol_here.
Qed.

Lemma first_nl :
  forall s, In nl s -> exists d e, s = d ++ nl :: e /\ ~ In nl d.
Proof.
  induction s as [| c s IH]; intros H; [contradiction |].
  destruct (Ascii.eqb_spec c nl) as [-> | Hne].
  - exists [], s. split; [reflexivity | intros []].
  - destruct H as [H | H]; [congruence |].
    destruct (IH H) as (d & e & -> & Hd).
    exists (c :: d), e. split; [reflexivity |].
    intros [H' | H']; [congruence | contradiction].
Qed.

(** At a position followed by a character that is no white space and by a
    newline after it, whether and how far the line comment pattern matches
    is settled before that newline. *)
Lemma mtch_decided :
  forall bol ws x t,
    allOf space ws -> space x = false -> In nl t ->
    (forall v, mtch singleLineCommentRegex [] bol (ws ++ x :: t ++ v) = None)
    \/ (exists m r,
          m <> [] /\ r <> [] /\ ws ++ x :: t = m ++ r /\
          forall v, mtch singleLineCommentRegex [] bol (ws ++ x :: t ++ v)
                    = Some (r ++ v, [])).
Proof.
  intros bol ws x t Hws Hx Ht. unfold singleLineCommentRegex.
  destruct bol; [| left; intros v; now rewrite mtch_Bol].
  assert (Hstep : forall v,
             mtch [Bol; Star space; Lit (txt "//"); Star dot; Eol] [] true
               (ws ++ x :: t ++ v)
             = mtch [Lit (txt "//"); Star dot; Eol] [] (bolAfter ws true)
                 (x :: t ++ v)).
  { intros v. rewrite mtch_Bol, mtch_Star.
    rewrite greedy_all; [reflexivity | now apply failsOn_Lit | assumption | exact Hx]. }
  destruct t as [| y t]; [contradiction |].
  destruct (Ascii.eqb_spec "/" x) as [<- | Hx'].
  2:{ left. intros v. rewrite Hstep. apply mtch_Lit_fail.
      apply stripPrefix_mismatch; [discriminate | cbn; congruence]. }
  destruct (Ascii.eqb_spec "/" y) as [<- | Hy'].
  2:{ left. intros v. rewrite Hstep. apply mtch_Lit_fail.
      change (txt "//") with ["/"; "/"]. cbn [stripPrefix app].
      rewrite Ascii.eqb_refl.
      destruct (Ascii.eqb_spec "/" y); [congruence | reflexivity]. }
  right. destruct Ht as [Ht | Ht]; [discriminate |].
  destruct (first_nl t Ht) as (d & e & -> & Hd).
  exists (ws ++ txt "//" ++ d), (nl :: e). splits.
  - intros H. apply (f_equal (@length ascii)) in H.
    rewrite !length_app in H. simpl in H. lia.
  - discriminate.
  - cbn [txt list_ascii_of_string]. flatten_app. reflexivity.
  - intros v. rewrite Hstep.
    change ("/" :: ("/" :: d ++ nl :: e) ++ v)
      with (txt "//" ++ (d ++ nl :: e) ++ v).
    rewrite mtch_Lit, mtch_Star, <- app_assoc.
    rewrite greedy_all;
      [| apply failsOn_Eol | now apply permissions.allOf_dot | reflexivity].
    now rewrite mtch_Eol_here by reflexivity.
Qed.

Lemma removeAll_step :
  forall r bol c s,
    mtch r [] bol (c :: s) = None ->
    removeAll r bol (c :: s) 0 = c :: removeAll r (isNl c) s 0.
Proof. intros r bol c s H. cbn [removeAll]. now rewrite H. Qed.

Lemma lineEnd_tail :
  forall c w, lineEnd (c :: w) -> lineEnd w /\ (w = [] -> isNl c = true).
Proof.
  intros c w [H | [w' H]]; [discriminate |].
  destruct w' as [| c' w'].
  - inversion H; subst. split; [now left | reflexivity].
  - inversion H; subst. split; [right; now exists w' |].
    intros H'. destruct w'; discriminate.
Qed.

Lemma lineEnd_suffix :
  forall m r, lineEnd (m ++ r) -> r <> [] -> lineEnd r.
Proof.
  intros m r [H | [w' H]] Hr.
  - apply app_eq_nil in H as [_ ->]. congruence.
  - right. destruct (exists_last Hr) as (r' & z & ->).
    rewrite app_assoc in H. apply app_inj_tail in H as [_ ->]. now exists r'.
Qed.

End comments.

Module line_comment.
Import regexp walk fields comments.

Section Inert.

Variables indent c c' post : text.
Hypothesis Hindent : allOf space indent.
Hypothesis Hc : ~ In nl c.
Hypothesis Hc' : ~ In nl c'.
Hypothesis Hpost : stops dot post.

(** From a position that starts a line and is followed by white space only
    up to the comment, the comment is dropped as a whole. *)
Lemma at_comment :
  forall ws cc,
    allOf space ws -> ~ In nl cc ->
    removeAll singleLineCommentRegex true
      (ws ++ indent ++ txt "//" ++ cc ++ post) 0
    = removeAll singleLineCommentRegex false post 0.
Proof.
  intros ws cc Hws Hcc.
  assert (Hm : mtch singleLineCommentRegex [] true
                 (((ws ++ indent) ++ txt "//" ++ cc) ++ post)
               = Some (post, [])).
  { rewrite <- app_assoc, <- (app_assoc (txt "//")).
    apply mtch_comment_line; auto. apply allOf_app. now split. }
  replace (ws ++ indent ++ txt "//" ++ cc ++ post)
    with (((ws ++ indent) ++ txt "//" ++ cc) ++ post)
    by (now rewrite <- !app_assoc).
  assert (Hne : (ws ++ indent) ++ txt "//" ++ cc <> []).
  { intros H. apply (f_equal (@length ascii)) in H.
    rewrite !length_app in H. simpl in H. lia. }
  rewrite (removeAll_match _ _ _ _ _ Hne Hm).
  now rewrite bolAfter_comment.
Qed.

Lemma nl_after :
  forall ws x t,
    lineEnd (ws ++ x :: t) -> space x = false -> In nl t.
Proof.
  intros ws x t [H | [w' H]] Hx.
  - destruct ws; discriminate.
  - destruct (@exists_last _ (x :: t) ltac:(discriminate)) as (u & z & Hu).
    rewrite Hu, app_assoc in H. apply app_inj_tail in H as [_ ->].
    destruct u as [| x' u]; inversion Hu; subst.
    + discriminate.
    + apply in_app_iff. right. now left.
Qed.

(** The text left of the comment is treated alike whatever the comment
    says. *)
Lemma simulate :
  forall n w bol,
    (length w <= n)%nat -> lineEnd w -> (w = [] -> bol = true) ->
    removeAll singleLineCommentRegex bol
      (w ++ indent ++ txt "//" ++ c ++ post) 0
    = removeAll singleLineCommentRegex bol
        (w ++ indent ++ txt "//" ++ c' ++ post) 0.
Proof.
  induction n as [| n IH]; intros w bol Hn Hw Hbol.
  - destruct w; [| simpl in Hn; lia]. rewrite (Hbol eq_refl).
    now rewrite (at_comment [] c), (at_comment [] c').
  - destruct w as [| x0 w0].
    { rewrite (Hbol eq_refl). now rewrite (at_comment [] c), (at_comment [] c'). }
    destruct (lineEnd_tail x0 w0 Hw) as [Hw0 Hbol0].
    assert (Hnext : forall v v',
               mtch singleLineCommentRegex [] bol ((x0 :: w0) ++ v) = None ->
               mtch singleLineCommentRegex [] bol ((x0 :: w0) ++ v') = None ->
               removeAll singleLineCommentRegex (isNl x0) (w0 ++ v) 0
               = removeAll singleLineCommentRegex (isNl x0) (w0 ++ v') 0 ->
               removeAll singleLineCommentRegex bol ((x0 :: w0) ++ v) 0
               = removeAll singleLineCommentRegex bol ((x0 :: w0) ++ v') 0).
    { intros v v' H1 H2 H3.
      change ((x0 :: w0) ++ v) with (x0 :: w0 ++ v) in *.
      change ((x0 :: w0) ++ v') with (x0 :: w0 ++ v') in *.
      rewrite !removeAll_step by assumption. now f_equal. }
    assert (Hrec : removeAll singleLineCommentRegex (isNl x0)
                     (w0 ++ indent ++ txt "//" ++ c ++ post) 0
                   = removeAll singleLineCommentRegex (isNl x0)
                       (w0 ++ indent ++ txt "//" ++ c' ++ post) 0)
      by (apply IH; [simpl in Hn; lia | assumption | assumption]).
    destruct (span_class space (x0 :: w0)) as (ws & t & E & Hws & Ht).
    destruct t as [| x t].
    + rewrite app_nil_r in E. subst ws. destruct bol.
      * now rewrite (at_comment (x0 :: w0) c), (at_comment (x0 :: w0) c').
      * apply Hnext; auto.
    + pose proof Hw as Hnl. rewrite E in Hnl. apply nl_after in Hnl; [| exact Ht].
      destruct (mtch_decided bol ws x t Hws Ht Hnl)
        as [Hnone | (m & r & Hm & Hr & Emr & Hsome)].
      * apply Hnext; auto; rewrite E; rewrite <- app_assoc; apply Hnone.
      * assert (Hmatch : forall v,
                   removeAll singleLineCommentRegex bol ((x0 :: w0) ++ v) 0
                   = removeAll singleLineCommentRegex (bolAfter m bol) (r ++ v) 0).
        { intros v. specialize (Hsome v).
          change (ws ++ x :: t ++ v) with (ws ++ (x :: t) ++ v) in Hsome.
          rewrite app_assoc, <- E in Hsome.
          rewrite E, Emr, <- app_assoc in *.
          now apply (removeAll_match _ _ _ _ _ Hm Hsome). }
        rewrite !Hmatch. apply IH.
        -- rewrite E, Emr, length_app in Hn.
           destruct m; [congruence | simpl in Hn; lia].
        -- apply (lineEnd_suffix m r); [now rewrite <- Emr, <- E | assumption].
        -- congruence.
Qed.

Lemma strip_line_comment :
  forall pre,
    lineEnd pre ->
    stripComments (pre ++ indent ++ txt "//" ++ c ++ post)
    = stripComments (pre ++ indent ++ txt "//" ++ c' ++ post).
Proof.
  intros pre Hpre. unfold stripComments, ReplaceAllString_empty.
  now rewrite (simulate (length pre) pre true (le_n _) Hpre).
Qed.

End Inert.

End line_comment.

Module block_comment.
Import regexp walk fields comments.

(** A text no match starts in is kept, whatever follows it. *)
Lemma removeAll_keep :
  forall r X post bol,
    (forall a b, X = a ++ b -> b <> [] ->
       mtch r [] (bolAfter a bol) (b ++ post) = None) ->
    removeAll r bol (X ++ post) 0 = X ++ removeAll r (bolAfter X bol) post 0.
Proof.
  intros r X post. induction X as [| c X IH]; intros bol H; [reflexivity |].
  change ((c :: X) ++ post) with (c :: X ++ post).
  rewrite removeAll_step by (apply (H [] (c :: X) eq_refl); discriminate).
  rewrite IH; [reflexivity |].
  intros a b -> Hb. apply (H (c :: a) b eq_refl Hb).
Qed.

Lemma stripPrefix_pair :
  forall p q x y s,
    ~ (x = p /\ y = q) -> stripPrefix [p; q] (x :: y :: s) = None.
Proof.
  intros p q x y s H. cbn [stripPrefix].
  destruct (Ascii.eqb_spec p x) as [<- | ]; [| reflexivity].
  destruct (Ascii.eqb_spec q y) as [<- | ]; [| reflexivity].
  exfalso. now apply H.
Qed.

Lemma occurs_pair_app :
  forall p q a b,
    occurs [p; q] (a ++ b) ->
    occurs [p; q] a \/ occurs [p; q] b \/ (endsWith p a /\ hd_error b = Some q).
Proof.
  intros p q a b (u & v & E).
  apply app_eq_app in E as [t [[Ha E] | [Hu E]]].
  - destruct t as [| x [| y t]].
    + right. left. exists [], v. simpl in *. now rewrite <- E.
    + right. right. inversion E; subst. split; [now exists u | reflexivity].
    + left. inversion E; subst. now exists u, t.
  - right. left. subst. now exists t, v.
Qed.

(** The block comment pattern matches the comment and nothing more. *)
Lemma block_pattern_matches :
  forall c bol rest,
    ~ occurs (txt "*/") c ->
    mtch multiLineCommentRegex [] bol ((txt "/*" ++ c ++ txt "*/") ++ rest)
    = Some (rest, []).
Proof.
  intros c bol rest Hc. unfold multiLineCommentRegex.
  rewrite <- !app_assoc. rewrite mtch_Lit, mtch_Lazy.
  rewrite lazy_skip.
  - apply lazy_here. now rewrite mtch_Lit.
  - unfold allOf. apply forallb_forall. reflexivity.
  - intros a [| x [| y t]] -> Hb; [congruence | |]; apply mtch_Lit_fail.
    + change ([x] ++ txt "*/" ++ rest) with (x :: "*" :: "/" :: rest).
      change (txt "*/") with ["*"; "/"]. apply stripPrefix_pair.
      intros [_ H]. discriminate.
    + change (txt "*/") with ["*"; "/"]. apply stripPrefix_pair.
      intros [-> ->]. apply Hc. now exists a, t.
Qed.

(** It matches nowhere in a text without its opening marker. *)
Lemma block_pattern_fails :
  forall pre bol tail a b,
    ~ occurs (txt "/*") pre ->
    pre = a ++ b -> b <> [] ->
    mtch multiLineCommentRegex [] bol (b ++ txt "/*" ++ tail) = None.
Proof.
  intros pre bol tail a [| x [| y t]] Hpre -> Hb; [congruence | |];
    apply mtch_Lit_fail.
  - change ([x] ++ txt "/*" ++ tail) with (x :: "/" :: "*" :: tail).
    change (txt "/*") with ["/"; "*"]. apply stripPrefix_pair.
    intros [_ H]. discriminate.
  - change (txt "/*") with ["/"; "*"]. apply stripPrefix_pair.
    intros [-> ->]. apply Hpre. now exists a, t.
Qed.

(** A block comment after a text without opening marker is removed, and
    nothing of that text. *)
Lemma strip_blocks :
  forall pre c rest,
    ~ occurs (txt "/*") pre -> ~ occurs (txt "*/") c ->
    removeAll multiLineCommentRegex true
      (pre ++ (txt "/*" ++ c ++ txt "*/") ++ rest) 0
    = pre ++ removeAll multiLineCommentRegex false rest 0.
Proof.
  intros pre c rest Hpre Hc.
  rewrite removeAll_keep.
  - f_equal.
    assert (Hne : txt "/*" ++ c ++ txt "*/" <> []) by discriminate.
    rewrite (removeAll_match _ _ _ _ _ Hne (block_pattern_matches c _ rest Hc)).
    f_equal. change (txt "*/") with (["*"] ++ ["/"]).
    now rewrite !app_assoc, bolAfter_last.
  - intros a b Hab Hb. rewrite <- !app_assoc.
    now apply (block_pattern_fails pre _ _ a b).
Qed.

Section Inert.

Variables pre c post : text.
Hypothesis Hpre_line : ~ occurs (txt "//") pre.
Hypothesis Hpre_block : ~ occurs (txt "/*") pre.
Hypothesis Hpre_end : ~ endsWith "/" pre.
Hypothesis Hc_line : ~ occurs (txt "//") c.
Hypothesis Hc_close : ~ occurs (txt "*/") c.

Lemma no_line_marker :
  ~ occurs (txt "//") (pre ++ txt "/*" ++ c ++ txt "*/").
Proof.
  intros H. apply (occurs_pair_app "/" "/") in H as [H | [H | [H _]]]; auto.
  change (txt "/*" ++ c ++ txt "*/") with (["/"] ++ "*" :: c ++ "*" :: ["/"]) in H.
  apply roundtrip.occurs_split in H as [H | H];
    [| | simpl; intuition discriminate].
  - revert H. apply occursb_false. reflexivity.
  - apply roundtrip.occurs_split in H as [H | H];
      [contradiction | | simpl; intuition discriminate].
    revert H. apply occursb_false. reflexivity.
Qed.

(** No line comment starts in the text up to the end of the block
    comment. *)
Lemma line_pattern_fails :
  forall a b,
    pre ++ txt "/*" ++ c ++ txt "*/" = a ++ b -> b <> [] ->
    mtch singleLineCommentRegex [] (bolAfter a true) (b ++ post) = None.
Proof.
  intros a b E Hb. unfold singleLineCommentRegex. rewrite mtch_Bol.
  destruct (bolAfter a true) eqn:Hbol; [| reflexivity].
  assert (Elast : a ++ b = (pre ++ txt "/*" ++ c ++ ["*"]) ++ ["/"]).
  { rewrite <- E. change (txt "*/") with (["*"] ++ ["/"]).
    now rewrite <- !app_assoc. }
  destruct (span_class space b) as (ws & t & -> & Hws & Ht).
  destruct t as [| x t1].
  - exfalso. rewrite app_nil_r in *.
    destruct (exists_last Hb) as (ws' & z & ->).
    rewrite app_assoc in Elast. apply app_inj_tail in Elast as [_ ->].
    apply allOf_app in Hws as [_ Hws]. discriminate.
  - rewrite mtch_Star, <- app_assoc.
    change ((x :: t1) ++ post) with (x :: t1 ++ post).
    rewrite greedy_all; [| now apply failsOn_Lit | assumption | exact Ht].
    apply mtch_Lit_fail. destruct t1 as [| y t2].
    + exfalso. rewrite app_assoc in Elast.
      apply app_inj_tail in Elast as [Elast ->].
      destruct ws as [| w0 ws0].
      * rewrite app_nil_r in Elast. subst a.
        rewrite !app_assoc, bolAfter_last in Hbol.
        discriminate.
      * destruct (@exists_last _ (w0 :: ws0) ltac:(discriminate))
          as (ws' & z & Hz).
        rewrite Hz in *. rewrite !app_assoc in Elast.
        apply app_inj_tail in Elast as [_ ->].
        apply allOf_app in Hws as [_ Hws]. discriminate.
    + change (txt "//") with ["/"; "/"]. apply stripPrefix_pair.
      intros [-> ->]. apply no_line_marker. rewrite E.
      exists (a ++ ws), t2. now rewrite <- app_assoc.
Qed.

(** The line comments are removed as if the block comment were live text. *)
Lemma strip_lines :
  removeAll singleLineCommentRegex true
    (pre ++ txt "/*" ++ c ++ txt "*/" ++ post) 0
  = (pre ++ txt "/*" ++ c ++ txt "*/")
      ++ removeAll singleLineCommentRegex false post 0.
Proof.
  replace (pre ++ txt "/*" ++ c ++ txt "*/" ++ post)
    with ((pre ++ txt "/*" ++ c ++ txt "*/") ++ post)
    by (now rewrite <- !app_assoc).
  rewrite removeAll_keep by apply line_pattern_fails.
  f_equal. f_equal.
  change (txt "*/") with (["*"] ++ ["/"]).
  now rewrite !app_assoc, bolAfter_last.
Qed.

(** What is left of the block once the comments are removed does not depend
    on the text of the block comment. *)
Lemma strip_block_comment :
  stripComments (pre ++ txt "/*" ++ c ++ txt "*/" ++ post)
  = pre ++ removeAll multiLineCommentRegex false
             (removeAll singleLineCommentRegex false post 0) 0.
Proof.
  unfold stripComments, ReplaceAllString_empty. rewrite strip_lines.
  rewrite <- app_assoc. now apply strip_blocks.
Qed.

End Inert.

End block_comment.

Module block_on_line.
Import regexp walk fields comments.

Local Abbreviation payload c := (txt "/*" ++ c ++ txt "*/").

Lemma payload_no_nl : forall c, ~ In nl c -> ~ In nl (payload c).
Proof.
  intros c Hc. rewrite !in_app_iff. simpl. intuition discriminate.
Qed.

Lemma bolAfter_inside :
  forall a bol, a <> [] -> ~ In nl a -> bolAfter a bol = false.
Proof.
  intros [| x a] bol Ha Hnl; [congruence |]. rewrite bolAfter_cons.
  assert (Hx : isNl x = false).
  { unfold isNl. destruct (Ascii.eqb_spec x nl); [| reflexivity].
    subst. exfalso. apply Hnl. now left. }
  rewrite Hx. apply bolAfter_no_nl. intros H. apply Hnl. now right.
Qed.

Lemma greedy_stop :
  forall p k bol c s, p c = false -> greedy p k bol (c :: s) = k bol (c :: s).
Proof. intros p k bol c s H. cbn [greedy]. now rewrite H. Qed.

(** The line comment pattern does not match at a block comment. *)
Lemma line_pattern_at_block :
  forall ws bol tail,
    allOf space ws ->
    mtch singleLineCommentRegex [] bol (ws ++ txt "/*" ++ tail) = None.
Proof.
  intros ws bol tail Hws. unfold singleLineCommentRegex. rewrite mtch_Bol.
  destruct bol; [| reflexivity]. rewrite mtch_Star.
  rewrite greedy_all; [| now apply failsOn_Lit | assumption | reflexivity].
  apply mtch_Lit_fail.
  change (txt "/*" ++ tail) with ("/" :: "*" :: tail).
  change (txt "//") with ["/"; "/"]. apply block_comment.stripPrefix_pair.
  intros [_ H]. discriminate.
Qed.

(** A block comment on one line is kept by the removal of the line
    comments. *)
Lemma payload_kept :
  forall c post bol,
    ~ In nl c ->
    removeAll singleLineCommentRegex bol (payload c ++ post) 0
    = payload c ++ removeAll singleLineCommentRegex false post 0.
Proof.
  intros c post bol Hc. rewrite block_comment.removeAll_keep.
  - f_equal. f_equal. change (txt "*/") with (["*"] ++ ["/"]).
    now rewrite !app_assoc, bolAfter_last.
  - intros a b E Hb. destruct a as [| a0 a].
    + rewrite app_nil_l in E. subst b. rewrite <- app_assoc.
      apply (line_pattern_at_block [] _ _ eq_refl).
    + rewrite bolAfter_inside; [reflexivity | discriminate |].
      intros H. apply (payload_no_nl c Hc). rewrite E, in_app_iff. now left.
Qed.

Lemma line_split :
  forall post, exists d post', post = d ++ post' /\ ~ In nl d /\ stops dot post'.
Proof.
  intros post. destruct (span_class dot post) as (d & post' & -> & Hd & Hp).
  exists d, post'. splits; auto.
  intros H. apply (allOf_In dot d nl Hd) in H. discriminate.
Qed.

Section Simulation.

Variables post d post' : text.
Hypothesis Hsplit : post = d ++ post'.
Hypothesis Hd : ~ In nl d.
Hypothesis Hpost' : stops dot post'.

(** A line comment that runs over the block comment takes the rest of the
    line with it. *)
Lemma swallowed :
  forall ws cc,
    allOf space ws -> ~ In nl cc ->
    removeAll singleLineCommentRegex true (ws ++ txt "//" ++ cc ++ post) 0
    = removeAll singleLineCommentRegex false post' 0.
Proof.
  intros ws cc Hws Hcc.
  pose proof (line_comment.at_comment [] post' eq_refl Hpost' ws (cc ++ d) Hws) as H.
  rewrite app_nil_l, <- app_assoc, <- Hsplit in H. apply H.
  rewrite in_app_iff. tauto.
Qed.

(** What the line comment pattern does at a position left of the block
    comment does not depend on the text of the comment. *)
Lemma three_ways :
  forall w bol,
    (forall c, ~ In nl c ->
       mtch singleLineCommentRegex [] bol (w ++ payload c ++ post) = None)
    \/ (bol = true /\
        exists m r,
          m <> [] /\ r <> [] /\ w = m ++ r /\
          forall c, mtch singleLineCommentRegex [] bol (w ++ payload c ++ post)
                    = Some (r ++ payload c ++ post, []))
    \/ (forall c, ~ In nl c ->
          removeAll singleLineCommentRegex bol (w ++ payload c ++ post) 0
          = removeAll singleLineCommentRegex false post' 0).
Proof.
  intros w bol.
  destruct bol; [| left; intros c _; unfold singleLineCommentRegex; now rewrite mtch_Bol].
  destruct (span_class space w) as (ws & t & -> & Hws & Ht).
  destruct t as [| x t1].
  - left. intros c _. rewrite app_nil_r, <- app_assoc.
    now apply line_pattern_at_block.
  - assert (Hfail : forall v,
               stripPrefix (txt "//") (x :: t1 ++ v) = None ->
               mtch singleLineCommentRegex [] true ((ws ++ x :: t1) ++ v) = None).
    { intros v Hv. unfold singleLineCommentRegex. rewrite mtch_Bol, mtch_Star.
      rewrite <- app_assoc. change ((x :: t1) ++ v) with (x :: t1 ++ v).
      rewrite greedy_all; [| now apply failsOn_Lit | assumption | exact Ht].
      now apply mtch_Lit_fail. }
    destruct (in_dec ascii_dec nl t1) as [Hnl | Hnl].
    + destruct (mtch_decided true ws x t1 Hws Ht Hnl)
        as [Hnone | (m & r & Hm & Hr & E & Hsome)].
      * left. intros c _. rewrite <- app_assoc. apply Hnone.
      * right. left. split; [reflexivity |]. exists m, r. splits; auto.
        intros c. rewrite <- app_assoc. apply Hsome.
    + destruct t1 as [| y t2].
      * destruct (Ascii.eqb_spec x "/") as [-> | Hx].
        -- right. right. intros c Hc.
           replace ((ws ++ ["/"]) ++ payload c ++ post)
             with (ws ++ txt "//" ++ ("*" :: c ++ txt "*/") ++ post)
             by (flatten_app; reflexivity).
           apply swallowed; auto.
           intros [H | H]; [discriminate |].
           apply in_app_iff in H as [H | H]; [contradiction |].
           simpl in H. intuition discriminate.
        -- left. intros c _. apply Hfail.
           apply stripPrefix_mismatch; [discriminate | cbn; congruence].
      * destruct (Ascii.eqb_spec x "/") as [-> | Hx];
          [destruct (Ascii.eqb_spec y "/") as [-> | Hy] |].
        -- right. right. intros c Hc.
           replace ((ws ++ "/" :: "/" :: t2) ++ payload c ++ post)
             with (ws ++ txt "//" ++ (t2 ++ payload c) ++ post)
             by (flatten_app; reflexivity).
           apply swallowed; auto.
           intros H. apply in_app_iff in H as [H | H].
           ++ apply Hnl. now right.
           ++ now apply (payload_no_nl c Hc).
        -- left. intros c _. apply Hfail.
           change (txt "//") with ["/"; "/"].
           apply block_comment.stripPrefix_pair. intros [_ H]. congruence.
        -- left. intros c _. apply Hfail.
           change (txt "//") with ["/"; "/"].
           apply block_comment.stripPrefix_pair. intros [H _]. congruence.
Qed.

Lemma occurs_cons_pair :
  forall p q x s,
    occurs [p; q] (x :: s) ->
    (x = p /\ hd_error s = Some q) \/ occurs [p; q] s.
Proof.
  intros p q x s ([| z a] & b & E).
  - left. inversion E; subst. now split.
  - right. inversion E; subst. now exists a, b.
Qed.

Lemma occurs_suffix :
  forall needle m r, occurs needle r -> occurs needle (m ++ r).
Proof.
  intros needle m r (a & b & ->). exists (m ++ a), b. now rewrite <- app_assoc.
Qed.

(** The removal of the line comments left of a block comment on one line:
    it keeps the block comment after a text that holds no opening marker
    unless the text left of it does, or it takes the block comment away
    with the line; which of the two, and the text kept, does not depend on
    the comment. *)
Lemma simulate_block :
  forall n w bol,
    (length w <= n)%nat ->
    (exists A,
        (~ occurs (txt "/*") w -> ~ occurs (txt "/*") A) /\
        (A = [] \/ hd_error A = hd_error w \/ bol = true) /\
        forall c, ~ In nl c ->
          removeAll singleLineCommentRegex bol (w ++ payload c ++ post) 0
          = A ++ payload c ++ removeAll singleLineCommentRegex false post 0)
    \/ (exists B,
          forall c, ~ In nl c ->
            removeAll singleLineCommentRegex bol (w ++ payload c ++ post) 0 = B).
Proof.
  induction n as [| n IH]; intros w bol Hn.
  - destruct w; [| simpl in Hn; lia]. left. exists []. splits; auto.
    intros c Hc. now apply payload_kept.
  - destruct w as [| x0 w0].
    { left. exists []. splits; auto. intros c Hc. now apply payload_kept. }
    destruct (three_ways (x0 :: w0) bol)
      as [Hnone | [(Hbol & m & r & Hm & Hr & E & Hsome) | Hgone]].
    + destruct (IH w0 (isNl x0) ltac:(simpl in Hn; lia))
        as [(A & Hopen & Hhead & HA) | (B & HB)].
      * left. exists (x0 :: A). splits.
        -- intros Hw Hocc. apply occurs_cons_pair in Hocc as [[-> HhdA] | Hocc].
           ++ destruct Hhead as [-> | [Hhd | Hx0]]; [discriminate | | discriminate].
              rewrite HhdA in Hhd. destruct w0 as [| y w1]; [discriminate |].
              inversion Hhd; subst. apply Hw. now exists [], w1.
           ++ revert Hocc. apply Hopen. intros H. apply Hw.
              now apply (occurs_suffix _ [x0]).
        -- right. now left.
        -- intros c Hc. change ((x0 :: w0) ++ payload c ++ post)
             with (x0 :: w0 ++ payload c ++ post).
           rewrite removeAll_step by (apply (Hnone c Hc)).
           now rewrite HA.
      * right. exists (x0 :: B). intros c Hc.
        change ((x0 :: w0) ++ payload c ++ post)
          with (x0 :: w0 ++ payload c ++ post).
        rewrite removeAll_step by (apply (Hnone c Hc)).
        now rewrite HB.
    + assert (Hlen : (length r <= n)%nat).
      { rewrite E, length_app in Hn. destruct m; [congruence | simpl in Hn; lia]. }
      assert (Hmatch : forall c,
                 removeAll singleLineCommentRegex bol
                   ((x0 :: w0) ++ payload c ++ post) 0
                 = removeAll singleLineCommentRegex (bolAfter m bol)
                     (r ++ payload c ++ post) 0).
      { intros c. specialize (Hsome c). rewrite E, <- app_assoc in *.
        now apply (removeAll_match _ _ _ _ _ Hm Hsome). }
      destruct (IH r (bolAfter m bol) Hlen) as [(A & Hopen & Hhead & HA) | (B & HB)].
      * left. exists A. splits.
        -- intros Hw. apply Hopen. intros H. apply Hw. rewrite E.
           now apply occurs_suffix.
        -- right. now right.
        -- intros c Hc. now rewrite Hmatch, HA.
      * right. exists B. intros c Hc. now rewrite Hmatch, HB.
    + right. eexists. exact Hgone.
Qed.

End Simulation.

(** What is left of the block once the comments are removed does not depend
    on the text of a block comment on one line before which the block holds
    no opening marker. *)
Lemma strip_block_on_line :
  forall pre c c' post,
    ~ occurs (txt "/*") pre ->
    ~ In nl c -> ~ In nl c' ->
    ~ occurs (txt "*/") c -> ~ occurs (txt "*/") c' ->
    stripComments (pre ++ txt "/*" ++ c ++ txt "*/" ++ post)
    = stripComments (pre ++ txt "/*" ++ c' ++ txt "*/" ++ post).
Proof.
  intros pre c c' post Hpre Hc Hc' Hclose Hclose'.
  destruct (line_split post) as (d & post' & Hsplit & Hd & Hpost').
  assert (E : forall x, pre ++ txt "/*" ++ x ++ txt "*/" ++ post
                        = pre ++ payload x ++ post)
    by (intros x; now rewrite <- !app_assoc).
  rewrite !E. unfold stripComments, ReplaceAllString_empty.
  destruct (simulate_block post d post' Hsplit Hd Hpost' (length pre) pre true (le_n _))
    as [(A & Hopen & _ & HA) | (B & HB)].
  - rewrite (HA c Hc), (HA c' Hc').
    rewrite !block_comment.strip_blocks; auto.
  - now rewrite (HB c Hc), (HB c' Hc').
Qed.

End block_on_line.




Lemma rules_in_declaration_order_witness :
  parseFile (samples.oneFile samples.readme)
    (mkFile [mkService [samples.testWithPermissions];
             mkService [samples.testWithPermissions]])
  = [mkRule (txt "/v1/test2/{foo_id}") (txt "POST") [txt "read:all"] false;
     mkRule (txt "/v1/test2/{foo_id}") (txt "POST") [txt "read:all"] false].
Proof.
  refine (proj1 (proj2 (proj2 (rules_in_declaration_order
                                 (samples.oneFile samples.readme) (mkFile [])))
                   samples.testWithPermissions _ _)).
  vm_compute. reflexivity.
Defined.

Lemma comments_outside_authz_block_witness :
  matchBrace
    (map (fun c => if Ascii.eqb c "/" then "x" else c) samples.braceInComment)
    41
  = matchBrace samples.braceInComment 41.
Proof.
  apply (proj1 comments_outside_authz_block
           (fun c => if Ascii.eqb c "/" then "x" else c)).
  intros c. destruct (Ascii.eqb_spec c "/") as [-> | _]; split; reflexivity.
Defined.

(** * Further properties of parser.go *)

(** ** Errors of a method *)

Lemma extractHTTPInfoFromRule_error :
  forall httpRule e,
    extractHTTPInfoFromRule httpRule = Err e -> e = NoHTTPMethodFound.
Proof.
  induction httpRule as [| f fields IH]; intros e; simpl.
  - now inversion 1.
  - destruct (fieldHas f); simpl; [| apply IH].
    destruct (verbOf (fieldName f)); [discriminate | apply IH].
Qed.

Lemma extractAuthz_error :
  forall fs protoPath methodName e,
    extractAuthzFromProtoFile fs protoPath methodName = Err e ->
    In e [FileReadFailure; MethodNotFound; UnmatchedBraces InMethod;
          AuthzOptionsNotFound; UnmatchedBraces InAuthzBlock].
Proof.
  intros fs protoPath methodName e. unfold extractAuthzFromProtoFile.
  destruct (fs protoPath) as [content |]; [| inversion 1; simpl; tauto].
  unfold methodBodyOf.
  destruct (FindStringIndex (rpcRegex methodName) content) as [[a rpcEnd] |];
    [| inversion 1; simpl; tauto].
  destruct (matchBrace content (rpcEnd - 1 + 1)) as [pos bc].
  destruct (negb (bc =? 0)%Z); [inversion 1; simpl; tauto |].
  unfold authzBlock.
  destruct (FindStringIndex authzStartRegex _) as [[a' startPos] |];
    [| inversion 1; simpl; tauto].
  destruct (matchBrace _ startPos) as [pos' bc'].
  destruct (negb (bc' =? 0)%Z); [inversion 1; simpl; tauto |].
  intros H. destruct (parseFields_ok (stripComments (slice
    (slice content (rpcEnd - 1 + 1) (pos - 1)) startPos (pos' - 1))))
    as [fields Hok].
  congruence.
Qed.

(** X1: a method fails in one of seven ways.  The authz options are
    extracted first, so when they fail the error is theirs whatever the HTTP
    annotation is: the file cannot be read, the method is not found, the
    braces of the method or of the authz block are unmatched, or the authz
    option is not found.  The HTTP annotation is only looked at when the
    authz options were extracted, and fails for want of the annotation or of
    a populated verb field. *)
Theorem parseMethod_errors :
  forall fs method e,
    parseMethod fs method = Err e ->
    (exists cause,
       e = ExtractAuthzFailed cause /\
       extractAuthzOptions fs method = Err cause /\
       In cause [FileReadFailure; MethodNotFound; UnmatchedBraces InMethod;
                 AuthzOptionsNotFound; UnmatchedBraces InAuthzBlock]) \/
    (exists cause,
       e = ExtractHTTPFailed cause /\
       isOk (extractAuthzOptions fs method) = true /\
       extractHTTPInfo method = Err cause /\
       In cause [NoHTTPAnnotation; NoHTTPMethodFound]).
Proof.
  intros fs method e. unfold parseMethod.
  destruct (extractAuthzOptions fs method) as [[perms flag] | cause] eqn:Hauthz.
  - destruct (extractHTTPInfo method) as [[path verb] | cause] eqn:Hhttp;
      [discriminate |].
    intros H; inversion H; subst e. right. exists cause. splits; auto.
    unfold extractHTTPInfo in Hhttp.
    destruct (E_Http (Options method)) as [httpRule |].
    + apply extractHTTPInfoFromRule_error in Hhttp. subst. simpl. tauto.
    + inversion Hhttp. simpl. tauto.
  - intros H; inversion H; subst e. left. exists cause. splits; auto.
    now apply (extractAuthz_error fs (ParentFilePath method) (Name method)).
Qed.

(** X2: when the file of a method cannot be read the method fails with the
    read error, whatever its HTTP annotation is, and a file none of whose
    methods can be read gives no rule at all. *)
Theorem unreadable_file_gives_no_rule :
  forall fs,
    (forall method,
       fs (ParentFilePath method) = None ->
       parseMethod fs method = Err (ExtractAuthzFailed FileReadFailure)) /\
    (forall file,
       (forall service method,
          In service (Services file) -> In method (Methods service) ->
          fs (ParentFilePath method) = None) ->
       parseFile fs file = []).
Proof.
  intros fs.
  assert (Hone : forall method,
             fs (ParentFilePath method) = None ->
             parseMethod fs method = Err (ExtractAuthzFailed FileReadFailure)).
  { intros method H.
    unfold parseMethod, extractAuthzOptions, extractFromProtoSource,
      extractAuthzFromProtoFile. now rewrite H. }
  split; [exact Hone |].
  intros [services] Hall. rewrite parseFile_flat_map. cbn [Services] in *.
  induction services as [| service services IH]; [reflexivity |].
  cbn [flat_map]. rewrite IH by (intros s m Hs; apply Hall; now right).
  rewrite app_nil_r, parseService_flat_map.
  assert (Hm : forall method, In method (Methods service) ->
                 rulesOf fs method = []).
  { intros m Hin. unfold rulesOf. rewrite Hone; [reflexivity |].
    apply (Hall service m); [now left | assumption]. }
  induction (Methods service) as [| m ms IHm]; [reflexivity |].
  cbn [flat_map]. rewrite (Hm m) by now left.
  apply IHm. intros m' Hin. apply Hm. now right.
Qed.

(** ** Where a rule comes from *)

Lemma extractHTTPInfoFromRule_field :
  forall httpRule path verb,
    extractHTTPInfoFromRule httpRule = Ok (path, verb) ->
    exists f,
      In f httpRule /\ fieldHas f = true /\ path = fieldString f /\
      verbOf (fieldName f) = Some verb.
Proof.
  induction httpRule as [| f fields IH]; intros path verb; simpl; [discriminate |].
  assert (Hrest : extractHTTPInfoFromRule fields = Ok (path, verb) ->
                  exists f0, (f = f0 \/ In f0 fields) /\ fieldHas f0 = true /\
                             path = fieldString f0 /\
                             verbOf (fieldName f0) = Some verb).
  { intros H. destruct (IH _ _ H) as (f0 & Hin & Hrest). exists f0. tauto. }
  destruct (fieldHas f) eqn:Hhas; simpl; [| exact Hrest].
  destruct (verbOf (fieldName f)) as [v |] eqn:Hverb; [| exact Hrest].
  intros H; inversion H; subst. exists f. tauto.
Qed.

Lemma verbOf_httpVerbs :
  forall name verb, verbOf name = Some verb -> In verb httpVerbs.
Proof.
  intros name verb H. apply verbOf_table in H. unfold verbTable in H.
  simpl in H.
  repeat (destruct H as [H | H]; [inversion H; subst; simpl; tauto |]).
  contradiction.
Qed.

(** X3: every rule of a file comes from one of its methods, in one of its
    services, for which both extractions succeeded; its method is one of
    GET, POST, PUT, DELETE and PATCH, and its path is the value of a field
    of the HTTP annotation that is set and named after that verb. *)
Theorem rule_provenance :
  forall fs file rule,
    In rule (parseFile fs file) ->
    In (HTTPMethod rule) httpVerbs /\
    exists service method httpRule f,
      In service (Services file) /\ In method (Methods service) /\
      parseMethod fs method = Ok rule /\
      extractAuthzOptions fs method
      = Ok (Permissions rule, NoAuthRequired rule) /\
      E_Http (Options method) = Some httpRule /\
      In f httpRule /\ fieldHas f = true /\
      HTTPPath rule = fieldString f /\
      verbOf (fieldName f) = Some (HTTPMethod rule).
Proof.
  intros fs file rule Hin.
  rewrite parseFile_flat_map in Hin. apply in_flat_map in Hin as (service & Hs & Hin).
  rewrite parseService_flat_map in Hin.
  apply in_flat_map in Hin as (method & Hm & Hin).
  unfold rulesOf in Hin.
  destruct (parseMethod fs method) as [rule' | e] eqn:Hrule; [| contradiction].
  destruct Hin as [-> | []].
  pose proof Hrule as Hparts. unfold parseMethod in Hparts.
  destruct (extractAuthzOptions fs method) as [[perms flag] | e] eqn:Hauthz;
    [| discriminate].
  destruct (extractHTTPInfo method) as [[path verb] | e] eqn:Hhttp; [| discriminate].
  inversion Hparts; subst rule; clear Hparts.
  cbn [HTTPMethod HTTPPath Permissions NoAuthRequired].
  unfold extractHTTPInfo in Hhttp.
  destruct (E_Http (Options method)) as [httpRule |] eqn:Hext; [| discriminate].
  destruct (extractHTTPInfoFromRule_field _ _ _ Hhttp) as (f & Hf & Hhas & Hpath & Hverb).
  split; [now apply (verbOf_httpVerbs (fieldName f)) |].
  exists service, method, httpRule, f. splits; auto.
Qed.

(** ** What a match of the two locating patterns looks like *)

Module shape.
Import walk.

Lemma mtch_Lit_inv :
  forall l r marks bol s o,
    mtch (Lit l :: r) marks bol s = Some o ->
    exists s', s = l ++ s' /\ mtch r marks (bolAfter l bol) s' = Some o.
Proof.
  intros l r marks bol s o H. cbn [mtch] in H.
  destruct (stripPrefix l s) as [s' |] eqn:E; [| discriminate].
  apply stripPrefix_Some in E. eauto.
Qed.

Lemma mtch_Cls_inv :
  forall p r marks bol s o,
    mtch (Cls p :: r) marks bol s = Some o ->
    exists c s', s = c :: s' /\ p c = true /\ mtch r marks (isNl c) s' = Some o.
Proof.
  intros p r marks bol [| c s] o H; cbn [mtch] in H; [discriminate |].
  destruct (p c) eqn:Hc; [| discriminate]. eauto.
Qed.

Lemma greedy_inv :
  forall p k bol s o,
    greedy p k bol s = Some o ->
    exists w t, s = w ++ t /\ allOf p w /\ k (bolAfter w bol) t = Some o.
Proof.
  intros p k bol s; revert bol.
  induction s as [| c s IH]; intros bol o H; cbn [greedy] in H.
  - exists [], []. now splits.
  - destruct (p c) eqn:Hc; [| exists [], (c :: s); now splits].
    destruct (greedy p k (isNl c) s) as [o' |] eqn:E;
      [| exists [], (c :: s); now splits].
    inversion H; subst o'.
    destruct (IH _ _ E) as (w & t & -> & Hw & Hk).
    exists (c :: w), t. splits; [reflexivity | now apply allOf_cons | exact Hk].
Qed.

Lemma mtch_Star_inv :
  forall p r marks bol s o,
    mtch (Star p :: r) marks bol s = Some o ->
    exists w t, s = w ++ t /\ allOf p w /\ mtch r marks (bolAfter w bol) t = Some o.
Proof. intros p r marks bol s o H. now apply greedy_inv. Qed.

(** A match of the method pattern is a method head of that name. *)
Lemma rpc_inv :
  forall name marks bol s rest marks',
    mtch (rpcRegex name) marks bol s = Some (rest, marks') ->
    exists g,
      rpcName g = name /\ wellFormed g /\ s = renderSignature g ++ rest.
Proof.
  intros name marks bol s rest marks' H. unfold rpcRegex in H.
  apply mtch_Lit_inv in H as (s0 & -> & H).
  apply mtch_Cls_inv in H as (c & s1 & -> & Hc & H).
  apply mtch_Star_inv in H as (w1 & s2 & -> & Hw1 & H).
  apply mtch_Lit_inv in H as (s3 & -> & H).
  apply mtch_Star_inv in H as (w2 & s4 & -> & Hw2 & H).
  apply mtch_Lit_inv in H as (s5 & -> & H).
  apply mtch_Star_inv in H as (args & s6 & -> & Hargs & H).
  apply mtch_Lit_inv in H as (s7 & -> & H).
  apply mtch_Star_inv in H as (w3 & s8 & -> & Hw3 & H).
  apply mtch_Lit_inv in H as (s9 & -> & H).
  apply mtch_Star_inv in H as (w4 & s10 & -> & Hw4 & H).
  apply mtch_Lit_inv in H as (s11 & -> & H).
  apply mtch_Star_inv in H as (ret & s12 & -> & Hret & H).
  apply mtch_Lit_inv in H as (s13 & -> & H).
  apply mtch_Star_inv in H as (w5 & s14 & -> & Hw5 & H).
  apply mtch_Lit_inv in H as (s15 & -> & H).
  rewrite mtch_end in H. inversion H; subst.
  exists (mkSignature (c :: w1) name w2 args w3 w4 ret w5).
  unfold wellFormed, renderSignature; cbn [gapName rpcName gapRequest request
    gapReturns gapResponse response gapBrace].
  splits; auto; [discriminate | now apply allOf_cons |].
  flatten_app. reflexivity.
Qed.

(** A match of the authz pattern is a head of the authz option. *)
Lemma authz_inv :
  forall marks bol s rest marks',
    mtch authzStartRegex marks bol s = Some (rest, marks') ->
    exists g1 g2 g3 g4 g5,
      allOf space g1 /\ allOf space g2 /\ allOf space g3 /\ allOf space g4 /\
      allOf space g5 /\ s = authzHeader g1 g2 g3 g4 g5 ++ rest.
Proof.
  intros marks bol s rest marks' H. unfold authzStartRegex in H.
  apply mtch_Lit_inv in H as (s0 & -> & H).
  apply mtch_Star_inv in H as (g1 & s1 & -> & H1 & H).
  apply mtch_Lit_inv in H as (s2 & -> & H).
  apply mtch_Star_inv in H as (g2 & s3 & -> & H2 & H).
  apply mtch_Lit_inv in H as (s4 & -> & H).
  apply mtch_Star_inv in H as (g3 & s5 & -> & H3 & H).
  apply mtch_Lit_inv in H as (s6 & -> & H).
  apply mtch_Star_inv in H as (g4 & s7 & -> & H4 & H).
  apply mtch_Lit_inv in H as (s8 & -> & H).
  apply mtch_Star_inv in H as (g5 & s9 & -> & H5 & H).
  apply mtch_Lit_inv in H as (s10 & -> & H).
  rewrite mtch_end in H. inversion H; subst.
  exists g1, g2, g3, g4, g5. splits; auto.
  unfold authzHeader. flatten_app. reflexivity.
Qed.

(** The leftmost match: where it starts, what it takes, and that no match
    starts before it. *)
Lemma search_found :
  forall r s bol pos start rest marks,
    search r bol s pos = Some (start, (rest, marks)) ->
    exists pre mid,
      s = pre ++ mid ++ rest /\ start = (pos + len pre)%Z /\
      mtch r [] (bolAfter pre bol) (mid ++ rest) = Some (rest, marks) /\
      (forall a b, pre = a ++ b -> b <> [] ->
         mtch r [] (bolAfter a bol) (b ++ mid ++ rest) = None).
Proof.
  intros r s; induction s as [| c s IH]; intros bol pos start rest marks H;
    cbn [search] in H.
  - destruct (mtch r [] bol []) as [o |] eqn:E; [| discriminate].
    inversion H; subst.
    destruct (regexp_facts.mtch_suffix _ _ _ _ _ _ E) as [mid Hmid].
    exists [], mid. splits; auto.
    + unfold len; simpl; lia.
    + cbn [app bolAfter fold_left]. now rewrite <- Hmid.
    + intros a b Hab Hb. destruct a; destruct b; try discriminate. congruence.
  - destruct (mtch r [] bol (c :: s)) as [o |] eqn:E.
    + inversion H; subst.
      destruct (regexp_facts.mtch_suffix _ _ _ _ _ _ E) as [mid Hmid].
      exists [], mid. splits; auto.
      * unfold len; simpl; lia.
      * cbn [app bolAfter fold_left]. now rewrite <- Hmid.
      * intros a b Hab Hb. destruct a; destruct b; try discriminate. congruence.
    + destruct (IH _ _ _ _ _ H) as (pre & mid & -> & -> & Hm & Hnone).
      exists (c :: pre), mid. splits.
      * reflexivity.
      * unfold len; simpl length. lia.
      * exact Hm.
      * intros [| c' a] b Hab Hb.
        -- cbn [app] in Hab. subst b. exact E.
        -- cbn [app] in Hab. inversion Hab; subst.
           rewrite bolAfter_cons. now apply Hnone.
Qed.

Lemma FindStringIndex_found :
  forall r s a b,
    FindStringIndex r s = Some (a, b) ->
    exists pre mid rest marks,
      s = pre ++ mid ++ rest /\ a = len pre /\ b = len (pre ++ mid) /\
      mtch r [] (bolAfter pre true) (mid ++ rest) = Some (rest, marks) /\
      (forall x y, pre = x ++ y -> y <> [] ->
         mtch r [] (bolAfter x true) (y ++ mid ++ rest) = None).
Proof.
  intros r s a b. unfold FindStringIndex.
  destruct (search r true s 0) as [[start [rest marks]] |] eqn:E; [| discriminate].
  intros H; inversion H; subst.
  destruct (search_found _ _ _ _ _ _ _ E) as (pre & mid & -> & -> & Hm & Hnone).
  exists pre, mid, rest, marks. splits; auto; rewrite ?len_app; lia.
Qed.

(** The scan from a position is the scan of the text that starts there. *)
Lemma matchBrace_app :
  forall before rest,
    matchBrace (before ++ rest) (len before) = scanBraces rest (len before) 1.
Proof.
  intros before rest. unfold matchBrace, len.
  now rewrite Nat2Z.id, skipn_app, skipn_all, Nat.sub_diag.
Qed.

(** A scan that ends at depth 0 has read a text with matched braces and the
    closing brace after it. *)
Lemma closing_last :
  forall read depth,
    read <> [] ->
    (forall n, (n < length read)%nat ->
       (0 < fold_left braceStep (firstn n read) depth)%Z) ->
    fold_left braceStep read depth = 0%Z ->
    exists body, read = body ++ ["}"] /\ nested body depth = true.
Proof.
  induction read as [| c read IH]; intros depth Hne Hbefore Hend; [congruence |].
  destruct read as [| c' read].
  - exists []. pose proof (Hbefore 0%nat ltac:(simpl; lia)) as H0.
    simpl in H0, Hend. unfold braceStep in Hend.
    destruct (Ascii.eqb_spec c "{"); [lia |].
    destruct (Ascii.eqb_spec c "}") as [-> | _]; [| lia].
    split; [reflexivity |]. simpl. apply Z.eqb_eq. lia.
  - destruct (IH (braceStep depth c)) as (body & Hbody & Hnested).
    + discriminate.
    + intros n Hn. apply (Hbefore (S n)). simpl in *. lia.
    + exact Hend.
    + exists (c :: body). rewrite Hbody. split; [reflexivity |].
      cbn [nested]. rewrite Hnested, andb_true_r. apply Z.ltb_lt.
      apply (Hbefore 1%nat). simpl. lia.
Qed.

(** The scan of a text with matched braces ends just after the closing
    brace that follows it. *)
Lemma scan_nested :
  forall body rest pos depth,
    (0 < depth)%Z -> nested body depth = true ->
    scanBraces (body ++ "}" :: rest) pos depth = ((pos + len body + 1)%Z, 0%Z).
Proof.
  induction body as [| c body IH]; intros rest pos depth Hd H; cbn [nested] in H.
  - apply Z.eqb_eq in H. subst depth. cbn [app].
    rewrite scanBraces_step by lia. cbn. rewrite scanBraces_stop by lia.
    f_equal. unfold len; simpl; lia.
  - apply andb_true_iff in H as [Hpos H]. apply Z.ltb_lt in Hpos.
    change ((c :: body) ++ "}" :: rest) with (c :: (body ++ "}" :: rest)).
    rewrite scanBraces_step by assumption. rewrite IH by assumption.
    f_equal. unfold len; simpl length. lia.
Qed.

(** What is cut out after a head when the braces are matched. *)
Lemma cut_nested :
  forall before body rest,
    nested body 1 = true ->
    matchBrace (before ++ body ++ "}" :: rest) (len before)
    = ((len before + len body + 1)%Z, 0%Z) /\
    slice (before ++ body ++ "}" :: rest) (len before)
      (len before + len body + 1 - 1) = body.
Proof.
  intros before body rest H. split.
  - rewrite matchBrace_app. now apply scan_nested.
  - replace (len before + len body + 1 - 1)%Z with (len before + len body)%Z by lia.
    apply slice_app_mid.
Qed.

End shape.

(** ** A method head is found where it is declared *)

Module locate.
Import walk fields shape.

Lemma nameChar_space : forall c, nameChar c = true -> space c = false.
Proof.
  intros c H. unfold nameChar in H. apply andb_true_iff in H as [H _].
  now apply negb_true_iff.
Qed.

Lemma occurs_app_r : forall needle a b, occurs needle b -> occurs needle (a ++ b).
Proof.
  intros needle a b (x & y & ->). exists (a ++ x), y. now rewrite <- app_assoc.
Qed.

(** Two texts that agree start with the same white space when a character
    that is no white space follows it in both. *)
Lemma first_solid :
  forall s w x y sx sy,
    allOf space s -> allOf space w -> space x = false -> space y = false ->
    s ++ x :: sx = w ++ y :: sy -> x = y.
Proof.
  induction s as [| c s IH]; intros w x y sx sy Hs Hw Hx Hy E.
  - destruct w as [| d w]; cbn [app] in E; inversion E; subst; [reflexivity |].
    apply allOf_cons in Hw as [Hd _]. congruence.
  - apply allOf_cons in Hs as [Hc Hs].
    destruct w as [| d w]; cbn [app] in E; inversion E; subst; [congruence |].
    apply allOf_cons in Hw as [_ Hw]. now apply (IH w x y sx sy).
Qed.

(** The end of a name is not the start of a method head that the pattern
    reads on from there. *)
Lemma name_end_no_head :
  forall u name w1 tail s2 Z,
    u <> [] -> allOf nameChar u -> properName name ->
    w1 <> [] -> allOf space w1 -> allOf space s2 ->
    txt "rpc" ++ w1 ++ name ++ tail <> u ++ s2 ++ "(" :: Z.
Proof.
  intros u name w1 tail s2 Z Hu Hchars [Hname Hnamechars] Hw1 Hspace Hs2 E.
  change (txt "rpc") with ["r"; "p"; "c"] in E.
  assert (Hstart : forall x t, s2 ++ "(" :: Z = x :: t -> space x = false ->
                     x <> "(" -> False).
  { intros x t E' Hx Hp. destruct s2 as [| z s2]; cbn [app] in E'; inversion E'; subst.
    - congruence.
    - apply allOf_cons in Hs2 as [Hz _]. congruence. }
  destruct u as [| u0 [| u1 [| u2 [| u3 u]]]]; [congruence | | | |];
    cbn [app] in E; inversion E; subst.
  - symmetry in H1. apply (Hstart _ _ H1); [reflexivity | discriminate].
  - symmetry in H2. apply (Hstart _ _ H2); [reflexivity | discriminate].
  - destruct name as [| n0 name]; [congruence |].
    apply allOf_cons in Hnamechars as [Hn0 _].
    pose proof (nameChar_space _ Hn0) as Hsp.
    symmetry in H3. apply first_solid in H3; auto.
    subst n0. discriminate.
  - destruct w1 as [| x w1]; [congruence |]. cbn [app] in H3. inversion H3; subst.
    apply allOf_cons in Hspace as [Hx _].
    do 3 (apply allOf_cons in Hchars as [_ Hchars]).
    apply allOf_cons in Hchars as [Hu3 _].
    apply nameChar_space in Hu3. congruence.
Qed.

(** A text before a method head in which the pattern starts a match holds
    the name. *)
Lemma rpc_overlap :
  forall name b w1 tail S s2 Z,
    properName name -> b <> [] ->
    w1 <> [] -> allOf space w1 -> S <> [] -> allOf space S -> allOf space s2 ->
    b ++ txt "rpc" ++ w1 ++ name ++ tail = txt "rpc" ++ S ++ name ++ s2 ++ "(" :: Z ->
    occurs name b.
Proof.
  intros name b w1 tail S s2 Z Hname Hb Hw1 Hspace HS HSspace Hs2 E.
  change (txt "rpc") with ["r"; "p"; "c"] in E.
  destruct b as [| b0 [| b1 [| b2 B]]]; [congruence | | |];
    cbn [app] in E; inversion E as [[E0 E1 E2 E3]]; subst.
  clear E.
  change ("r" :: "p" :: "c" :: w1 ++ name ++ tail)
    with (txt "rpc" ++ w1 ++ name ++ tail) in E3.
  apply (occurs_app_r name ["r"; "p"; "c"] B).
  apply app_eq_app in E3 as [t [[HB E] | [HSt E]]].
  - (* the white space of the match ends in [B] *)
    symmetry in E. apply app_eq_app in E as [u [[Hn E] | [Ht E]]].
    + subst B. exists S, u. now rewrite Hn.
    + destruct u as [| u0 u].
      * rewrite app_nil_r in Ht. subst t B. exists S, []. now rewrite app_nil_r.
      * exfalso. destruct Hname as [Hne Hchars].
        assert (Hu : allOf nameChar (u0 :: u))
          by (rewrite Ht in Hchars; now apply allOf_app in Hchars).
        apply (name_end_no_head (u0 :: u) name w1 tail s2 Z); auto;
          [discriminate | now split].
  - (* the white space of the match reaches the head *)
    exfalso. subst S. apply allOf_app in HSspace as [_ Ht].
    destruct t as [| t0 t].
    + cbn [app] in E.
      apply (name_end_no_head name name w1 tail s2 Z); auto; apply Hname.
    + change (txt "rpc") with ["r"; "p"; "c"] in E. cbn [app] in E.
      inversion E; subst. apply allOf_cons in Ht as [Ht0 _]. discriminate.
Qed.

(** The method pattern on a method head. *)
Lemma rpc_here :
  forall g rest bol,
    wellFormed g -> properName (rpcName g) ->
    exists marks,
      mtch (rpcRegex (rpcName g)) [] bol (renderSignature g ++ rest)
      = Some (rest, marks).
Proof.
  intros [w1 name w2 args w3 w4 ret w5] rest bol
    (Hne & H1 & H2 & Hargs & H3 & H4 & Hret & H5) [Hname Hchars].
  cbn [gapName rpcName gapRequest request gapReturns gapResponse response
         gapBrace] in *.
  destruct w1 as [| c w1]; [congruence |]. apply allOf_cons in H1 as [Hc H1].
  destruct name as [| n0 name]; [congruence |].
  apply allOf_cons in Hchars as [Hn0 _]. apply nameChar_space in Hn0.
  unfold rpcRegex, renderSignature.
  cbn [gapName rpcName gapRequest request gapReturns gapResponse response
         gapBrace].
  flatten_app.
  change ("r" :: "p" :: "c" :: c :: ?s) with (txt "rpc" ++ c :: s).
  rewrite mtch_Lit, mtch_Cls, Hc, mtch_Star.
  rewrite greedy_all; [| now apply failsOn_Lit | assumption | exact Hn0].
  change (n0 :: name ++ ?s) with ((n0 :: name) ++ s).
  rewrite mtch_Lit, mtch_Star.
  rewrite greedy_all; [| now apply failsOn_Lit | assumption | reflexivity].
  change ("(" :: ?s) with (txt "(" ++ s).
  rewrite mtch_Lit, mtch_Star.
  rewrite greedy_all; [| now apply failsOn_Lit | assumption | reflexivity].
  change (")" :: ?s) with (txt ")" ++ s).
  rewrite mtch_Lit, mtch_Star.
  rewrite greedy_all; [| now apply failsOn_Lit | assumption | reflexivity].
  change ("r" :: "e" :: "t" :: "u" :: "r" :: "n" :: "s" :: ?s)
    with (txt "returns" ++ s).
  rewrite mtch_Lit, mtch_Star.
  rewrite greedy_all; [| now apply failsOn_Lit | assumption | reflexivity].
  change ("(" :: ?s) with (txt "(" ++ s).
  rewrite mtch_Lit, mtch_Star.
  rewrite greedy_all; [| now apply failsOn_Lit | assumption | reflexivity].
  change (")" :: ?s) with (txt ")" ++ s).
  rewrite mtch_Lit, mtch_Star.
  rewrite greedy_all; [| now apply failsOn_Lit | assumption | reflexivity].
  change ("{" :: rest) with (txt "{" ++ rest).
  rewrite mtch_Lit, mtch_end. eauto.
Qed.

End locate.

(** ** The authz option is found where it is declared *)

Module locate_authz.
Import walk fields shape locate.

(** A text before an authz option in which the pattern starts a match holds
    the name of the extension. *)
Lemma authz_overlap :
  forall b tail s1 s2 Z,
    b <> [] -> allOf space s1 -> allOf space s2 ->
    b ++ txt "option" ++ tail
    = txt "option" ++ s1 ++ "(" :: s2 ++ txt "proto.v1.authz" ++ Z ->
    occurs (txt "proto.v1.authz") b.
Proof.
  intros b tail s1 s2 Z Hb H1 H2 E.
  change (txt "option") with ["o"; "p"; "t"; "i"; "o"; "n"] in E.
  destruct b as [| b0 [| b1 [| b2 [| b3 [| b4 [| b5 B]]]]]]; [congruence | | | | | |];
    cbn [app] in E; try discriminate E.
  injection E as -> -> -> -> -> -> E.
  apply (occurs_app_r _ ["o"; "p"; "t"; "i"; "o"; "n"] B).
  apply app_eq_app in E as [t [[HB E] | [Hs1 E]]].
  - destruct t as [| t0 t]; cbn [app] in E; [discriminate E |].
    injection E as <- E.
    apply app_eq_app in E as [v [[Hs2 E] | [Ht E]]].
    + exfalso. destruct v as [| v0 v]; cbn [app] in E; [discriminate E |].
      injection E as <- E. subst s2.
      apply allOf_app in H2 as [_ H2]. apply allOf_cons in H2 as [H2 _].
      discriminate.
    + subst t B. symmetry in E.
      change ("p" :: "r" :: "o" :: "t" :: "o" :: "." :: "v" :: "1" :: "."
                :: "a" :: "u" :: "t" :: "h" :: "z" :: Z)
        with (txt "proto.v1.authz" ++ Z) in E.
      apply app_eq_app in E as [u [[Hv E] | [HP E]]].
      * exists (s1 ++ "(" :: s2), u. subst v. flatten_app. reflexivity.
      * destruct u as [| u0 u].
        -- rewrite app_nil_r in HP. subst v.
           exists (s1 ++ "(" :: s2), []. flatten_app. reflexivity.
        -- exfalso. cbn [app] in E. injection E as <- E.
           change (txt "proto.v1.authz")
             with ["p"; "r"; "o"; "t"; "o"; "."; "v"; "1"; "."; "a"; "u"; "t";
                   "h"; "z"] in HP.
           do 15 (destruct v as [| ? v]; cbn [app] in HP;
                  [ try discriminate HP; injection HP as HP; subst u;
                    cbn [app] in E; discriminate E
                  | try discriminate HP; injection HP as _ HP ]).
  - exfalso. destruct t as [| t0 t]; cbn [app] in E; [discriminate E |].
    injection E as <- E. subst s1.
    apply allOf_app in H1 as [_ H1]. apply allOf_cons in H1 as [H1 _].
    discriminate.
Qed.

(** The authz pattern on a head of the authz option. *)
Lemma authz_here :
  forall g1 g2 g3 g4 g5 rest bol,
    allOf space g1 -> allOf space g2 -> allOf space g3 -> allOf space g4 ->
    allOf space g5 ->
    exists marks,
      mtch authzStartRegex [] bol (authzHeader g1 g2 g3 g4 g5 ++ rest)
      = Some (rest, marks).
Proof.
  intros g1 g2 g3 g4 g5 rest bol H1 H2 H3 H4 H5.
  unfold authzStartRegex, authzHeader. rewrite <- !app_assoc.
  rewrite mtch_Lit, mtch_Star.
  rewrite greedy_all; [| now apply failsOn_Lit | assumption | reflexivity].
  rewrite mtch_Lit, mtch_Star.
  rewrite greedy_all; [| now apply failsOn_Lit | assumption | reflexivity].
  rewrite mtch_Lit, mtch_Star.
  rewrite greedy_all; [| now apply failsOn_Lit | assumption | reflexivity].
  rewrite mtch_Lit, mtch_Star.
  rewrite greedy_all; [| now apply failsOn_Lit | assumption | reflexivity].
  rewrite mtch_Lit, mtch_Star.
  rewrite greedy_all; [| now apply failsOn_Lit | assumption | reflexivity].
  rewrite mtch_Lit, mtch_end. eauto.
Qed.

End locate_authz.

(** ** The method body and the authz block *)

Module cut.
Import walk fields shape locate locate_authz.

Lemma search_None :
  forall r s bol pos,
    search r bol s pos = None <->
    (forall a b, s = a ++ b -> mtch r [] (bolAfter a bol) b = None).
Proof.
  intros r s; induction s as [| c s IH]; intros bol pos; cbn [search].
  - destruct (mtch r [] bol []) as [o |] eqn:E; split; try discriminate.
    + intros H. specialize (H [] [] eq_refl). cbn in H. congruence.
    + intros _ [| x a] [| y b] Hab; try discriminate. exact E.
    + reflexivity.
  - destruct (mtch r [] bol (c :: s)) as [o |] eqn:E; split; try discriminate.
    + intros H. specialize (H [] (c :: s) eq_refl). cbn in H. congruence.
    + intros H [| x a] b Hab.
      * cbn [app] in Hab. subst b. exact E.
      * cbn [app] in Hab. inversion Hab; subst. rewrite bolAfter_cons.
        now apply (proj1 (IH _ _) H).
    + intros H. apply IH. intros a b ->.
      apply (H (c :: a) b eq_refl).
Qed.

Lemma FindStringIndex_None :
  forall r s,
    FindStringIndex r s = None <->
    (forall a b, s = a ++ b -> mtch r [] (bolAfter a true) b = None).
Proof.
  intros r s. rewrite <- (search_None r s true 0). unfold FindStringIndex.
  destruct (search r true s 0) as [[start [rest marks]] |]; split;
    congruence.
Qed.

(** What both callers of the scan cut out after the match of their
    pattern, when the scan ends at depth 0. *)
Lemma cut_found :
  forall r content a e pos,
    FindStringIndex r content = Some (a, e) ->
    matchBrace content e = (pos, 0%Z) ->
    exists pre mid body after marks,
      content = pre ++ mid ++ body ++ "}" :: after /\
      mtch r [] (bolAfter pre true) (mid ++ body ++ "}" :: after)
      = Some (body ++ "}" :: after, marks) /\
      (forall x y, pre = x ++ y -> y <> [] ->
         mtch r [] (bolAfter x true) (y ++ mid ++ body ++ "}" :: after) = None) /\
      nested body 1 = true /\
      slice content e (pos - 1) = body.
Proof.
  intros r content a e pos Hfind Hscan.
  destruct (FindStringIndex_found _ _ _ _ Hfind)
    as (pre & mid & rest & marks & -> & _ & -> & Hm & Hnone).
  rewrite app_assoc in Hscan. rewrite matchBrace_app in Hscan.
  destruct (scanBraces_reads _ _ _ _ _ Z.lt_0_1 Hscan)
    as (read & unread & -> & -> & Hzero & Hbefore & Hend).
  destruct Hend as [[_ Hne] | [Hpos _]]; [| lia].
  destruct (closing_last read 1 Hne Hbefore (eq_sym Hzero)) as (body & -> & Hnested).
  exists pre, mid, body, unread, marks.
  rewrite <- !app_assoc in *. cbn [app] in *. splits; auto.
  replace (len (pre ++ mid) + len (body ++ ["}"]) - 1)%Z
    with (len (pre ++ mid) + len body)%Z by (rewrite !len_app; unfold len; simpl; lia).
  rewrite (app_assoc pre mid). apply slice_app_mid.
Qed.

(** The method pattern matches at the heads of the methods of that name
    and nowhere else. *)
Lemma rpc_match_head :
  forall name bol b o,
    mtch (rpcRegex name) [] bol b = Some o -> methodHead name b.
Proof.
  intros name bol b [rest marks] H.
  apply rpc_inv in H as (g & Hname & Hg & ->). now exists g, rest.
Qed.

Lemma rpc_head_matches :
  forall name bol b,
    properName name -> methodHead name b ->
    mtch (rpcRegex name) [] bol b <> None.
Proof.
  intros name bol b Hname (g & rest & -> & <- & Hg).
  destruct (rpc_here g rest bol Hg Hname) as [marks ->]. discriminate.
Qed.

Lemma authz_match_head :
  forall bol b o, mtch authzStartRegex [] bol b = Some o -> authzHead b.
Proof.
  intros bol b [rest marks] H.
  apply authz_inv in H as (g1 & g2 & g3 & g4 & g5 & H1 & H2 & H3 & H4 & H5 & ->).
  exists g1, g2, g3, g4, g5, rest. now splits.
Qed.

Lemma authz_head_matches :
  forall bol b, authzHead b -> mtch authzStartRegex [] bol b <> None.
Proof.
  intros bol b (g1 & g2 & g3 & g4 & g5 & rest & -> & H1 & H2 & H3 & H4 & H5).
  destruct (authz_here g1 g2 g3 g4 g5 rest bol H1 H2 H3 H4 H5) as [marks ->].
  discriminate.
Qed.

Lemma methodBodyOf_found :
  forall content name body,
    methodBodyOf content name = Ok body ->
    exists pre g after,
      content = pre ++ renderSignature g ++ body ++ "}" :: after /\
      rpcName g = name /\ wellFormed g /\ nested body 1 = true /\
      (properName name ->
       noneBefore (methodHead name) pre
         (renderSignature g ++ body ++ "}" :: after)).
Proof.
  intros content name body. unfold methodBodyOf.
  destruct (FindStringIndex (rpcRegex name) content) as [[a rpcEnd] |] eqn:Hfind;
    [| discriminate].
  replace (rpcEnd - 1 + 1)%Z with rpcEnd by lia.
  destruct (matchBrace content rpcEnd) as [pos bc] eqn:Hscan.
  destruct (Z.eqb_spec bc 0) as [-> | _]; [| discriminate].
  cbn [negb]. intros H; inversion H; subst body; clear H.
  destruct (cut_found _ _ _ _ _ Hfind Hscan)
    as (pre & mid & body & after & marks & -> & Hm & Hnone & Hnested & ->).
  apply rpc_inv in Hm as (g & Hname & Hg & E).
  apply app_inv_tail in E. subst mid.
  exists pre, g, after. splits; auto.
  intros Hproper x y Hxy Hy Hhead.
  apply (rpc_head_matches name (bolAfter x true)) in Hhead; [| assumption].
  apply Hhead. now apply Hnone.
Qed.

Lemma authzBlock_found :
  forall methodBody block,
    authzBlock methodBody = Ok block ->
    exists pre g1 g2 g3 g4 g5 after,
      methodBody = pre ++ authzHeader g1 g2 g3 g4 g5 ++ block ++ "}" :: after /\
      allOf space g1 /\ allOf space g2 /\ allOf space g3 /\ allOf space g4 /\
      allOf space g5 /\ nested block 1 = true /\
      noneBefore authzHead pre
        (authzHeader g1 g2 g3 g4 g5 ++ block ++ "}" :: after).
Proof.
  intros methodBody block. unfold authzBlock.
  destruct (FindStringIndex authzStartRegex methodBody) as [[a startPos] |] eqn:Hfind;
    [| discriminate].
  destruct (matchBrace methodBody startPos) as [pos bc] eqn:Hscan.
  destruct (Z.eqb_spec bc 0) as [-> | _]; [| discriminate].
  cbn [negb]. intros H; inversion H; subst block; clear H.
  destruct (cut_found _ _ _ _ _ Hfind Hscan)
    as (pre & mid & block & after & marks & -> & Hm & Hnone & Hnested & ->).
  apply authz_inv in Hm as (g1 & g2 & g3 & g4 & g5 & H1 & H2 & H3 & H4 & H5 & E).
  apply app_inv_tail in E. subst mid.
  exists pre, g1, g2, g3, g4, g5, after. splits; auto.
  intros x y Hxy Hy Hhead.
  apply (authz_head_matches (bolAfter x true)) in Hhead.
  apply Hhead. now apply Hnone.
Qed.

(** No match of the method pattern starts before the first method head
    that holds the name. *)
Lemma rpc_not_before :
  forall g pre a b rest bol,
    wellFormed g -> properName (rpcName g) -> ~ occurs (rpcName g) pre ->
    pre = a ++ b -> b <> [] ->
    mtch (rpcRegex (rpcName g)) [] bol (b ++ renderSignature g ++ rest) = None.
Proof.
  intros g pre a b rest bol Hg Hname Hno -> Hb.
  destruct (mtch (rpcRegex (rpcName g)) [] bol (b ++ renderSignature g ++ rest))
    as [[rest' marks] |] eqn:E; [exfalso | reflexivity].
  apply rpc_inv in E as (g' & Hsame & Hg' & E).
  apply Hno. apply occurs_app_r.
  destruct Hg as (Hne & H1 & _). destruct Hg' as (Hne' & H1' & H2' & _).
  unfold renderSignature in E. rewrite Hsame in E. rewrite <- !app_assoc in E.
  exact (rpc_overlap (rpcName g) b (gapName g) _ (gapName g') (gapRequest g') _
           Hname Hb Hne H1 Hne' H1' H2' E).
Qed.

Lemma authz_not_before :
  forall pre a b g1 g2 g3 g4 g5 rest bol,
    ~ occurs (txt "proto.v1.authz") pre ->
    pre = a ++ b -> b <> [] ->
    mtch authzStartRegex [] bol (b ++ authzHeader g1 g2 g3 g4 g5 ++ rest) = None.
Proof.
  intros pre a b g1 g2 g3 g4 g5 rest bol Hno -> Hb.
  destruct (mtch authzStartRegex [] bol (b ++ authzHeader g1 g2 g3 g4 g5 ++ rest))
    as [[rest' marks] |] eqn:E; [exfalso | reflexivity].
  apply authz_inv in E as (s1 & s2 & s3 & s4 & s5 & H1 & H2 & _ & _ & _ & E).
  apply Hno. apply occurs_app_r.
  unfold authzHeader in E. rewrite <- !app_assoc in E.
  exact (authz_overlap b _ s1 s2 _ Hb H1 H2 E).
Qed.

(** The span of the first match when no match starts in [pre]. *)
Lemma FindStringIndex_at :
  forall r pre mid rest marks,
    (forall a b, pre = a ++ b -> b <> [] ->
       mtch r [] (bolAfter a true) (b ++ mid ++ rest) = None) ->
    mtch r [] (bolAfter pre true) (mid ++ rest) = Some (rest, marks) ->
    FindStringIndex r (pre ++ mid ++ rest) = Some (len pre, len (pre ++ mid)).
Proof.
  intros r pre mid rest marks Hnone Hm. unfold FindStringIndex.
  rewrite search_skip by exact Hnone.
  rewrite (search_here _ _ _ _ _ Hm). f_equal. f_equal.
  rewrite !len_app. lia.
Qed.

(** The body after the first head of the name is returned. *)
Lemma methodBodyOf_first :
  forall pre g body after,
    wellFormed g -> properName (rpcName g) ->
    noneBefore (methodHead (rpcName g)) pre
      (renderSignature g ++ body ++ "}" :: after) ->
    nested body 1 = true ->
    methodBodyOf (pre ++ renderSignature g ++ body ++ "}" :: after) (rpcName g)
    = Ok body.
Proof.
  intros pre g body after Hg Hname Hfirst Hnested. unfold methodBodyOf.
  destruct (rpc_here g (body ++ "}" :: after) (bolAfter pre true) Hg Hname)
    as [marks Hm].
  rewrite (FindStringIndex_at _ pre (renderSignature g) _ marks).
  - replace (len (pre ++ renderSignature g) - 1 + 1)%Z
      with (len (pre ++ renderSignature g)) by lia.
    rewrite (app_assoc pre).
    destruct (cut_nested (pre ++ renderSignature g) body after Hnested) as [-> Hslice].
    cbn [Z.eqb negb]. now rewrite Hslice.
  - intros a b Hab Hb.
    destruct (mtch (rpcRegex (rpcName g)) [] (bolAfter a true)
                (b ++ renderSignature g ++ body ++ "}" :: after)) as [o |] eqn:E;
      [exfalso | reflexivity].
    apply rpc_match_head in E. now apply (Hfirst a b).
  - exact Hm.
Qed.

Lemma name_absent_first :
  forall pre g rest,
    wellFormed g -> properName (rpcName g) -> ~ occurs (rpcName g) pre ->
    noneBefore (methodHead (rpcName g)) pre (renderSignature g ++ rest).
Proof.
  intros pre g rest Hg Hname Hno a b Hab Hb Hhead.
  apply (rpc_head_matches (rpcName g) true) in Hhead; [| assumption].
  apply Hhead. now apply (rpc_not_before g pre a b).
Qed.

Lemma authzBlock_first :
  forall pre g1 g2 g3 g4 g5 block after,
    allOf space g1 -> allOf space g2 -> allOf space g3 -> allOf space g4 ->
    allOf space g5 ->
    noneBefore authzHead pre (authzHeader g1 g2 g3 g4 g5 ++ block ++ "}" :: after) ->
    nested block 1 = true ->
    authzBlock (pre ++ authzHeader g1 g2 g3 g4 g5 ++ block ++ "}" :: after)
    = Ok block.
Proof.
  intros pre g1 g2 g3 g4 g5 block after H1 H2 H3 H4 H5 Hfirst Hnested.
  unfold authzBlock.
  destruct (authz_here g1 g2 g3 g4 g5 (block ++ "}" :: after) (bolAfter pre true)
              H1 H2 H3 H4 H5) as [marks Hm].
  rewrite (FindStringIndex_at _ pre (authzHeader g1 g2 g3 g4 g5) _ marks).
  - rewrite (app_assoc pre).
    destruct (cut_nested (pre ++ authzHeader g1 g2 g3 g4 g5) block after Hnested)
      as [-> Hslice].
    cbn [Z.eqb negb]. now rewrite Hslice.
  - intros a b Hab Hb.
    destruct (mtch authzStartRegex [] (bolAfter a true)
                (b ++ authzHeader g1 g2 g3 g4 g5 ++ block ++ "}" :: after))
      as [o |] eqn:E; [exfalso | reflexivity].
    apply authz_match_head in E. now apply (Hfirst a b).
  - exact Hm.
Qed.

Lemma extension_absent_first :
  forall pre g1 g2 g3 g4 g5 rest,
    ~ occurs (txt "proto.v1.authz") pre ->
    noneBefore authzHead pre (authzHeader g1 g2 g3 g4 g5 ++ rest).
Proof.
  intros pre g1 g2 g3 g4 g5 rest Hno a b Hab Hb Hhead.
  apply (authz_head_matches true) in Hhead.
  apply Hhead. now apply (authz_not_before pre a b).
Qed.

Lemma methodBodyOf_located :
  forall pre g body after,
    wellFormed g -> properName (rpcName g) -> ~ occurs (rpcName g) pre ->
    nested body 1 = true ->
    methodBodyOf (pre ++ renderSignature g ++ body ++ "}" :: after) (rpcName g)
    = Ok body.
Proof.
  intros pre g body after Hg Hname Hno Hnested.
  apply methodBodyOf_first; auto. now apply name_absent_first.
Qed.

Lemma authzBlock_located :
  forall pre g1 g2 g3 g4 g5 block after,
    allOf space g1 -> allOf space g2 -> allOf space g3 -> allOf space g4 ->
    allOf space g5 ->
    ~ occurs (txt "proto.v1.authz") pre -> nested block 1 = true ->
    authzBlock (pre ++ authzHeader g1 g2 g3 g4 g5 ++ block ++ "}" :: after)
    = Ok block.
Proof.
  intros pre g1 g2 g3 g4 g5 block after H1 H2 H3 H4 H5 Hno Hnested.
  apply authzBlock_first; auto. now apply extension_absent_first.
Qed.

End cut.

(** X4: the body of a method.  For a method name without white space or
    parenthesis, the locator returns a text exactly when the file holds a
    head of a method of that name followed by that text, with matched
    braces, and by the closing brace, and no head of that name starts before
    this one: the body returned is that of the first head of the name.  In
    particular, when the name does not occur before the head, the body is
    returned whatever the text before the head and after the closing brace
    is, braces included. *)
Theorem method_body_located :
  forall name,
    properName name ->
    (forall content body,
       methodBodyOf content name = Ok body <->
       exists pre g after,
         content = pre ++ renderSignature g ++ body ++ "}" :: after /\
         rpcName g = name /\ wellFormed g /\ nested body 1 = true /\
         noneBefore (methodHead name) pre
           (renderSignature g ++ body ++ "}" :: after)) /\
    (forall pre g body after,
       rpcName g = name -> wellFormed g -> ~ occurs name pre ->
       nested body 1 = true ->
       methodBodyOf (pre ++ renderSignature g ++ body ++ "}" :: after) name
       = Ok body).
Proof.
  intros name Hname. split.
  - intros content body. split.
    + intros H.
      destruct (cut.methodBodyOf_found _ _ _ H)
        as (pre & g & after & E & Hg & Hwf & Hnested & Hfirst).
      exists pre, g, after. splits; auto.
    + intros (pre & g & after & -> & <- & Hwf & Hnested & Hfirst).
      now apply cut.methodBodyOf_first.
  - intros pre g body after <- Hwf Hno Hnested.
    now apply cut.methodBodyOf_located.
Qed.

(** X5: the authz block of a method body.  The extractor returns a text
    exactly when the body holds a head of the authz option followed by that
    text, with matched braces, and by the closing brace, and no head of the
    option starts before this one: the block returned is that of the first
    authz option.  In particular, when the name of the extension does not
    occur before the option, the block is returned whatever the text before
    the option (other options included) and after the closing brace is. *)
Theorem authz_block_located :
  (forall methodBody block,
     authzBlock methodBody = Ok block <->
     exists pre g1 g2 g3 g4 g5 after,
       methodBody = pre ++ authzHeader g1 g2 g3 g4 g5 ++ block ++ "}" :: after /\
       allOf space g1 /\ allOf space g2 /\ allOf space g3 /\ allOf space g4 /\
       allOf space g5 /\ nested block 1 = true /\
       noneBefore authzHead pre
         (authzHeader g1 g2 g3 g4 g5 ++ block ++ "}" :: after)) /\
  (forall pre g1 g2 g3 g4 g5 block after,
     allOf space g1 -> allOf space g2 -> allOf space g3 -> allOf space g4 ->
     allOf space g5 ->
     ~ occurs (txt "proto.v1.authz") pre -> nested block 1 = true ->
     authzBlock (pre ++ authzHeader g1 g2 g3 g4 g5 ++ block ++ "}" :: after)
     = Ok block).
Proof.
  split.
  - intros methodBody block. split.
    + apply cut.authzBlock_found.
    + intros (pre & g1 & g2 & g3 & g4 & g5 & after & -> & H1 & H2 & H3 & H4 & H5
              & Hnested & Hfirst).
      now apply cut.authzBlock_first.
  - apply cut.authzBlock_located.
Qed.

(** X6: the extraction as a whole.  For a file that holds the head of the
    method, its body in braces, and in the body the authz option with its
    block in braces, the options extracted are the fields read from the
    block without its comments, provided the braces of the body and of the
    block are matched, the name does not occur before the head and the name
    of the extension does not occur in the body before the option. *)
Theorem authz_options_extracted :
  forall fs protoPath pre g bodyPre g1 g2 g3 g4 g5 block bodyPost after,
    fs protoPath
    = Some (pre ++ renderSignature g
              ++ (bodyPre ++ authzHeader g1 g2 g3 g4 g5 ++ block
                    ++ "}" :: bodyPost)
              ++ "}" :: after) ->
    wellFormed g -> properName (rpcName g) -> ~ occurs (rpcName g) pre ->
    nested (bodyPre ++ authzHeader g1 g2 g3 g4 g5 ++ block ++ "}" :: bodyPost) 1
    = true ->
    allOf space g1 -> allOf space g2 -> allOf space g3 -> allOf space g4 ->
    allOf space g5 ->
    ~ occurs (txt "proto.v1.authz") bodyPre -> nested block 1 = true ->
    extractAuthzFromProtoFile fs protoPath (rpcName g)
    = parseFields (stripComments block).
Proof.
  intros fs protoPath pre g bodyPre g1 g2 g3 g4 g5 block bodyPost after
    Hfile Hg Hname Hpre Hbody H1 H2 H3 H4 H5 HbodyPre Hblock.
  unfold extractAuthzFromProtoFile. rewrite Hfile.
  rewrite cut.methodBodyOf_located by assumption.
  now rewrite cut.authzBlock_located by assumption.
Qed.

(** X7: a method is reported as not found exactly when no head of a method
    of that name starts anywhere in the file; in particular when the name
    does not occur in the file, and then the method fails with that error
    whatever its HTTP annotation is. *)
Theorem method_not_found :
  forall content name,
    ((forall a b, content = a ++ b -> ~ methodHead name b) ->
     methodBodyOf content name = Err MethodNotFound) /\
    (properName name ->
     methodBodyOf content name = Err MethodNotFound ->
     forall a b, content = a ++ b -> ~ methodHead name b) /\
    (~ occurs name content ->
     forall fs method,
       fs (ParentFilePath method) = Some content -> Name method = name ->
       parseMethod fs method = Err (ExtractAuthzFailed MethodNotFound)).
Proof.
  intros content name.
  assert (Hnone : (forall a b, content = a ++ b -> ~ methodHead name b) ->
                  methodBodyOf content name = Err MethodNotFound).
  { intros Hno. unfold methodBodyOf.
    assert (E : FindStringIndex (rpcRegex name) content = None).
    { apply cut.FindStringIndex_None. intros a b Hab.
      destruct (mtch (rpcRegex name) [] (bolAfter a true) b) as [o |] eqn:E;
        [exfalso | reflexivity].
      apply cut.rpc_match_head in E. now apply (Hno a b). }
    now rewrite E. }
  splits.
  - exact Hnone.
  - intros Hname H a b -> Hhead.
    unfold methodBodyOf in H.
    destruct (FindStringIndex (rpcRegex name) (a ++ b)) as [[s rpcEnd] |] eqn:E.
    + destruct (matchBrace _ (rpcEnd - 1 + 1)) as [pos bc].
      destruct (negb (bc =? 0)%Z); discriminate.
    + pose proof (proj1 (cut.FindStringIndex_None _ _) E a b eq_refl) as Hm.
      now apply (cut.rpc_head_matches name (bolAfter a true) b Hname Hhead).
  - intros Hno fs method Hfile Hmethod.
    unfold parseMethod, extractAuthzOptions, extractFromProtoSource,
      extractAuthzFromProtoFile.
    rewrite Hfile, Hmethod, Hnone; [reflexivity |].
    intros a b -> (g & rest & -> & <- & _). apply Hno.
    apply locate.occurs_app_r. unfold renderSignature.
    exists (txt "rpc" ++ gapName g), (gapRequest g ++ txt "(" ++ request g ++ txt ")"
      ++ gapReturns g ++ txt "returns" ++ gapResponse g ++ txt "(" ++ response g
      ++ txt ")" ++ gapBrace g ++ txt "{" ++ rest).
    now rewrite <- !app_assoc.
Qed.

(** X8: the authz option is reported as not found exactly when no head of
    the option starts anywhere in the method body; in particular when the
    name of the extension does not occur in the body, and then the method
    fails with that error whatever its HTTP annotation is. *)
Theorem authz_option_not_found :
  forall methodBody,
    (authzBlock methodBody = Err AuthzOptionsNotFound <->
     forall a b, methodBody = a ++ b -> ~ authzHead b) /\
    (~ occurs (txt "proto.v1.authz") methodBody ->
     forall fs method content,
       fs (ParentFilePath method) = Some content ->
       methodBodyOf content (Name method) = Ok methodBody ->
       parseMethod fs method = Err (ExtractAuthzFailed AuthzOptionsNotFound)).
Proof.
  intros methodBody.
  assert (Hiff : authzBlock methodBody = Err AuthzOptionsNotFound <->
                 forall a b, methodBody = a ++ b -> ~ authzHead b).
  { unfold authzBlock. split.
    - intros H a b -> Hhead.
      destruct (FindStringIndex authzStartRegex (a ++ b)) as [[s startPos] |] eqn:E.
      + destruct (matchBrace _ startPos) as [pos bc].
        destruct (negb (bc =? 0)%Z); discriminate.
      + pose proof (proj1 (cut.FindStringIndex_None _ _) E a b eq_refl) as Hm.
        now apply (cut.authz_head_matches (bolAfter a true) b Hhead).
    - intros Hno.
      assert (E : FindStringIndex authzStartRegex methodBody = None).
      { apply cut.FindStringIndex_None. intros a b Hab.
        destruct (mtch authzStartRegex [] (bolAfter a true) b) as [o |] eqn:E;
          [exfalso | reflexivity].
        apply cut.authz_match_head in E. now apply (Hno a b). }
      now rewrite E. }
  split; [exact Hiff |].
  intros Hno fs method content Hfile Hbody.
  unfold parseMethod, extractAuthzOptions, extractFromProtoSource,
    extractAuthzFromProtoFile.
  rewrite Hfile, Hbody. rewrite (proj2 Hiff); [reflexivity |].
  intros a b -> (g1 & g2 & g3 & g4 & g5 & rest & -> & _). apply Hno.
  apply locate.occurs_app_r. unfold authzHeader.
  exists (txt "option" ++ g1 ++ txt "(" ++ g2),
    (g3 ++ txt ")" ++ g4 ++ txt "=" ++ g5 ++ txt "{" ++ rest).
  now rewrite <- !app_assoc.
Qed.

(** ** The two fields of a block *)

Module declared.
Import walk fields permissions.

Lemma skipn_len :
  forall a b : text, skipn (Z.to_nat (len a)) (a ++ b) = b.
Proof.
  intros a b. unfold len.
  now rewrite Nat2Z.id, skipn_app, skipn_all, Nat.sub_diag.
Qed.

(** The permissions pattern on a text whose first [permissions] starts a
    declaration. *)
Lemma permissions_submatch :
  forall pre ws1 ws2 inner post,
    ~ occurs (txt "permissions") pre ->
    allOf space ws1 -> allOf space ws2 -> ~ In nl inner -> ~ In "]" inner ->
    FindStringSubmatch permissionsRegex (pre ++ declaration ws1 ws2 inner ++ post)
    = Some [declaration ws1 ws2 inner; inner].
Proof.
  intros pre ws1 ws2 inner post Hpre H1 H2 Hnl Hbr.
  unfold FindStringSubmatch. rewrite search_declaration by assumption.
  now rewrite skipn_len, !between_app.
Qed.

(** The flag pattern on a text whose first [no_auth_required] starts a
    declaration. *)
Lemma flag_submatch :
  forall pre ws1 ws2 value post,
    ~ occurs flagName pre ->
    allOf space ws1 -> allOf space ws2 ->
    value = txt "true" \/ value = txt "false" ->
    FindStringSubmatch noAuthRegex (pre ++ flagDeclaration ws1 ws2 value ++ post)
    = Some [flagDeclaration ws1 ws2 value; value].
Proof.
  intros pre ws1 ws2 value post Hpre H1 H2 Hvalue.
  assert (Hs : search noAuthRegex true
                 (pre ++ flagDeclaration ws1 ws2 value ++ post) 0
               = Some (len pre, (post, [value ++ post; post]))).
  { unfold flagDeclaration. rewrite <- !app_assoc.
    unfold noAuthRegex at 1. fold flagName.
    rewrite search_first by (reflexivity || assumption).
    apply search_here.
    apply (noAuth_declared ws1 ws2 value post _ H1 H2 Hvalue). }
  unfold FindStringSubmatch. rewrite Hs.
  now rewrite skipn_len, !between_app.
Qed.

Lemma parseFields_flag :
  forall body whole value,
    FindStringSubmatch noAuthRegex body = Some [whole; value] ->
    exists permissions,
      parseFields body = Ok (permissions, text_eqb value (txt "true")).
Proof.
  intros body whole value H. unfold parseFields. rewrite H.
  destruct (FindStringSubmatch permissionsRegex body) as [[| m [| list1 rest]] |];
    try (eexists; reflexivity).
  destruct (parsePermissionsString_ok list1) as [perms ->]. eauto.
Qed.

Lemma occurs_In :
  forall needle hay c, occurs needle hay -> In c needle -> In c hay.
Proof.
  intros needle hay c (a & b & ->) H. rewrite !in_app_iff. tauto.
Qed.

Lemma filler_notIn :
  forall w c, allOf filler w -> filler c = false -> ~ In c w.
Proof.
  intros w c Hw Hc Hin. rewrite (allOf_In filler w c Hw Hin) in Hc. discriminate.
Qed.

(** The name of the flag does not occur in a list none of whose elements
    holds it. *)
Lemma flag_not_in_rendered :
  forall items,
    Forall wellQuoted items ->
    (forall it, In it items -> ~ occurs flagName (element it)) ->
    ~ occurs flagName (renderList items).
Proof.
  destruct roundtrip.flag_chars as (Hdq & Hcomma & _ & _ & _ & _ & _ & Hne).
  assert (Hblank : forall w, allOf blank w -> ~ occurs flagName w).
  { intros w Hw H. apply (occurs_In _ _ "n") in H; [| now left].
    now apply (permissions_list.blank_notIn w "n" Hw). }
  assert (Hitem : forall it, wellQuoted it -> ~ occurs flagName (element it) ->
                    ~ occurs flagName (renderItem it)).
  { intros it (Hl & Hr & _) He H. unfold renderItem, quoted in H.
    rewrite <- !app_assoc in H. cbn [app] in H.
    assert (Hq : ~ In (quoteChar (style it)) flagName)
      by (destruct (style it); simpl; intuition discriminate).
    apply roundtrip.occurs_split in H as [H | H]; auto.
    - now apply (Hblank (padLeft it)).
    - apply roundtrip.occurs_split in H as [H | H]; auto.
      now apply (Hblank (padRight it)). }
  induction items as [| it items IH]; intros Hwell Helem H.
  - destruct H as ([| z a] & b & E); discriminate.
  - inversion Hwell as [| ? ? Hit Hrest]; subst.
    destruct items as [| it2 items].
    + apply (Hitem it Hit); [apply Helem; now left | exact H].
    + rewrite permissions_list.renderList_cons in H.
      apply roundtrip.occurs_split in H as [H | H]; auto.
      * apply (Hitem it Hit); [apply Helem; now left | exact H].
      * apply IH; auto. intros it' Hin. apply Helem. now right.
Qed.

Lemma rendered_chars :
  forall items c,
    c = nl \/ c = "]" ->
    Forall wellQuoted items -> ~ In c (renderList items).
Proof.
  intros items c Hc Hitems.
  apply permissions_list.renderList_notIn; auto;
    try (destruct Hc as [-> | ->]; (reflexivity || discriminate)).
  intros it Hin. rewrite Forall_forall in Hitems.
  destruct (Hitems it Hin) as (_ & _ & (_ & Hbr & Hnl) & _).
  destruct Hc as [-> | ->]; assumption.
Qed.

(** The name of the flag does not occur before the end of a declaration
    of the permissions none of whose elements holds it. *)
Lemma flag_after_permissions :
  forall w0 ws1 ws2 items sep,
    allOf filler w0 -> allOf filler sep ->
    allOf space ws1 -> allOf space ws2 ->
    Forall wellQuoted items ->
    (forall it, In it items -> ~ occurs flagName (element it)) ->
    ~ occurs flagName (w0 ++ declaration ws1 ws2 (renderList items) ++ sep).
Proof.
  intros w0 ws1 ws2 items sep H0 Hsep H1 H2 Hitems Helems.
  pose proof (flag_not_in_rendered items Hitems Helems) as Hflag.
  destruct roundtrip.flag_chars as (_ & _ & _ & Hopen & Hclose & _ & _ & _).
  unfold declaration. rewrite <- !app_assoc.
  change (txt "[" ++ renderList items ++ txt "]" ++ sep)
    with ("[" :: renderList items ++ "]" :: sep).
  rewrite !app_assoc. intros H.
  apply roundtrip.occurs_split in H as [H | H]; auto.
  - apply (occurs_In _ _ "_") in H; [| simpl; tauto].
    rewrite !in_app_iff in H.
    pose proof (filler_notIn w0 "_" H0 eq_refl).
    pose proof (fields.space_not ws1 "_" H1 eq_refl).
    pose proof (fields.space_not ws2 "_" H2 eq_refl).
    simpl in H. intuition discriminate.
  - apply roundtrip.occurs_split in H as [H | H]; auto.
    apply (occurs_In _ _ "n") in H; [| now left].
    now apply (filler_notIn sep "n" Hsep).
Qed.

(** The key of the permissions does not occur before the end of a
    declaration of the flag. *)
Lemma permissions_after_flag :
  forall w0 ws3 ws4 value sep,
    allOf filler w0 -> allOf filler sep ->
    allOf space ws3 -> allOf space ws4 ->
    value = txt "true" \/ value = txt "false" ->
    ~ occurs (txt "permissions") (w0 ++ flagDeclaration ws3 ws4 value ++ sep).
Proof.
  intros w0 ws3 ws4 value sep H0 Hsep H3 H4 Hvalue H.
  apply fields.occurs_head in H.
  unfold flagDeclaration in H. rewrite !in_app_iff in H.
  pose proof (filler_notIn w0 "p" H0 eq_refl).
  pose proof (filler_notIn sep "p" Hsep eq_refl).
  pose proof (fields.space_not ws3 "p" H3 eq_refl).
  pose proof (fields.space_not ws4 "p" H4 eq_refl).
  destruct Hvalue as [-> | ->]; simpl in H; intuition discriminate.
Qed.

End declared.



(** ** What a permission of a rule looks like *)

Module cleaned.
Import strings walk.

Lemma dropSpaces_suffix :
  forall runes s skip, exists pre, s = pre ++ dropSpaces runes s skip.
Proof.
  intros runes s; induction s as [| c s IH]; intros skip; cbn [dropSpaces].
  - now exists [].
  - destruct skip as [| n].
    + destruct (spaceWidth runes (c :: s)) as [| n]; [now exists [] |].
      destruct (IH n) as [pre Hpre]. exists (c :: pre). cbn [app]. now f_equal.
    + destruct (IH n) as [pre Hpre]. exists (c :: pre). cbn [app]. now f_equal.
Qed.

Lemma TrimSpace_infix : forall s, occurs (TrimSpace s) s.
Proof.
  intros s. unfold TrimSpace, TrimRightSpace, TrimLeftSpace.
  destruct (dropSpaces_suffix spaceRunes s 0) as [pre Hpre].
  set (t := dropSpaces spaceRunes s 0) in *.
  destruct (dropSpaces_suffix (map (@rev ascii) spaceRunes) (rev t) 0) as [post Hpost].
  set (u := dropSpaces (map (@rev ascii) spaceRunes) (rev t) 0) in *.
  exists pre, (rev post). rewrite Hpre at 1. f_equal.
  rewrite <- rev_app_distr, <- Hpost. now rewrite rev_involutive.
Qed.

Lemma trimLeftByte_suffix :
  forall s c, exists pre, s = pre ++ trimLeftByte s c.
Proof.
  intros s c; induction s as [| x s [pre IH]]; cbn [trimLeftByte].
  - now exists [].
  - destruct (Ascii.eqb x c); [| now exists []].
    exists (x :: pre). cbn [app]. now f_equal.
Qed.

Lemma trimLeftByte_head :
  forall s c, hd_error (trimLeftByte s c) <> Some c.
Proof.
  intros s c; induction s as [| x s IH]; cbn [trimLeftByte]; [discriminate |].
  destruct (Ascii.eqb_spec x c) as [-> | Hne]; [exact IH |].
  simpl. congruence.
Qed.

Lemma Trim_infix : forall s c, occurs (Trim s c) s.
Proof.
  intros s c. unfold Trim, trimRightByte.
  destruct (trimLeftByte_suffix (rev s) c) as [post Hpost].
  set (y := trimLeftByte (rev s) c) in *.
  destruct (trimLeftByte_suffix (rev y) c) as [pre Hpre].
  exists pre, (rev post). rewrite app_assoc, <- Hpre.
  rewrite <- rev_app_distr, <- Hpost. now rewrite rev_involutive.
Qed.

Lemma Trim_edgeFree : forall s c, edgeFree c (Trim s c).
Proof.
  intros s c. unfold Trim, trimRightByte. split; [apply trimLeftByte_head |].
  set (y := trimLeftByte (rev s) c).
  destruct (trimLeftByte_suffix (rev y) c) as [pre Hpre].
  pose proof (trimLeftByte_head (rev s) c) as Hy. fold y in Hy.
  apply (f_equal (@rev ascii)) in Hpre.
  rewrite rev_involutive, rev_app_distr in Hpre.
  destruct (rev (trimLeftByte (rev y) c)) as [| x t]; [discriminate |].
  rewrite Hpre in Hy. exact Hy.
Qed.

Lemma occurs_trans :
  forall a b c, occurs a b -> occurs b c -> occurs a c.
Proof.
  intros a b c (x & y & ->) (x' & y' & ->).
  exists (x' ++ x), (y ++ y'). now rewrite <- !app_assoc.
Qed.

Lemma occurs_notIn :
  forall a b c, occurs a b -> ~ In c b -> ~ In c a.
Proof.
  intros a b c (x & y & ->) H Hin. apply H. rewrite !in_app_iff. tauto.
Qed.

Lemma cleanPermission_infix : forall perm, occurs (cleanPermission perm) perm.
Proof.
  intros perm. unfold cleanPermission.
  eapply occurs_trans; [apply Trim_infix |].
  eapply occurs_trans; [apply Trim_infix | apply TrimSpace_infix].
Qed.

Lemma Split_no_sep :
  forall s c piece, In piece (Split s c) -> ~ In c piece.
Proof.
  intros s c; induction s as [| x s IH]; intros piece; cbn [Split].
  - intros [<- | []] [].
  - destruct (Ascii.eqb_spec x c) as [-> | Hne].
    + intros [<- | Hin]; [intros [] | now apply IH].
    + destruct (Split s c) as [| p ps].
      * intros [<- | []] [H | []]. congruence.
      * intros [<- | Hin].
        -- intros [H | H]; [congruence |]. revert H. apply IH. now left.
        -- apply IH. now right.
Qed.

(** The pieces joined by the separator are the text. *)
Lemma Split_join :
  forall s c, joinWith [c] (Split s c) = s.
Proof.
  intros s c; induction s as [| x s IH]; cbn [Split]; [reflexivity |].
  pose proof (strings_facts.Split_nonempty s c) as Hne.
  destruct (Ascii.eqb_spec x c) as [-> | Hx].
  - destruct (Split s c) as [| p ps]; [congruence |].
    rewrite roundtrip.joinWith_cons, IH. reflexivity.
  - destruct (Split s c) as [| p ps]; [congruence |].
    destruct ps as [| q ps].
    + cbn [joinWith] in *. now rewrite IH.
    + rewrite roundtrip.joinWith_cons in *. rewrite <- IH. reflexivity.
Qed.

Lemma In_join :
  forall sep l piece, In piece l -> occurs piece (joinWith sep l).
Proof.
  intros sep l piece; induction l as [| x l IH]; [intros [] |].
  destruct l as [| y l].
  - intros [<- | []]. exists [], []. now rewrite app_nil_r.
  - rewrite roundtrip.joinWith_cons. intros [<- | Hin].
    + now exists [], (sep ++ joinWith sep (y :: l)).
    + destruct (IH Hin) as (a & b & ->).
      exists (x ++ sep ++ a), b. now rewrite <- !app_assoc.
Qed.

Lemma Split_pieces :
  forall s c piece,
    In piece (Split s c) -> ~ In c piece /\ occurs piece s.
Proof.
  intros s c piece H. split; [now apply (Split_no_sep s) |].
  rewrite <- (Split_join s c). now apply In_join.
Qed.

(** What the permissions parser returns. *)
Lemma parsed_permission :
  forall s permissions p,
    parsePermissionsString s = Ok permissions -> In p permissions ->
    p <> [] /\ ~ In "," p /\ edgeFree "'" p /\ occurs p s.
Proof.
  intros s perms p H Hin. unfold parsePermissionsString in H.
  destruct (TrimSpace s) as [| c t] eqn:Htrim; [inversion H; subst; contradiction |].
  rewrite permissions.clean_loop, app_nil_l in H. inversion H; subst perms; clear H.
  apply in_flat_map in Hin as (piece & Hpiece & Hin).
  unfold cleanNonEmpty in Hin.
  destruct (cleanPermission piece) as [| x q] eqn:Hclean; [contradiction |].
  destruct Hin as [<- | []].
  destruct (Split_pieces (c :: t) "," piece Hpiece) as [Hcomma Hocc].
  pose proof (cleanPermission_infix piece) as Hinfix. rewrite Hclean in Hinfix.
  splits.
  - discriminate.
  - now apply (occurs_notIn _ piece).
  - rewrite <- Hclean. unfold cleanPermission. apply Trim_edgeFree.
  - eapply occurs_trans; [exact Hinfix |].
    eapply occurs_trans; [exact Hocc |].
    rewrite <- Htrim. apply TrimSpace_infix.
Qed.

End cleaned.

(** ** The list between the brackets *)

Module group.
Import walk fields shape cleaned.

(** A lazy star stops at the first position where what follows matches. *)
Lemma lazy_inv :
  forall p k bol s o,
    lazy p k bol s = Some o ->
    exists w t,
      s = w ++ t /\ allOf p w /\ k (bolAfter w bol) t = Some o /\
      (forall a b, w = a ++ b -> b <> [] -> k (bolAfter a bol) (b ++ t) = None).
Proof.
  intros p k bol s; revert bol.
  induction s as [| c s IH]; intros bol o H; cbn [lazy] in H.
  - destruct (k bol []) as [o' |] eqn:E; [| discriminate].
    exists [], []. splits; [reflexivity | reflexivity | cbn; congruence |].
    intros a b Hab Hb. destruct a; destruct b; try discriminate. congruence.
  - destruct (k bol (c :: s)) as [o' |] eqn:E.
    + exists [], (c :: s). splits; [reflexivity | reflexivity | cbn; congruence |].
      intros a b Hab Hb. destruct a; destruct b; try discriminate. congruence.
    + destruct (p c) eqn:Hc; [| discriminate].
      destruct (IH _ _ H) as (w & t & -> & Hw & Hk & Hmin).
      exists (c :: w), t. splits; [reflexivity | now apply allOf_cons | exact Hk |].
      intros [| x a] b Hab Hb; cbn [app] in Hab.
      * subst b. exact E.
      * inversion Hab; subst. rewrite bolAfter_cons. now apply Hmin.
Qed.

(** What the group of the permissions pattern holds. *)
Lemma permissions_group :
  forall body whole list1 more,
    FindStringSubmatch permissionsRegex body = Some (whole :: list1 :: more) ->
    ~ In "]" list1 /\ ~ In nl list1 /\ occurs list1 body.
Proof.
  intros body whole list1 more H. unfold FindStringSubmatch in H.
  destruct (search permissionsRegex true body 0) as [[start [rest marks]] |] eqn:E;
    [| discriminate].
  destruct (search_found _ _ _ _ _ _ _ E) as (pre & mid & -> & -> & Hm & _).
  unfold permissionsRegex in Hm.
  apply mtch_Lit_inv in Hm as (s0 & E0 & Hm).
  apply mtch_Star_inv in Hm as (ws1 & s1 & -> & _ & Hm).
  apply mtch_Lit_inv in Hm as (s2 & -> & Hm).
  apply mtch_Star_inv in Hm as (ws2 & s3 & -> & _ & Hm).
  apply mtch_Lit_inv in Hm as (s4 & -> & Hm).
  rewrite mtch_Mark, mtch_Lazy in Hm.
  apply lazy_inv in Hm as (w & t & -> & Hw & Hm & Hmin).
  rewrite mtch_Mark in Hm. apply mtch_Lit_inv in Hm as (s5 & -> & Hm).
  rewrite mtch_end in Hm. inversion Hm; subst; clear Hm.
  cbn [app] in H.
  rewrite (between_app w ("]" :: rest)) in H.
  injection H as _ Hlist _. subst list1. splits.
  - intros Hin. apply in_split in Hin as (a & b & ->).
    assert (Hb : "]" :: b <> []) by discriminate.
    specialize (Hmin a ("]" :: b) eq_refl Hb).
    rewrite mtch_Mark in Hmin. cbn [app] in Hmin.
    change ("]" :: b ++ txt "]" ++ rest) with (txt "]" ++ b ++ txt "]" ++ rest) in Hmin.
    rewrite mtch_Lit, mtch_end in Hmin. discriminate.
  - intros Hin. pose proof (allOf_In dot w nl Hw Hin) as Hdot. discriminate.
  - rewrite E0.
    exists (pre ++ txt "permissions" ++ ws1 ++ txt ":" ++ ws2 ++ txt "["),
      (txt "]" ++ rest).
    now rewrite <- !app_assoc.
Qed.

Lemma parsed_field :
  forall body permissions noAuthRequired p,
    parseFields body = Ok (permissions, noAuthRequired) -> In p permissions ->
    p <> [] /\ ~ In "," p /\ ~ In "]" p /\ ~ In nl p /\ edgeFree "'" p /\
    occurs p body.
Proof.
  intros body perms flag p H Hin. unfold parseFields in H.
  destruct (FindStringSubmatch permissionsRegex body) as [[| whole [| list1 more]] |]
    eqn:E; try (inversion H; subst; contradiction).
  destruct (parsePermissionsString list1) as [perms' | e] eqn:Hparse; [| discriminate].
  inversion H; subst perms'; clear H.
  destruct (parsed_permission _ _ _ Hparse Hin) as (Hne & Hcomma & Hedge & Hocc).
  destruct (permissions_group _ _ _ _ E) as (Hbr & Hnl & Hbody).
  splits; auto.
  - now apply (occurs_notIn p list1).
  - now apply (occurs_notIn p list1).
  - now apply (occurs_trans p list1).
Qed.

End group.

(** X11: what a permission of a rule can be.  The permissions parser never
    returns an empty permission, one that holds a comma, or one that begins
    or ends with a single quote, and each one it returns is a stretch of its
    input; the permissions read from a block are moreover free of closing
    brackets and newlines and are stretches of the block without its
    comments; and the permissions of every rule are not empty, free of
    commas, closing brackets and newlines, and without a single quote at
    either end. *)
Theorem permissions_of_a_rule :
  (forall s permissions p,
     parsePermissionsString s = Ok permissions -> In p permissions ->
     p <> [] /\ ~ In "," p /\ edgeFree "'" p /\ occurs p s) /\
  (forall body permissions noAuthRequired p,
     parseFields body = Ok (permissions, noAuthRequired) -> In p permissions ->
     p <> [] /\ ~ In "," p /\ ~ In "]" p /\ ~ In nl p /\ edgeFree "'" p /\
     occurs p body) /\
  (forall fs method rule p,
     parseMethod fs method = Ok rule -> In p (Permissions rule) ->
     p <> [] /\ ~ In "," p /\ ~ In "]" p /\ ~ In nl p /\ edgeFree "'" p).
Proof.
  splits.
  - apply cleaned.parsed_permission.
  - apply group.parsed_field.
  - intros fs method rule p Hrule Hin.
    unfold parseMethod, extractAuthzOptions, extractFromProtoSource,
      extractAuthzFromProtoFile in Hrule.
    destruct (fs (ParentFilePath method)) as [content |]; [| discriminate].
    destruct (methodBodyOf content (Name method)) as [body | e]; [| discriminate].
    destruct (authzBlock body) as [block | e]; [| discriminate].
    destruct (parseFields (stripComments block)) as [[perms flag] | e] eqn:Hfields;
      [| discriminate].
    destruct (extractHTTPInfo method) as [[path verb] | e]; [| discriminate].
    inversion Hrule; subst rule; clear Hrule. cbn [Permissions] in Hin.
    destruct (group.parsed_field _ _ _ _ Hfields Hin) as (? & ? & ? & ? & ? & _).
    now splits.
Qed.

(** ** What the removal of the comments leaves *)

Module untouched.
Import walk fields shape group.

Lemma removeAll_sub :
  forall r s bol skip, subsequence (removeAll r bol s skip) s.
Proof.
  intros r s; induction s as [| c s IH]; intros bol skip; cbn [removeAll].
  - constructor.
  - destruct skip as [| n]; [| constructor; apply IH].
    destruct (mtch r [] bol (c :: s)) as [[rest marks] |];
      [| constructor; apply IH].
    destruct (length (c :: s) - length rest)%nat; constructor; apply IH.
Qed.

Lemma subsequence_trans :
  forall a b c, subsequence a b -> subsequence b c -> subsequence a c.
Proof.
  intros a b c Hab Hbc. revert a Hab.
  induction Hbc as [| x b c Hbc IH | x b c Hbc IH]; intros a Hab.
  - exact Hab.
  - inversion Hab; subst; constructor; now apply IH.
  - constructor. now apply IH.
Qed.

Lemma subsequence_length :
  forall a b, subsequence a b -> (length a <= length b)%nat.
Proof. induction 1; simpl; lia. Qed.

(** A match of the line comment pattern holds the marker. *)
Lemma line_pattern_needs :
  forall bol b o,
    mtch singleLineCommentRegex [] bol b = Some o -> occurs (txt "//") b.
Proof.
  intros bol b o H. unfold singleLineCommentRegex in H. rewrite mtch_Bol in H.
  destruct bol; [| discriminate].
  apply mtch_Star_inv in H as (w & t & -> & _ & H).
  apply mtch_Lit_inv in H as (s & -> & _). now exists w, s.
Qed.

(** A match of the block comment pattern starts with a whole comment. *)
Lemma block_pattern_needs :
  forall bol b o,
    mtch multiLineCommentRegex [] bol b = Some o ->
    exists c rest, b = txt "/*" ++ c ++ txt "*/" ++ rest.
Proof.
  intros bol b o H. unfold multiLineCommentRegex in H.
  apply mtch_Lit_inv in H as (s & -> & H). rewrite mtch_Lazy in H.
  apply lazy_inv in H as (c & t & -> & _ & H & _).
  apply mtch_Lit_inv in H as (rest & -> & _). now exists c, rest.
Qed.

End untouched.

(** X12: the removal of the comments only takes characters out of the
    block: what is left is the block with some of its characters deleted, in
    the same order.  And it takes nothing out of a block that holds no [//]
    and no block comment that is closed; a block comment that is not closed
    stays in the block. *)
Theorem comment_removal_only_deletes :
  forall block,
    subsequence (stripComments block) block /\
    (length (stripComments block) <= length block)%nat /\
    (~ occurs (txt "//") block ->
     (~ exists pre c post, block = pre ++ txt "/*" ++ c ++ txt "*/" ++ post) ->
     stripComments block = block).
Proof.
  intros block.
  assert (Hsub : subsequence (stripComments block) block).
  { unfold stripComments, ReplaceAllString_empty.
    eapply untouched.subsequence_trans; apply untouched.removeAll_sub. }
  splits.
  - exact Hsub.
  - now apply untouched.subsequence_length.
  - intros Hline Hblock. unfold stripComments, ReplaceAllString_empty.
    assert (Hsingle : removeAll singleLineCommentRegex true block 0 = block).
    { apply walk.removeAll_none. intros a b ->.
      destruct (mtch singleLineCommentRegex [] (bolAfter a true) b) as [o |] eqn:E;
        [exfalso | reflexivity].
      apply untouched.line_pattern_needs in E. apply Hline.
      now apply locate.occurs_app_r. }
    rewrite Hsingle. apply walk.removeAll_none. intros a b ->.
    destruct (mtch multiLineCommentRegex [] (bolAfter a true) b) as [o |] eqn:E;
      [exfalso | reflexivity].
    apply untouched.block_pattern_needs in E as (c & rest & ->).
    apply Hblock. now exists a, c, rest.
Qed.

(** ** Declarations that are not read *)

Module unread.
Import walk fields permissions shape.

(** With a key that has no border, an occurrence that starts inside
    another one is impossible: a later occurrence lies after the first. *)
Lemma later_occurrence :
  forall K t X Y,
    borderless K = true -> t <> [] ->
    K ++ Y = t ++ K ++ X -> occurs K Y.
Proof.
  intros K t X Y Hborder Ht E.
  apply app_eq_app in E as [u [[HK E] | [Ht' E]]].
  - destruct u as [| x u].
    + rewrite app_nil_r in HK. subst t. cbn [app] in E. subst Y. now exists [], X.
    + exfalso. remember (x :: u) as U eqn:HU.
      assert (HlenU : (0 < length U)%nat) by (subst U; simpl; lia).
      clear HU x u.
      assert (Hk : In (length t) (seq 1 (length K - 1))).
      { apply in_seq. subst K. rewrite length_app.
        destruct t; [congruence | simpl; lia]. }
      unfold borderless in Hborder. rewrite forallb_forall in Hborder.
      specialize (Hborder _ Hk). apply negb_true_iff in Hborder.
      assert (Hskip : skipn (length t) K = U)
        by (subst K; now rewrite skipn_app, skipn_all, Nat.sub_diag).
      assert (Hfirst : firstn (length K - length t) K = U).
      { replace (length K - length t)%nat with (length U)
          by (subst K; rewrite length_app; lia).
        pose proof (f_equal (firstn (length U)) E) as H.
        rewrite (firstn_app (length U) U Y) in H.
        rewrite firstn_all, Nat.sub_diag, firstn_O, app_nil_r in H.
        rewrite (firstn_app (length U) K X) in H.
        replace (length U - length K)%nat with 0%nat in H
          by (subst K; rewrite length_app; lia).
        now rewrite firstn_O, app_nil_r in H. }
      rewrite Hskip, Hfirst in Hborder.
      assert (Hrefl : text_eqb U U = true) by now apply text_eqb_eq.
      congruence.
  - subst t. now exists u, X.
Qed.

(** The search finds nothing when the pattern does not match at the only
    occurrence of the key it starts with. *)
Lemma search_once :
  forall K r pre Y bol pos,
    borderless K = true -> ~ occurs K pre -> ~ occurs K Y ->
    mtch (Lit K :: r) [] (bolAfter pre bol) (K ++ Y) = None ->
    search (Lit K :: r) bol (pre ++ K ++ Y) pos = None.
Proof.
  intros K r pre Y bol pos Hborder Hpre HY Hm.
  rewrite search_first by assumption.
  apply cut.search_None. intros a b Hab.
  destruct a as [| x a]; [cbn [app] in Hab; subst b; exact Hm |].
  apply mtch_Lit_fail.
  destruct (stripPrefix K b) as [X |] eqn:E; [exfalso | reflexivity].
  apply stripPrefix_Some in E. subst b.
  apply HY. apply (later_occurrence K (x :: a) X Y); [assumption | discriminate |].
  exact Hab.
Qed.

Lemma occurs_past_space :
  forall K w s,
    K <> [] -> space (hd "000" K) = false -> allOf space w ->
    occurs K (w ++ s) -> occurs K s.
Proof.
  intros K w s HK Hhd Hw. induction w as [| c w IH]; intros H; [exact H |].
  apply allOf_cons in Hw as [Hc Hw]. apply IH; [assumption |].
  destruct H as ([| x a] & b & E); cbn [app] in E.
  - destruct K as [| k K]; [congruence |]. cbn [app hd] in *.
    inversion E; subst. congruence.
  - inversion E; subst. now exists a, b.
Qed.

End unread.

(** X13: a value of the flag other than [true] and [false] is not read.
    When the only [no_auth_required] of the block without its comments is
    followed by a colon and by something that does not start with [true] or
    [false] (as [True], [1] or [yes] do not), the flag is false and no error
    is raised. *)
Theorem flag_value_not_read :
  forall block pre ws1 ws2 rest,
    stripComments block = pre ++ flagName ++ ws1 ++ txt ":" ++ ws2 ++ rest ->
    ~ occurs flagName pre -> ~ occurs flagName rest ->
    allOf space ws1 -> allOf space ws2 -> stops space rest ->
    stripPrefix (txt "true") rest = None ->
    stripPrefix (txt "false") rest = None ->
    readNoAuth block = Some false.
Proof.
  intros block pre ws1 ws2 rest Hblock Hpre Hrest H1 H2 Hstop Htrue Hfalse.
  destruct roundtrip.flag_chars as (_ & _ & _ & _ & _ & Hcolon & _ & Hne).
  assert (Hnone : FindStringSubmatch noAuthRegex (stripComments block) = None).
  { rewrite Hblock. unfold FindStringSubmatch.
    unfold noAuthRegex at 1. fold flagName. rewrite unread.search_once; auto.
    - intros H. change (txt ":" ++ ws2 ++ rest) with (":" :: ws2 ++ rest) in H.
      apply roundtrip.occurs_split in H as [H | H]; auto.
      + apply (declared.occurs_In _ _ "n") in H; [| now left].
        now apply (fields.space_not ws1 "n" H1).
      + apply unread.occurs_past_space in H; auto.
    - rewrite walk.mtch_Lit, walk.mtch_Star.
      rewrite walk.greedy_all;
        [| now apply fields.failsOn_Lit | assumption | reflexivity].
      rewrite walk.mtch_Lit, walk.mtch_Star.
      rewrite walk.greedy_all; [| | assumption | assumption].
      + rewrite walk.mtch_Mark, walk.mtch_Alt. cbn [firstOf].
        now rewrite Htrue, Hfalse.
      + intros b c s Hc. rewrite walk.mtch_Mark, walk.mtch_Alt. cbn [firstOf].
        rewrite !fields.stripPrefix_mismatch; [reflexivity | | | |];
          try discriminate; cbn; intros <-; discriminate. }
  unfold readNoAuth, parseFields. rewrite Hnone.
  destruct (FindStringSubmatch permissionsRegex (stripComments block))
    as [[| m [| list1 more]] |]; try reflexivity.
  now destruct (parsePermissionsString_ok list1) as [perms ->].
Qed.

(** X14: a list of permissions that is broken over lines is not read.
    When the only [permissions] of the block without its comments starts a
    declaration whose opening bracket is not closed on its line, the rule
    has no permissions and no error is raised. *)
Theorem list_over_lines_not_read :
  forall block pre ws1 ws2 line rest,
    stripComments block
    = pre ++ txt "permissions" ++ ws1 ++ txt ":" ++ ws2 ++ txt "[" ++ line
          ++ nl :: rest ->
    ~ occurs (txt "permissions") pre ->
    ~ occurs (txt "permissions") (line ++ nl :: rest) ->
    allOf space ws1 -> allOf space ws2 ->
    ~ In "]" line -> ~ In nl line ->
    readPermissions block = Some [] /\
    (forall fs method content body rule,
       fs (ParentFilePath method) = Some content ->
       methodBodyOf content (Name method) = Ok body ->
       authzBlock body = Ok block ->
       parseMethod fs method = Ok rule ->
       Permissions rule = []).
Proof.
  intros block pre ws1 ws2 line rest Hblock Hpre Hrest H1 H2 Hbr Hnl.
  assert (Hnone : FindStringSubmatch permissionsRegex (stripComments block) = None).
  { rewrite Hblock. unfold FindStringSubmatch.
    unfold permissionsRegex at 1. rewrite unread.search_once; auto.
    - intros H.
      change (txt ":" ++ ws2 ++ txt "[" ++ line ++ nl :: rest)
        with (":" :: ws2 ++ "[" :: line ++ nl :: rest) in H.
      apply roundtrip.occurs_split in H as [H | H];
        [| | simpl; intuition discriminate].
      + apply fields.occurs_head in H. now apply (fields.space_not ws1 "p" H1).
      + apply roundtrip.occurs_split in H as [H | H];
          [| | simpl; intuition discriminate].
        * apply fields.occurs_head in H. now apply (fields.space_not ws2 "p" H2).
        * contradiction.
    - rewrite walk.mtch_Lit, walk.mtch_Star.
      rewrite walk.greedy_all;
        [| now apply fields.failsOn_Lit | assumption | reflexivity].
      rewrite walk.mtch_Lit, walk.mtch_Star.
      rewrite walk.greedy_all;
        [| now apply fields.failsOn_Lit | assumption | reflexivity].
      rewrite walk.mtch_Lit, walk.mtch_Mark, walk.mtch_Lazy.
      rewrite walk.lazy_skip.
      + cbn [lazy]. rewrite walk.mtch_Mark.
        rewrite walk.mtch_Lit_fail by reflexivity. reflexivity.
      + now apply permissions.allOf_dot.
      + intros a [| c b] -> Hb; [congruence |].
        rewrite walk.mtch_Mark. apply walk.mtch_Lit_fail.
        change (txt "]") with ["]"]. apply fields.stripPrefix_head.
        intros ->. apply Hbr. rewrite in_app_iff. right. now left. }
  assert (Hfields : exists flag, parseFields (stripComments block) = Ok ([], flag)).
  { unfold parseFields. rewrite Hnone. eauto. }
  destruct Hfields as [flag Hfields]. split.
  - unfold readPermissions. now rewrite Hfields.
  - intros fs method content body rule Hfile Hbody Hauthz Hrule.
    unfold parseMethod, extractAuthzOptions, extractFromProtoSource,
      extractAuthzFromProtoFile in Hrule.
    rewrite Hfile, Hbody, Hauthz, Hfields in Hrule.
    destruct (extractHTTPInfo method) as [[path verb] | e]; [| discriminate].
    now inversion Hrule.
Qed.

(** ** From the declaration of a method to its rule *)


(** ** A list without elements *)

Lemma cleanPermission_blank :
  forall piece, allOf blank piece -> cleanPermission piece = [].
Proof.
  intros piece H. unfold cleanPermission.
  now rewrite strings_facts.TrimSpace_blank.
Qed.

Lemma allOf_occurs :
  forall (p : ascii -> bool) a b, occurs a b -> allOf p b -> allOf p a.
Proof.
  intros p a b (x & y & ->) H.
  apply walk.allOf_app in H as [_ H]. now apply walk.allOf_app in H as [H _].
Qed.

Lemma parse_unquoted :
  forall inner,
    allOf (fun c => blank c || Ascii.eqb c ",") inner ->
    parsePermissionsString inner = Ok [].
Proof.
  intros inner H. unfold parsePermissionsString.
  destruct (strings.TrimSpace inner) as [| c t] eqn:Htrim; [reflexivity |].
  rewrite permissions.clean_loop, app_nil_l. f_equal.
  assert (Ht : allOf (fun c => blank c || Ascii.eqb c ",") (c :: t)).
  { rewrite <- Htrim. apply (allOf_occurs _ _ inner); [| assumption].
    apply cleaned.TrimSpace_infix. }
  assert (Hpieces : forall piece, In piece (strings.Split (c :: t) ",") ->
                      cleanNonEmpty piece = []).
  { intros piece Hin.
    destruct (cleaned.Split_pieces (c :: t) "," piece Hin) as [Hcomma Hocc].
    unfold cleanNonEmpty. rewrite cleanPermission_blank; [reflexivity |].
    pose proof (allOf_occurs _ _ _ Hocc Ht) as Hp.
    unfold allOf in *. rewrite forallb_forall in *. intros x Hx.
    specialize (Hp x Hx). apply orb_true_iff in Hp as [Hp | Hp]; [exact Hp |].
    apply Ascii.eqb_eq in Hp. subst x. contradiction. }
  induction (strings.Split (c :: t) ",") as [| piece pieces IH]; [reflexivity |].
  cbn [flat_map]. rewrite (Hpieces piece) by now left.
  apply IH. intros q Hq. apply Hpieces. now right.
Qed.

(** X16: a list without elements gives no permissions.  When the first
    [permissions] of the block without its comments starts a declaration
    whose brackets hold nothing but blanks and commas, the rule has no
    permissions and no error is raised. *)
Theorem empty_list_declared :
  forall block pre ws1 ws2 inner post,
    stripComments block = pre ++ declaration ws1 ws2 inner ++ post ->
    ~ occurs (txt "permissions") pre ->
    allOf space ws1 -> allOf space ws2 ->
    allOf (fun c => blank c || Ascii.eqb c ",") inner ->
    readPermissions block = Some [] /\
    (forall fs method content body rule,
       fs (ParentFilePath method) = Some content ->
       methodBodyOf content (Name method) = Ok body ->
       authzBlock body = Ok block ->
       parseMethod fs method = Ok rule ->
       Permissions rule = []).
Proof.
  intros block pre ws1 ws2 inner post Hblock Hpre H1 H2 Hinner.
  assert (Hnot : forall c, blank c = false -> c <> "," -> ~ In c inner).
  { intros c Hb Hc Hin. pose proof (fields.allOf_In _ _ _ Hinner Hin) as H.
    cbn beta in H. rewrite Hb in H. cbn [orb] in H.
    apply Ascii.eqb_eq in H. contradiction. }
  assert (Hfields : exists flag, parseFields (stripComments block) = Ok ([], flag)).
  { rewrite Hblock. unfold parseFields.
    rewrite declared.permissions_submatch; auto;
      [| apply Hnot; [reflexivity | discriminate]
       | apply Hnot; [reflexivity | discriminate]].
    rewrite parse_unquoted by assumption. eauto. }
  destruct Hfields as [flag Hfields]. split.
  - unfold readPermissions. now rewrite Hfields.
  - intros fs method content body rule Hfile Hbody Hauthz Hrule.
    unfold parseMethod, extractAuthzOptions, extractFromProtoSource,
      extractAuthzFromProtoFile in Hrule.
    rewrite Hfile, Hbody, Hauthz, Hfields in Hrule.
    destruct (extractHTTPInfo method) as [[path verb] | e]; [| discriminate].
    now inversion Hrule.
Qed.

(** ** The further properties at sample inputs *)

Lemma parseMethod_errors_witness :
  (exists cause,
     ExtractHTTPFailed NoHTTPAnnotation = ExtractAuthzFailed cause /\
     extractAuthzOptions (samples.oneFile samples.readme) samples.noHTTP
     = Err cause /\
     In cause [FileReadFailure; MethodNotFound; UnmatchedBraces InMethod;
               AuthzOptionsNotFound; UnmatchedBraces InAuthzBlock]) \/
  (exists cause,
     ExtractHTTPFailed NoHTTPAnnotation = ExtractHTTPFailed cause /\
     isOk (extractAuthzOptions (samples.oneFile samples.readme) samples.noHTTP)
     = true /\
     extractHTTPInfo samples.noHTTP = Err cause /\
     In cause [NoHTTPAnnotation; NoHTTPMethodFound]).
Proof.
  apply (parseMethod_errors (samples.oneFile samples.readme) samples.noHTTP).
  vm_compute. reflexivity.
Defined.

Lemma unreadable_file_gives_no_rule_witness :
  parseFile (fun _ => None)
    (mkFile [mkService [samples.testNoPermissions; samples.testWithPermissions]])
  = [].
Proof.
  apply (proj2 (unreadable_file_gives_no_rule (fun _ => None))).
  reflexivity.
Defined.

Lemma rule_provenance_witness :
  In (mkRule (txt "/v1/test/{foo_id}") (txt "POST") [] true)
    (parseFile (samples.oneFile samples.readme)
       (mkFile [mkService [samples.testNoPermissions]])) /\
  In (txt "POST") httpVerbs.
Proof.
  assert (H : In (mkRule (txt "/v1/test/{foo_id}") (txt "POST") [] true)
                (parseFile (samples.oneFile samples.readme)
                   (mkFile [mkService [samples.testNoPermissions]])))
    by (vm_compute; now left).
  split; [exact H |].
  exact (proj1 (rule_provenance _ _ _ H)).
Defined.

Lemma method_body_located_witness :
  properName (txt "Get") /\
  methodBodyOf (txt "service S { rpc Get(Req) returns (Res) { a{b}c } rpc }")
    (txt "Get")
  = Ok (txt " a{b}c ").
Proof.
  assert (Hname : properName (txt "Get")) by (split; [discriminate | reflexivity]).
  split; [exact Hname |].
  refine (proj2 (method_body_located (txt "Get") Hname) (txt "service S { ")
            samples.getSignature (txt " a{b}c ") (txt " rpc }") eq_refl _ _ _).
  - unfold wellFormed; simpl. splits; try reflexivity. discriminate.
  - apply occursb_false. reflexivity.
  - reflexivity.
Defined.

Lemma authz_block_located_witness :
  authzBlock samples.twoOptions = Ok (txt "no_auth_required: true").
Proof.
  refine (proj2 authz_block_located
            (txtq " option (google.api.http) = { get: `/v1/x` }; ")
            [sp] [] [] [sp] [sp] (txt "no_auth_required: true") (txt "; ")
            _ _ _ _ _ _ _); try reflexivity.
  apply occursb_false. reflexivity.
Defined.

Lemma authz_options_extracted_witness :
  extractAuthzFromProtoFile
    (samples.oneFile samples.permissionsOnly) (txt "test.proto") (txt "Get")
  = parseFields (stripComments (txtq " permissions: [`a`] ")).
Proof.
  refine (authz_options_extracted
            (samples.oneFile samples.permissionsOnly)
            (txt "test.proto") (txt "service S { ") samples.getSignature
            [sp] [sp] [] [] [sp] [sp] (txtq " permissions: [`a`] ") (txt "; ")
            (txt " }") _ _ _ _ _ _ _ _ _ _ _ _); try reflexivity.
  - unfold wellFormed; simpl. splits; try reflexivity. discriminate.
  - split; [discriminate | reflexivity].
  - apply occursb_false. reflexivity.
  - apply occursb_false. reflexivity.
Defined.

Lemma method_not_found_witness :
  parseMethod (samples.oneFile samples.readme)
    (samples.methodOf "Missing" (Some (samples.getRule (txt "/v1/x"))))
  = Err (ExtractAuthzFailed MethodNotFound).
Proof.
  refine (proj2 (proj2 (method_not_found samples.readme (txt "Missing"))) _
            (samples.oneFile samples.readme)
            (samples.methodOf "Missing" (Some (samples.getRule (txt "/v1/x"))))
            eq_refl eq_refl).
  apply occursb_false. vm_compute. reflexivity.
Defined.

Lemma authz_option_not_found_witness :
  parseMethod (samples.oneFile samples.httpOnly) samples.getMethod
  = Err (ExtractAuthzFailed AuthzOptionsNotFound).
Proof.
  refine (proj2 (authz_option_not_found
                   (txtq "
    option (google.api.http) = { get: `/v1/x` };
  ")) _
            (samples.oneFile samples.httpOnly) samples.getMethod _ eq_refl _).
  - apply occursb_false. reflexivity.
  - vm_compute. reflexivity.
Defined.



Lemma permissions_of_a_rule_witness :
  txt "read:all" <> [] /\ ~ In "," (txt "read:all") /\
  edgeFree "'" (txt "read:all") /\
  occurs (txt "read:all") (txtq " `read:all` , 'write' ").
Proof.
  refine (proj1 permissions_of_a_rule (txtq " `read:all` , 'write' ")
            [txt "read:all"; txt "write"] (txt "read:all") _ _).
  - vm_compute. reflexivity.
  - now left.
Defined.

Lemma comment_removal_only_deletes_witness :
  stripComments (txtq "/* permissions: [`x`] ") = txtq "/* permissions: [`x`] ".
Proof.
  refine (proj2 (proj2 (comment_removal_only_deletes
                          (txtq "/* permissions: [`x`] "))) _ _).
  - apply occursb_false. reflexivity.
  - intros (pre & c & post & E).
    assert (H : occurs (txt "*/") (txtq "/* permissions: [`x`] ")).
    { exists (pre ++ txt "/*" ++ c), post. rewrite E.
      now rewrite <- !app_assoc. }
    revert H. apply occursb_false. reflexivity.
Defined.

Lemma flag_value_not_read_witness :
  readNoAuth (txt "no_auth_required: True") = Some false.
Proof.
  refine (flag_value_not_read (txt "no_auth_required: True") [] [] [sp]
            (txt "True") _ _ _ _ _ _ _ _); try reflexivity.
  - intros ([| x a] & b & E); discriminate.
  - apply occursb_false. reflexivity.
Defined.

Lemma list_over_lines_not_read_witness :
  readPermissions (txtq "permissions: [
  `a`
]") = Some [].
Proof.
  refine (proj1 (list_over_lines_not_read
                   (txtq "permissions: [
  `a`
]") [] [] [sp] [] (txtq "  `a`
]") _ _ _ _ _ _ _)); try reflexivity.
  - intros ([| x a] & b & E); discriminate.
  - apply occursb_false. reflexivity.
  - intros [].
  - intros [].
Defined.


Lemma empty_list_declared_witness :
  readPermissions (txt "permissions: [ , ] no_auth_required: true") = Some [].
Proof.
  refine (proj1 (empty_list_declared
                   (txt "permissions: [ , ] no_auth_required: true")
                   [] [] [sp] (txt " , ") (txt " no_auth_required: true")
                   _ _ _ _ _)); try reflexivity.
  intros ([| x a] & b & E); discriminate.
Defined.
